(** * Substitution models of PyCogent: [cogent/evolve/substitution_model.py]

    A shallow embedding of the rate-matrix builder of [SubstitutionModel]
    (instantaneous mask, predicate masks, their validation, [calcRateMatrix],
    [getMatrixParams], [getMotifProbs]) and the properties its specification
    states about it.

    Conventions.
    - A motif and a predicate name are Python [str]: [string].
    - A numpy [M x M] array is its row-major buffer ([.flat], [.ravel()]): a
      list of length [M * M]; entry [(i, j)] is position [i * M + j].
    - A numpy [float] is an exact rational ([Q]): rounding is not modelled.
    - A Python [dict] whose iteration order is used ([predicate_masks]) is an
      association list in that order; a [dict] that is only looked up and
      copied ([motif_probs]) is a [gmap] living in a store of objects.
    - A function that can raise returns [res]. *)

From Stdlib Require Import List String Ascii ZArith QArith Qabs Lia Bool Arith.
From Stdlib Require Import Sorting.Sorted Sorting.Permutation Sorting.Mergesort.
From Stdlib Require Import Structures.Orders Lqa.
From stdpp Require Import gmap strings.
Import ListNotations.

Local Open Scope string_scope.
Local Open Scope list_scope.
Local Open Scope nat_scope.

(** ** Exceptions *)

Inductive exn : Type :=
| IndexError
| AttributeError
| AssertionError (msg : string)
| ValueError (msg : string)
| KeyError (msg : string).

Inductive res (A : Type) : Type :=
| Ok (a : A)
| Raise (e : exn).
Arguments Ok {A} a.
Arguments Raise {A} e.

Definition bind {A B : Type} (r : res A) (k : A -> res B) : res B :=
  match r with
  | Ok a => k a
  | Raise e => Raise e
  end.

Notation "x <- r ;; k" := (bind r (fun x => k))
  (at level 100, r at next level, right associativity, only parsing).

Definition raises {A : Type} (r : res A) : Prop :=
  match r with
  | Ok _ => False
  | Raise _ => True
  end.

Definition motif : Type := string.

Definition chars (x : motif) : list ascii := list_ascii_of_string x.

(** ** The instantaneous rule: [_isInstantaneous] and [_isAnyIndel] *)

Module Instantaneous.

(** [zip(x, y)] *)
Definition zip (x y : motif) : list (ascii * ascii) :=
  combine (chars x) (chars y).

Definition differ (p : ascii * ascii) : bool :=
  negb (Ascii.eqb (fst p) (snd p)).

(** [sum([X != Y for (X, Y) in zip(x, y)])] *)
Definition diffs (x y : motif) : nat :=
  list_sum (map (fun p => if differ p then 1 else 0) (zip x y)).

(** [[X, Y].index(G)] *)
Definition index2 (X Y G : ascii) : res nat :=
  if Ascii.eqb X G then Ok 0
  else if Ascii.eqb Y G then Ok 1
  else Raise (ValueError "x not in list").

(** The three locals of [_isAnyIndel]. *)
Record gap : Type := Gap {
  gap_start : option nat;
  gap_end : option nat;
  gap_strand : option nat
}.

Definition no_gap : gap := Gap None None None.

Definition is_None {A : Type} (o : option A) : bool :=
  match o with
  | None => true
  | Some _ => false
  end.

(** [s == gap_strand] for an int [s]: [None] equals no int. *)
Definition same_strand (s : nat) (o : option nat) : bool :=
  match o with
  | Some t => s =? t
  | None => false
  end.

(** The [for] loop of [_isAnyIndel] from position [i] on: [zs] is what is left
    of [zip(x, y)]. [self.gapmotif[i]] is evaluated first at every position. *)
Fixpoint indel_loop (gapmotif : list ascii) (i : nat)
    (zs : list (ascii * ascii)) (st : gap) : res bool :=
  match zs with
  | [] => Ok true
  | (X, Y) :: zs' =>
      match nth_error gapmotif i with
      | None => Raise IndexError
      | Some G =>
          if negb (Ascii.eqb X Y) then
            if negb (Ascii.eqb X G) && negb (Ascii.eqb Y G) then Ok false
            else if is_None (gap_start st) then
              s <- index2 X Y G ;;
              indel_loop gapmotif (S i) zs' (Gap (Some i) (gap_end st) (Some s))
            else if negb (is_None (gap_end st)) then Ok false
            else
              s <- index2 X Y G ;;
              if negb (same_strand s (gap_strand st)) then Ok false
              else indel_loop gapmotif (S i) zs' st
          else if negb (is_None (gap_start st)) then
            indel_loop gapmotif (S i) zs'
              (Gap (gap_start st) (Some i) (gap_strand st))
          else indel_loop gapmotif (S i) zs' st
      end
  end.

Definition _isAnyIndel (gapmotif x y : motif) : res bool :=
  if String.eqb x y then Ok false
  else indel_loop (chars gapmotif) 0 (zip x y) no_gap.

(** [long_indels_are_instantaneous] is a class attribute; [True] in
    [SubstitutionModel]. *)
Definition _isInstantaneous (long_indels_are_instantaneous : bool)
    (gapmotif x y : motif) : res bool :=
  let d := diffs x y in
  if d =? 1 then Ok true
  else if (1 <? d) && long_indels_are_instantaneous
  then _isAnyIndel gapmotif x y
  else Ok false.

Definition isInstantaneous (gapmotif x y : motif) : res bool :=
  _isInstantaneous true gapmotif x y.

End Instantaneous.

(** [Codon._isInstantaneous]: the rule of the [Codon] subclass. *)
Definition Codon_isInstantaneous (gapmotif x y : motif) : res bool :=
  if String.eqb x gapmotif || String.eqb y gapmotif
  then Ok (negb (String.eqb x y))
  else Ok (Instantaneous.diffs x y =? 1).

(** ** numpy arrays as row-major buffers *)

Module Array.

(** [m[i, j]] for an array of shape [(M, M)]. *)
Definition entry {A : Type} (d : A) (M : nat) (m : list A) (i j : nat) : A :=
  nth (i * M + j) m d.

(** Row [i] of an array of shape [(M, M)]. *)
Definition row {A : Type} (M : nat) (m : list A) (i : nat) : list A :=
  firstn M (skipn (i * M) m).

(** The array with entry [(i, j)] equal to [f i j]. *)
Definition tabulate {A : Type} (M : nat) (f : nat -> nat -> A) : list A :=
  flat_map (fun i => map (f i) (seq 0 M)) (seq 0 M).

(** [numpy.nonzero(mask.ravel())[0]] *)
Fixpoint nonzero_from (n : nat) (mask : list bool) : list nat :=
  match mask with
  | [] => []
  | b :: mask' =>
      if b then n :: nonzero_from (S n) mask' else nonzero_from (S n) mask'
  end.

Definition nonzero (mask : list bool) : list nat := nonzero_from 0 mask.

(** [numpy.put(a, indices, v)] with a scalar [v]: an index out of bounds
    raises (the default [mode='raise']). *)
Fixpoint put {A : Type} (a : list A) (indices : list nat) (v : A)
  : res (list A) :=
  match indices with
  | [] => Ok a
  | n :: indices' =>
      if n <? length a then put (<[n := v]> a) indices' v
      else Raise IndexError
  end.

(** [a *= b], entry by entry. *)
Fixpoint mul (a b : list Q) : list Q :=
  match a, b with
  | x :: a', y :: b' => Qmult x y :: mul a' b'
  | _, _ => []
  end.

(** [numpy.ones(shape, Float)] *)
Definition ones (n : nat) : list Q := repeat 1%Q n.

(** [mask * 1.0] *)
Definition to_float (mask : list bool) : list Q :=
  map (fun b : bool => if b then 1%Q else 0%Q) mask.

(** [numpy.sum(a)] over a row. *)
Definition sum (l : list Q) : Q := fold_left Qplus l 0%Q.

End Array.

(** [numpy.identity(M, Float)] *)
Definition identity (M : nat) : list Q :=
  Array.tabulate M (fun i j => if i =? j then 1%Q else 0%Q).

(** [_isSymmetrical]: the matrix equals its transpose, entry by entry. *)
Definition _isSymmetrical {A : Type} (eqb : A -> A -> bool) (d : A)
    (M : nat) (matrix : list A) : bool :=
  forallb (fun i =>
    forallb (fun j => eqb (Array.entry d M matrix i j)
                          (Array.entry d M matrix j i)) (seq 0 M)) (seq 0 M).

(** ** Predicates and their masks *)

(** Every element of [l] through [f], stopping at the first exception. *)
Fixpoint mapM {A B : Type} (f : A -> res B) (l : list A) : res (list B) :=
  match l with
  | [] => Ok []
  | a :: l' => b <- f a ;; bs <- mapM f l' ;; Ok (b :: bs)
  end.

(** [predicate2matrix]: [result] starts as zeros and cell [(i, j)] is
    assigned [pred(alphabet[i], alphabet[j])] when [mask] is [None] or true
    there; the cells are visited in row-major order. *)
Definition predicate2matrix (alphabet : list motif)
    (pred : motif -> motif -> res bool) (mask : option (list bool))
  : res (list bool) :=
  let M := length alphabet in
  rows <- mapM (fun i =>
            mapM (fun j =>
              if match mask with
                 | None => true
                 | Some m => Array.entry false M m i j
                 end
              then pred (nth i alphabet "") (nth j alphabet "")
              else Ok false) (seq 0 M)) (seq 0 M) ;;
  Ok (concat rows).

(** A predicate as [adaptPredicate] uses it, once [predicate.parse] or
    [predicate.UserPredicate] (module [cogent.evolve.predicate], outside this
    file) has built the object: its [repr] and the boolean function of two
    motifs that [makeModelPredicate] returns. *)
Record predicate : Type := Predicate {
  repr : string;
  makeModelPredicate : motif -> motif -> bool
}.

(** The [predicates] and [scales] arguments: a dict (its items), or a list. *)
Inductive rules : Type :=
| RulesDict (items : list (string * predicate))
| RulesList (preds : list predicate).

(** A dict of masks in iteration order. *)
Definition masks : Type := list (string * list bool).

Definition has_key {V : Type} (k : string) (d : list (string * V)) : bool :=
  existsb (fun kv => String.eqb k (fst kv)) d.

(** ** Rank deficiency of a set of masks *)

Definition threshold : Q := 1 # 100000000.

(** [redundancyInPredicateMasks]. [svd] stands for [numpy.linalg.svd(eqns)[1]],
    the singular values of the matrix whose rows are the flattened masks. *)
Definition redundancyInPredicateMasks (svd : list (list Q) -> list Q)
    (preds : masks) : Z :=
  let masks := map snd preds in
  match masks with
  | [] => 0%Z
  | _ =>
      let eqns := map Array.to_float masks in
      let svs := svd eqns in
      let matrix_rank :=
        length (List.filter (fun sv => negb (Qle_bool (Qabs sv) threshold)) svs) in
      (Z.of_nat (length masks) - Z.of_nat matrix_rank)%Z
  end.

(** ** The store of dict objects and the log *)

Definition loc : Type := positive.

(** The dicts reachable by reference and what [LOG.warning] and
    [warnings.warn] have reported. *)
Record world : Type := World {
  heap : gmap loc (gmap string Q);
  log : list string
}.

(** The dict a reference points to. *)
Definition deref (w : world) (l : loc) : gmap string Q :=
  default ∅ (heap w !! l).

(** A new dict object holding [d]. *)
Definition alloc (w : world) (d : gmap string Q) : loc * world :=
  let l := fresh (dom (heap w)) in
  (l, World (<[l := d]> (heap w)) (log w)).

(** [d[k] = v] on the dict at [l]. *)
Definition setitem (w : world) (l : loc) (k : string) (v : Q) : world :=
  World (<[l := <[k := v]> (deref w l)]> (heap w)) (log w).

(** [del d[k]] on the dict at [l]. *)
Definition delitem (w : world) (l : loc) (k : string) : world :=
  World (<[l := delete k (deref w l)]> (heap w)) (log w).

Definition warn (w : world) (msg : string) : world :=
  World (heap w) (log w ++ [msg]).

(** ** The model object *)

(** Which [_isInstantaneous] the class of the model has. *)
Inductive model_class : Type :=
| Default
| Codon.

(** The [ordered_param] and [partitioned_params] arguments. *)
Inductive names_arg : Type :=
| NoNames
| OneName (s : string)
| Names (l : list string).

(** The [distribution] argument and [self.distrib_class]. *)
Inductive distribution_arg : Type :=
| NoDistribution
| DistributionName (s : string)
| DistributionObject (class_name : string).

Inductive distribution : Type :=
| GammaDefn
| MonotonicDefn
| OtherDefn (class_name : string).

Record SubstitutionModel : Type := {
  class : model_class;
  name : string;
  _optimise_motif_probs : bool;
  _do_scaling : bool;
  recode_gaps : bool;
  alphabet : list motif;
  gapmotif : motif;
  motif_probs : option loc;
  motif_probs_from_align : bool;
  _instantaneous_mask : list bool;
  _instantaneous_mask_f : list Q;
  symmetric : bool;
  predicate_masks : masks;
  parameter_order : list string;
  predicate_indices : list (list nat);
  scale_masks : masks;
  with_rate : bool;
  ordered_param : list string;
  partitioned_params : list string;
  distrib_class : distribution;
  _ident : list Q
}.

(** [self._isInstantaneous], by the class of the model. *)
Definition model_isInstantaneous (c : model_class) (gapmotif x y : motif)
  : res bool :=
  match c with
  | Default => Instantaneous.isInstantaneous gapmotif x y
  | Codon => Codon_isInstantaneous gapmotif x y
  end.

(** [adaptPredicate], on a predicate object: the label and the mask, computed
    within the instantaneous mask. *)
Definition adaptPredicate (alphabet : list motif) (inst : list bool)
    (pred : predicate) (label : option string) : res (string * list bool) :=
  let pred_func := fun x y => Ok (makeModelPredicate pred x y) in
  let label := match label with
               | Some s => if String.eqb s "" then repr pred else s
               | None => repr pred
               end in
  mask <- predicate2matrix alphabet pred_func (Some inst) ;;
  Ok (label, mask).

(** The loop of [_adaptPredicates]. *)
Fixpoint adapt_loop (alphabet : list motif) (inst : list bool)
    (rules : list (option string * predicate)) (predicate_masks : masks)
  : res masks :=
  match rules with
  | [] => Ok predicate_masks
  | (key, pred) :: rules' =>
      lm <- adaptPredicate alphabet inst pred key ;;
      if has_key (fst lm) predicate_masks
      then Raise (KeyError ("Duplicate predicate name " ++ fst lm))
      else adapt_loop alphabet inst rules' (predicate_masks ++ [lm])
  end.

Definition _adaptPredicates (alphabet : list motif) (inst : list bool)
    (r : rules) : res masks :=
  let rules := match r with
               | RulesDict items => map (fun kp => (Some (fst kp), snd kp)) items
               | RulesList preds => map (fun p => (None, p)) preds
               end in
  adapt_loop alphabet inst rules [].

(** [numpy.alltrue((matrix == 0).flat)] *)
Definition always_false (matrix : list bool) : bool :=
  forallb negb matrix.

(** [numpy.alltrue((matrix == self._instantaneous_mask).flat)], for two arrays
    of one shape. *)
Fixpoint same_mask (matrix inst : list bool) : bool :=
  match matrix, inst with
  | a :: matrix', b :: inst' => Bool.eqb a b && same_mask matrix' inst'
  | _, _ => true
  end.

(** The first predicate whose mask satisfies [test], in iteration order. *)
Definition first_mask (test : list bool -> bool) (preds : masks)
  : option string :=
  option_map fst (find (fun kv => test (snd kv)) preds).

(** [checkPredicateMasks]: raises, or returns the warnings it logged. The
    extra key of [predicates_plus_scale] is [None], written ["None"] here. *)
Definition checkPredicateMasks (svd : list (list Q) -> list Q)
    (do_scaling : bool) (inst : list bool) (predicate_masks : masks)
  : res (list string) :=
  match first_mask always_false predicate_masks with
  | Some name => Raise (ValueError ("Predicate " ++ name ++ " is always false."))
  | None =>
      let predicates_plus_scale := predicate_masks ++ [("None", inst)] in
      if do_scaling then
        match first_mask (fun m => same_mask m inst) predicate_masks with
        | Some name =>
            Raise (ValueError ("Predicate " ++ name ++ " is always true."))
        | None =>
            if negb (redundancyInPredicateMasks svd predicate_masks =? 0)%Z
            then Raise (ValueError "Redundancy in predicates.")
            else if negb (redundancyInPredicateMasks svd predicates_plus_scale
                          =? 0)%Z
            then Raise (ValueError
              "Some combination of predicates is equivalent to the overall rate parameter.")
            else Ok []
        end
      else
        if negb (redundancyInPredicateMasks svd predicate_masks =? 0)%Z
        then Raise (ValueError "Redundancy in predicates.")
        else if negb (redundancyInPredicateMasks svd predicates_plus_scale
                      =? 0)%Z
        then Ok ["do_scaling=True would be more efficient than these overly general predicates"]
        else Ok []
  end.

(** ** Construction: [SubstitutionModel.__init__] *)

(** The arguments of [__init__]. [arg_alphabet] and [arg_gapmotif] are the
    alphabet and [alphabet.getGapMotif()] once [withGapMotif],
    [getWordAlphabet] and [getSubset] (module [cogent.core], outside this
    file) have been applied; [motif_probs_alignment] is [None]. *)
Record init_args : Type := {
  arg_class : model_class;
  arg_alphabet : list motif;
  arg_gapmotif : motif;
  arg_predicates : option rules;
  arg_scales : option rules;
  arg_motif_probs : option loc;
  arg_optimise_motif_probs : bool;
  arg_equal_motif_probs : bool;
  arg_motif_probs_from_data : option bool;
  arg_rate_matrix : option (list Q);
  arg_model_gaps : bool;
  arg_recode_gaps : bool;
  arg_do_scaling : bool;
  arg_with_rate : bool;
  arg_name : string;
  arg_ordered_param : names_arg;
  arg_distribution : distribution_arg;
  arg_partitioned_params : names_arg
}.

Definition assert (b : bool) (msg : string) : res unit :=
  if b then Ok tt else Raise (AssertionError msg).

(** Truth value of an optional dict reference. *)
Definition dict_truthy (w : world) (o : option loc) : bool :=
  match o with
  | None => false
  | Some l => negb (size (deref w l) =? 0)
  end.

Definition rules_items (o : option rules) : rules :=
  match o with
  | Some r => r
  | None => RulesList []
  end.

Definition rules_truthy (o : option rules) : bool :=
  match o with
  | Some (RulesDict (_ :: _)) | Some (RulesList (_ :: _)) => true
  | _ => false
  end.

(** The MOTIF PROBS part: the new value of the local [motif_probs]. *)
Definition init_motif_probs (a : init_args) (w : world)
  : res (option loc * world) :=
  if arg_equal_motif_probs a then
    _ <- assert (negb (dict_truthy w (arg_motif_probs a)))
           "Motif probs equal or provided but not both" ;;
    let p := (1 / inject_Z (Z.of_nat (length (arg_alphabet a))))%Q in
    let d := fold_left (fun d motif => <[motif := p]> d) (arg_alphabet a) ∅ in
    let (l, w') := alloc w d in
    Ok (Some l, w')
  else Ok (arg_motif_probs a, w).

(** The diagonal of an array of shape [(M, M)]. *)
Definition diagonal {A : Type} (d : A) (M : nat) (m : list A) : list A :=
  map (fun i => Array.entry d M m i i) (seq 0 M).

(** The MATRIX part: [_instantaneous_mask], [_instantaneous_mask_f] and the
    warning of an empirical model with predicates. Of the shape of
    [rate_matrix], a buffer has the number of entries only: the first
    assertion compares it with [M * M]. *)
Definition init_matrix (a : init_args)
  : res (list bool * list Q * list string) :=
  let M := length (arg_alphabet a) in
  match arg_rate_matrix a with
  | Some rate_matrix =>
      _ <- assert (length rate_matrix =? M * M) "" ;;
      _ <- assert (forallb (fun q => Qeq_bool q 0) (diagonal 0%Q M rate_matrix))
             "" ;;
      let inst_f := map (fun q => Qmult q 1) rate_matrix in
      let inst := map (fun q => negb (Qeq_bool q 0)) inst_f in
      Ok (inst, inst_f,
          if rules_truthy (arg_predicates a)
          then ["Empirical model with parameters too!"] else [])
  | None =>
      inst <- predicate2matrix (arg_alphabet a)
                (model_isInstantaneous (arg_class a) (arg_gapmotif a)) None ;;
      Ok (inst, Array.to_float inst, [])
  end.

(** The loop over [predicate_masks.items()]: [symmetric], [parameter_order]
    and [predicate_indices]. *)
Fixpoint init_order (M : nat) (items : masks) (symmetric : bool)
    (parameter_order : list string) (predicate_indices : list (list nat))
  : res (bool * list string * list (list nat)) :=
  match items with
  | [] => Ok (symmetric, parameter_order, predicate_indices)
  | (pred, mask) :: items' =>
      let symmetric :=
        if negb (_isSymmetrical Bool.eqb false M mask) then false
        else symmetric in
      let indices := Array.nonzero mask in
      _ <- assert (forallb (fun n => nth n mask false) indices) "" ;;
      init_order M items' symmetric (parameter_order ++ [pred])
        (predicate_indices ++ [indices])
  end.

Definition as_tuple (n : names_arg) : list string :=
  match n with
  | NoNames => []
  | OneName s => [s]
  | Names l => l
  end.

(** [tuple(set(a) | set(b))]: the names of both, each once. *)
Definition set_union (a b : list string) : list string :=
  nodup string_dec (a ++ b).

(** [set(a) & set(b)] is not empty. *)
Definition intersects (a b : list string) : bool :=
  existsb (fun s => existsb (String.eqb s) b) a.

(** The BINS part: [with_rate], [ordered_param] and [partitioned_params]. *)
Definition init_bins (a : init_args) (parameter_order : list string)
  : res (bool * list string * list string) :=
  let ordered_param := as_tuple (arg_ordered_param a) in
  let partitioned_params := as_tuple (arg_partitioned_params a) in
  partitioned_params <-
    match ordered_param with
    | _ :: _ => Ok (set_union ordered_param partitioned_params)
    | [] =>
        _ <- assert (match partitioned_params with [] => true | _ => false end)
               "you must specify an ordered_param for a binned model" ;;
        Ok partitioned_params
    end ;;
  let with_rate :=
    arg_with_rate a || existsb (String.eqb "rate") ordered_param in
  _ <- match partitioned_params with
       | [] => Ok tt
       | _ => assert (intersects partitioned_params
                        ("rate" :: parameter_order)) ""
       end ;;
  Ok (with_rate, ordered_param, partitioned_params).

Definition init_distribution (d : distribution_arg) : res distribution :=
  match d with
  | NoDistribution => Ok MonotonicDefn
  | DistributionName s =>
      if String.eqb s "gamma" then Ok GammaDefn
      else if String.eqb s "free" then Ok MonotonicDefn
      else Raise (ValueError ("Unknown distribution " ++ s))
  | DistributionObject c => Ok (OtherDefn c)
  end.

Definition warn_all (w : world) (msgs : list string) : world :=
  fold_left warn msgs w.

(** [SubstitutionModel.__init__]: the model and the world it leaves, or the
    exception that ends the construction. *)
Definition __init__ (svd : list (list Q) -> list Q) (a : init_args) (w : world)
  : res (SubstitutionModel * world) :=
  let w := if arg_recode_gaps a && arg_model_gaps a
           then warn w "Converting gaps to wildcards AND modeling gaps"
           else w in
  let alphabet := arg_alphabet a in
  let M := length alphabet in
  mw <- init_motif_probs a w ;;
  let (motif_probs, w) := mw : option loc * world in
  stored <-
    (if dict_truthy w motif_probs then
       _ <- assert (match motif_probs with
                    | Some l => size (deref w l) =? M
                    | None => false
                    end) "" ;;
       Ok (motif_probs, default false (arg_motif_probs_from_data a))
     else Ok (None, default true (arg_motif_probs_from_data a))) ;;
  mx <- init_matrix a ;;
  let '(inst, inst_f, msgs) := mx in
  let w := warn_all w msgs in
  let symmetric := _isSymmetrical Qeq_bool 0%Q M inst_f in
  predicate_masks <- _adaptPredicates alphabet inst
                       (rules_items (arg_predicates a)) ;;
  msgs <- checkPredicateMasks svd (arg_do_scaling a) inst predicate_masks ;;
  let w := warn_all w msgs in
  order <- init_order M predicate_masks symmetric [] [] ;;
  let '(symmetric, parameter_order, predicate_indices) := order in
  let w := if negb symmetric then warn w "Model not reversible" else w in
  scale_masks <- _adaptPredicates alphabet inst (rules_items (arg_scales a)) ;;
  bins <- init_bins a parameter_order ;;
  let '(with_rate, ordered_param, partitioned_params) := bins in
  distrib_class <- init_distribution (arg_distribution a) ;;
  Ok ({| class := arg_class a;
         name := arg_name a;
         _optimise_motif_probs := arg_optimise_motif_probs a;
         _do_scaling := arg_do_scaling a;
         recode_gaps := arg_recode_gaps a;
         alphabet := alphabet;
         gapmotif := arg_gapmotif a;
         motif_probs := fst stored;
         motif_probs_from_align := snd stored;
         _instantaneous_mask := inst;
         _instantaneous_mask_f := inst_f;
         symmetric := symmetric;
         predicate_masks := predicate_masks;
         parameter_order := parameter_order;
         predicate_indices := predicate_indices;
         scale_masks := scale_masks;
         with_rate := with_rate;
         ordered_param := ordered_param;
         partitioned_params := partitioned_params;
         distrib_class := distrib_class;
         _ident := identity M |}, w).

(** ** [calcRateMatrix] *)

(** The object [self.rateMatrixClass(F, ident, symmetric)]: the class is
    [ScaledRateMatrix] when [scaled], [RateMatrix] otherwise. *)
Record RateMatrix : Type := {
  scaled : bool;
  F : list Q;
  ident : list Q;
  reversible : bool
}.

(** The loop of [calcRateMatrix] over [zip(self.predicate_indices, params)]:
    [put] the parameter into [work], multiply [F] by [work], reset [work]. *)
Fixpoint calc_loop (F work : list Q) (zipped : list (list nat * Q))
  : res (list Q) :=
  match zipped with
  | [] => Ok F
  | (indices, par) :: zipped' =>
      work <- Array.put work indices par ;;
      let F := Array.mul F work in
      let work := map (fun _ => 1%Q) work in
      calc_loop F work zipped'
  end.

Definition calcRateMatrix (self : SubstitutionModel) (params : list Q)
  : res RateMatrix :=
  _ <- assert (length params =? length (predicate_indices self)) "" ;;
  let inst := _instantaneous_mask_f self in
  let work := Array.ones (length inst) in
  F <- calc_loop inst work (combine (predicate_indices self) params) ;;
  Ok {| scaled := _do_scaling self;
        F := F;
        ident := _ident self;
        reversible := symmetric self |}.

(** Sum of the entries of row [i] off the diagonal. *)
Definition off_diagonal_sum (M : nat) (F : list Q) (i : nat) : Q :=
  Array.sum (map (fun j => if i =? j then 0%Q else Array.entry 0%Q M F i j)
               (seq 0 M)).

(** Modelled from the spec: the rate-matrix classes [RateMatrix] and
    [ScaledRateMatrix] of [cogent.evolve.substitution_calculation] are
    missing. The spec: "Off-diagonal entries are the result; diagonal entries
    are set to the negative row sum (so each row sums to exactly zero)." *)
Definition rate_matrix_Q (M : nat) (R : RateMatrix) : list Q :=
  Array.tabulate M (fun i j =>
    if i =? j then Qopp (off_diagonal_sum M (F R) i)
    else Array.entry 0%Q M (F R) i j).

(** ** [getMatrixParams] and [getMotifProbs] *)

Module StringOrder <: Orders.TotalLeBool.
Definition t := string.
Definition leb := String.leb.
Lemma leb_total : forall a1 a2, leb a1 a2 = true \/ leb a2 a1 = true.
Proof. exact String.leb_total. Qed.
End StringOrder.

Module StringSort := Mergesort.Sort StringOrder.

(** [list.sort()] on a list of [str]. *)
Definition list_sort (l : list string) : list string := StringSort.sort l.

(** [getMatrixParams]: the array of lists of parameter names. *)
Definition getMatrixParams (self : SubstitutionModel) : list (list string) :=
  let dim := length (alphabet self) in
  Array.tabulate dim (fun x y =>
    if negb (Array.entry false dim (_instantaneous_mask self) x y) then []
    else
      list_sort
        (map fst
           (List.filter (fun kv => Array.entry false dim (snd kv) x y)
              (predicate_masks self)))).

(** [getMotifProbs]: [self.motif_probs.copy()], a new dict object. *)
Definition getMotifProbs (self : SubstitutionModel) (w : world)
  : res (loc * world) :=
  match motif_probs self with
  | None => Raise AttributeError
  | Some l => Ok (alloc w (deref w l))
  end.

(** ** Linear dependence of the rows of a matrix *)

(** Entry [n] of a row; a row reads as zero past its end. *)
Definition vnth (v : list Q) (n : nat) : Q := nth n v 0%Q.

(** Entry [n] of the linear combination of [rows] with coefficients [cs]. *)
Definition lincomb (cs : list Q) (rows : list (list Q)) (n : nat) : Q :=
  fold_right (fun cr acc => (fst cr * vnth (snd cr) n + acc)%Q) 0%Q
    (combine cs rows).

(** Some combination of the rows with a non-zero coefficient is zero. *)
Definition linearly_dependent (rows : list (list Q)) : Prop :=
  exists cs, length cs = length rows /\
             Exists (fun c => ~ (c == 0)%Q) cs /\
             forall n, (lincomb cs rows n == 0)%Q.

(** [len([sv for sv in svs if abs(sv) > 1e-8])] *)
Definition significant (svs : list Q) : nat :=
  length (List.filter (fun sv => negb (Qle_bool (Qabs sv) threshold)) svs).

(** What the validation relies on from [numpy.linalg.svd]: for a matrix whose
    rows are linearly dependent, fewer singular values than rows exceed the
    threshold. *)
Definition svd_detects (svd : list (list Q) -> list Q) : Prop :=
  forall rows, linearly_dependent rows ->
               significant (svd rows) < length rows.

(** *** A reference implementation of the singular-value count

    [numpy.linalg.svd] is not part of the program. To run the model,
    [rank_svd] stands for it: in exact arithmetic the singular values of a
    matrix that are not zero are as many as its rank, so [rank_svd] returns a
    [1] for each row that Gaussian elimination finds independent of the rows
    before it, and zeros for the others, [min(rows, columns)] values in
    all. *)

Definition width (rows : list (list Q)) : nat :=
  fold_right Nat.max 0 (map (@length Q) rows).

(** The first column in which [v] is not zero. *)
Definition find_pivot (d : nat) (v : list Q) : option nat :=
  find (fun n => negb (Qeq_bool (vnth v n) 0)) (seq 0 d).

(** [v] minus the multiple of the basis row [b] that clears column [p]. *)
Definition reduce1 (d : nat) (b : nat * list Q) (v : list Q) : list Q :=
  let c := (vnth v (fst b) / vnth (snd b) (fst b))%Q in
  map (fun n => (vnth v n - c * vnth (snd b) n)%Q) (seq 0 d).

Definition reduce (d : nat) (B : list (nat * list Q)) (v : list Q) : list Q :=
  fold_left (fun v b => reduce1 d b v) B v.

(** One step of the elimination: [v], reduced by the basis, joins it with its
    pivot unless nothing is left of it. *)
Definition insert_row (d : nat) (B : list (nat * list Q)) (v : list Q)
  : list (nat * list Q) :=
  let v' := map Qred (reduce d B v) in
  match find_pivot d v' with
  | None => B
  | Some p => B ++ [(p, v')]
  end.

Definition rank (rows : list (list Q)) : nat :=
  length (fold_left (insert_row (width rows)) rows []).

Definition rank_svd (rows : list (list Q)) : list Q :=
  let r := rank rows in
  repeat 1%Q r ++ repeat 0%Q (Nat.min (length rows) (width rows) - r).

(** Two of the rows are linearly dependent: [a * r1 + b * r2] is zero for
    some [a] and [b], not both zero. *)
Definition two_dependent_rows (rows : list (list Q)) : Prop :=
  exists A r1 B r2 C a b,
    rows = A ++ r1 :: B ++ r2 :: C /\
    ~ ((a == 0)%Q /\ (b == 0)%Q) /\
    forall n, (a * vnth r1 n + b * vnth r2 n == 0)%Q.

(** ** Notions the properties are stated with *)

(** The matrix [eqns] of [redundancyInPredicateMasks]: one row per mask. *)
Definition mask_rows (preds : masks) : list (list Q) :=
  map Array.to_float (map snd preds).

(** The predicate masks that [__init__] passes to [checkPredicateMasks]. *)
Definition construction_masks (a : init_args) : res masks :=
  mx <- init_matrix a ;;
  _adaptPredicates (arg_alphabet a) (fst (fst mx))
    (rules_items (arg_predicates a)).

Definition scaling_warning : string :=
  "do_scaling=True would be more efficient than these overly general predicates".

(** The value a computation returned ([d] if it raised). *)
Definition res_get {A : Type} (d : A) (r : res A) : A :=
  match r with
  | Ok a => a
  | Raise _ => d
  end.

(** The mask of the boolean function [p] within the mask [inst]. *)
Definition masked (alphabet : list motif) (inst : list bool)
    (p : motif -> motif -> bool) (i j : nat) : bool :=
  if Array.entry false (length alphabet) inst i j
  then p (nth i alphabet "") (nth j alphabet "")
  else false.

(** A mask computed from some predicate within [inst]. *)
Definition mask_within (alphabet : list motif) (inst mask : list bool) : Prop :=
  exists p, mask = Array.tabulate (length alphabet) (masked alphabet inst p).

(** The names of the predicates whose mask is true at [(i, j)], in the
    iteration order of [predicate_masks]. *)
Definition names_at (self : SubstitutionModel) (i j : nat) : list string :=
  map fst
    (List.filter (fun kv => Array.entry false (length (alphabet self)) (snd kv) i j)
       (predicate_masks self)).

(** The values [v[k]] of the predicates [k] whose mask is true at [(i, j)],
    in parameter order. *)
Definition applicable (self : SubstitutionModel) (params : list Q)
    (i j : nat) : list Q :=
  map snd
    (List.filter (fun mv => Array.entry false (length (alphabet self))
                         (snd (fst mv)) i j)
       (combine (predicate_masks self) params)).

(** [x] multiplied by the numbers of [l], one after the other. *)
Definition times (x : Q) (l : list Q) : Q := fold_left Qmult l x.

(** *** Positions of two motifs *)

Import Instantaneous.

(** A position of two motifs: the gap character of the place, and the two
    characters. *)
Abbreviation triple := (ascii * (ascii * ascii))%type.

Definition same (t : triple) : Prop := fst (snd t) = snd (snd t).

(** The two motifs differ at this position and the motif of strand [s]
    ([false]: the first, [true]: the second) has the gap character there. *)
Definition gap_on (s : bool) (t : triple) : Prop :=
  fst (snd t) <> snd (snd t) /\
  (if s then snd (snd t) else fst (snd t)) = fst t.

(** The value of [gap_strand] for a strand. *)
Definition strand_index (s : bool) : nat := if s then 1 else 0.

(** Equal positions, one block of gap positions on strand [s], equal positions. *)
Definition one_region (s : bool) (ts : list triple) : Prop :=
  exists pre mid post,
    ts = pre ++ mid ++ post /\
    Forall same pre /\ Forall (gap_on s) mid /\ Forall same post.

(** The number of differing pairs. *)
Definition count_diffs (zs : list (ascii * ascii)) : nat :=
  list_sum (map (fun p => if differ p then 1 else 0) zs).

(** The positions of two motifs, each with the gap character of its place. *)
Definition positions (gapmotif x y : motif) : list triple :=
  combine (chars gapmotif) (zip x y).

Definition single_gap_region (gapmotif x y : motif) : Prop :=
  exists s, one_region s (positions gapmotif x y).

(** *** The elimination *)

(** Basis rows have their pivot inside the matrix. *)
Definition pivots_in (d : nat) (B : list (nat * list Q)) : Prop :=
  Forall (fun b => fst b < d) B.

(** The rows that [reduce] sends to zero. *)
Definition in_kernel (d : nat) (B : list (nat * list Q)) (v : list Q) : Prop :=
  forall n, n < d -> (vnth (reduce d B v) n == 0)%Q.

(** *** Constructed models *)

(** Facts about a model that [__init__] returned. *)
Record constructed (self : SubstitutionModel) : Prop := {
  inst_length :
    length (_instantaneous_mask self)
    = length (alphabet self) * length (alphabet self);
  inst_f_length :
    length (_instantaneous_mask_f self)
    = length (alphabet self) * length (alphabet self);
  inst_diagonal : forall i, i < length (alphabet self) ->
    Array.entry false (length (alphabet self)) (_instantaneous_mask self) i i
    = false;
  masks_within :
    Forall (fun kv => mask_within (alphabet self) (_instantaneous_mask self)
                        (snd kv)) (predicate_masks self);
  order_names : parameter_order self = map fst (predicate_masks self);
  indices_nonzero :
    predicate_indices self
    = map (fun kv => Array.nonzero (snd kv)) (predicate_masks self)
}.

(** ** Models to run *)

Module Examples.

(** The DNA alphabet. *)
Definition DNA : list motif := ["t"; "c"; "a"; "g"].

Definition purine (x : motif) : bool := String.eqb x "a" || String.eqb x "g".
Definition pyrimidine (x : motif) : bool := String.eqb x "c" || String.eqb x "t".

(** The [transition] predicate of nucleotide models ([R/R | Y/Y]). *)
Definition transition : predicate :=
  Predicate "transition"
    (fun x y => (purine x && purine y) || (pyrimidine x && pyrimidine y)).

(** The [transversion] predicate ([R/Y]). *)
Definition transversion : predicate :=
  Predicate "transversion"
    (fun x y => (purine x && pyrimidine y) || (pyrimidine x && purine y)).

(** A user predicate that holds of every pair. *)
Definition any_pair : predicate := Predicate "any_pair" (fun _ _ => true).

(** A user predicate that holds of no pair. *)
Definition no_pair : predicate := Predicate "no_pair" (fun _ _ => false).

Definition empty_world : world := World ∅ [].

(** [Nucleotide(predicates=..., do_scaling=..., equal_motif_probs=...,
    ordered_param=..., partitioned_params=...)], other arguments at their
    defaults. *)
Definition Nucleotide (predicates : list (string * predicate))
    (do_scaling equal_motif_probs : bool)
    (ordered_param partitioned_params : names_arg) : init_args :=
  {| arg_class := Default;
     arg_alphabet := DNA;
     arg_gapmotif := "-";
     arg_predicates := Some (RulesDict predicates);
     arg_scales := None;
     arg_motif_probs := None;
     arg_optimise_motif_probs := false;
     arg_equal_motif_probs := equal_motif_probs;
     arg_motif_probs_from_data := None;
     arg_rate_matrix := None;
     arg_model_gaps := false;
     arg_recode_gaps := false;
     arg_do_scaling := do_scaling;
     arg_with_rate := false;
     arg_name := "";
     arg_ordered_param := ordered_param;
     arg_distribution := NoDistribution;
     arg_partitioned_params := partitioned_params |}.

(** The HKY-like model: one parameter on transitions. *)
Definition kappa_args : init_args :=
  Nucleotide [("kappa", transition)] true true NoNames NoNames.

(** The instantaneous mask of the DNA alphabet: every pair of distinct
    nucleotides. *)
Definition DNA_inst : list bool :=
  [false; true; true; true;
   true; false; true; true;
   true; true; false; true;
   true; true; true; false].

(** The mask of [transition] over the DNA alphabet. *)
Definition transition_mask : list bool :=
  [false; true; false; false;
   true; false; false; false;
   false; false; false; true;
   false; false; true; false].

(** The mask of [transversion] over the DNA alphabet. *)
Definition transversion_mask : list bool :=
  [false; false; true; true;
   false; false; true; true;
   true; true; false; false;
   true; true; false; false].

(** [Nucleotide(predicates={'kappa': any_pair})]: scaling is enabled. *)
Definition always_true_args : init_args :=
  Nucleotide [("kappa", any_pair)] true false NoNames NoNames.

(** [Nucleotide(predicates={'kappa': transition, 'omega': transition},
    do_scaling=False)]: two names for one mask. *)
Definition twice_args : init_args :=
  Nucleotide [("kappa", transition); ("omega", transition)]
    false false NoNames NoNames.

(** [Nucleotide(predicates={'kappa': transition, 'omega': transversion},
    do_scaling=False)]: together the two masks are the instantaneous mask. *)
Definition general_args : init_args :=
  Nucleotide [("kappa", transition); ("omega", transversion)]
    false false NoNames NoNames.

(** [Nucleotide(predicates={'kappa': transition},
    partitioned_params=['kappa'])]: no [ordered_param]. *)
Definition binned_args : init_args :=
  Nucleotide [("kappa", transition)] true false NoNames (Names ["kappa"]).

End Examples.

(** *** The two strands exchanged *)

Definition flip_strand (o : option nat) : option nat :=
  match o with
  | Some 0 => Some 1
  | Some 1 => Some 0
  | _ => o
  end.

(** The locals of [_isAnyIndel] when the two motifs are exchanged. *)
Definition other_strand (st : gap) : gap :=
  Gap (gap_start st) (gap_end st) (flip_strand (gap_strand st)).

(** *** Labels of rules *)

(** [label or repr(pred)], the name [adaptPredicate] gives a predicate. *)
Definition label_of (key : option string) (pred : predicate) : string :=
  match key with
  | Some s => if String.eqb s "" then repr pred else s
  | None => repr pred
  end.

(** The rules as [_adaptPredicates] goes through them. *)
Definition rule_list (r : rules) : list (option string * predicate) :=
  match r with
  | RulesDict items => map (fun kp => (Some (fst kp), snd kp)) items
  | RulesList preds => map (fun p => (None, p)) preds
  end.

Definition rule_labels (r : rules) : list string :=
  map (fun kp => label_of (fst kp) (snd kp)) (rule_list r).

(** The name and the mask of one rule. *)
Definition adapted (alphabet : list motif) (inst : list bool)
    (kp : option string * predicate) : string * list bool :=
  (label_of (fst kp) (snd kp),
   Array.tabulate (length alphabet)
     (masked alphabet inst (makeModelPredicate (snd kp)))).

(** *** Masks that share out the instantaneous mask *)

(** At every position, as many masks of [preds] are true as [inst] is (one
    where it is true, none where it is false). *)
Definition shares_out (preds : masks) (inst : list bool) : Prop :=
  forall n,
    (lincomb (repeat 1%Q (length preds)) (mask_rows preds) n
     == vnth (Array.to_float inst) n)%Q.

(** *** Pairs and triples of a list *)

(** The pairs of elements of a list, the first before the second. *)
Fixpoint ordered_pairs (l : list string) : list (string * string) :=
  match l with
  | [] => []
  | x :: l' => map (fun y => (x, y)) l' ++ ordered_pairs l'
  end.

(** The triples of elements of a list, in the order of the list. *)
Fixpoint ordered_triples (l : list string) : list (string * string * string) :=
  match l with
  | [] => []
  | x :: l' =>
      map (fun yz => (x, fst yz, snd yz)) (ordered_pairs l')
      ++ ordered_triples l'
  end.

(** ** More models to run *)

Module MoreExamples.

(** [SubstitutionModel(DNA, predicates=..., scales=..., motif_probs=...,
    rate_matrix=..., do_scaling=..., distribution=...)], other arguments at
    their defaults. *)
Definition model (predicates : option rules) (scales : option rules)
    (motif_probs : option loc) (rate_matrix : option (list Q))
    (do_scaling : bool) (distribution : distribution_arg) : init_args :=
  {| arg_class := Default;
     arg_alphabet := Examples.DNA;
     arg_gapmotif := "-";
     arg_predicates := predicates;
     arg_scales := scales;
     arg_motif_probs := motif_probs;
     arg_optimise_motif_probs := false;
     arg_equal_motif_probs := false;
     arg_motif_probs_from_data := None;
     arg_rate_matrix := rate_matrix;
     arg_model_gaps := false;
     arg_recode_gaps := false;
     arg_do_scaling := do_scaling;
     arg_with_rate := false;
     arg_name := "";
     arg_ordered_param := NoNames;
     arg_distribution := distribution;
     arg_partitioned_params := NoNames |}.

(** [predicates=[transition, transition]]: one [repr] twice. *)
Definition repeated_args : init_args :=
  model (Some (RulesList [Examples.transition; Examples.transition]))
    None None None true NoDistribution.

(** A store with one dict, [{'a': 1.0}], at the first address. *)
Definition one_dict_world : world :=
  World {[ 1%positive := {[ "a" := 1%Q ]} ]} [].

(** [motif_probs={'a': 1.0}] for the four motifs of the DNA alphabet. *)
Definition short_probs_args : init_args :=
  model None None (Some 1%positive) None true NoDistribution.

(** A store with the dict [{'t': 0.1, 'c': 0.2, 'a': 0.3, 'g': 0.4}]. *)
Definition probs_world : world :=
  World {[ 1%positive :=
             {[ "t" := (1 # 10)%Q; "c" := (2 # 10)%Q;
                "a" := (3 # 10)%Q; "g" := (4 # 10)%Q ]} ]} [].

(** [motif_probs=] the dict of [probs_world], one parameter on transitions. *)
Definition probs_args : init_args :=
  model (Some (RulesDict [("kappa", Examples.transition)])) None
    (Some 1%positive) None true NoDistribution.

(** An empirical rate matrix over the DNA alphabet: transitions at rate 2,
    transversions at rate 1. *)
Definition rates : list Q :=
  [0; 2; 1; 1;
   2; 0; 1; 1;
   1; 1; 0; 2;
   1; 1; 2; 0]%Q.

Definition empirical_args : init_args :=
  model None None None (Some rates) true NoDistribution.

(** [Nucleotide(predicates={'kappa': transition}, ordered_param='kappa',
    partitioned_params=['omega'])]: no parameter is called ['omega']. *)
Definition binned_kappa_args : init_args :=
  Examples.Nucleotide [("kappa", Examples.transition)] true false
    (OneName "kappa") (Names ["omega"]).

End MoreExamples.

(** ** More of [substitution_model.py] *)


(** [d[k]] on a dict in iteration order. *)
Definition dict_get {V : Type} (k : string) (d : list (string * V))
  : option V :=
  option_map snd (find (fun kv => String.eqb k (fst kv)) d).

(** What [getPredicateMask] is asked for: a name, or a predicate object. *)
Inductive pred_arg : Type :=
| ByName (s : string)
| ByObject (p : predicate).

(** [getPredicateMask]. A name that is a key of neither dict goes to
    [adaptPredicate], which parses it: [parse] stands for [predicate.parse]
    (module [cogent.evolve.predicate]). A predicate object is no key of a
    dict of names. *)
Definition getPredicateMask (parse : string -> res predicate)
    (self : SubstitutionModel) (pred : pred_arg) : res (list bool) :=
  let adapt p :=
    lm <- adaptPredicate (alphabet self) (_instantaneous_mask self) p None ;;
    Ok (snd lm) in
  match pred with
  | ByName s =>
      match dict_get s (scale_masks self) with
      | Some mask => Ok mask
      | None =>
          match dict_get s (predicate_masks self) with
          | Some mask => Ok mask
          | None => p <- parse s ;; adapt p
          end
      end
  | ByObject p => adapt p
  end.

(** [len(s)] as an integer. *)
Definition len (s : string) : Z := Z.of_nat (String.length s).

(** The width of one cell of [_maxWidthIfTruncated]: the names cut at [each]
    characters and joined with [delim]. *)
Definition cell_width (delim : string) (each : Z) (par_list : list string)
  : Z :=
  (fold_left Z.add (map (fun par => Z.min (len par) each) par_list) 0
   + len delim * (Z.of_nat (length par_list) - 1))%Z.

(** [max(l)]: raises on an empty list. *)
Definition list_max (l : list Z) : res Z :=
  match l with
  | [] => Raise (ValueError "max() arg is an empty sequence")
  | x :: l' => Ok (fold_left Z.max l' x)
  end.

(** [_maxWidthIfTruncated(pars, delim, each)], [pars] being the buffer of
    the array of lists of names. *)
Definition _maxWidthIfTruncated (pars : list (list string)) (delim : string)
    (each : Z) : res Z :=
  list_max (map (cell_width delim each) pars).



(** [d[k] = v] on a dict in iteration order: a new key goes last. *)
Fixpoint dict_set {V : Type} (k : string) (v : V) (d : list (string * V))
  : list (string * V) :=
  match d with
  | [] => [(k, v)]
  | (k', v') :: d' =>
      if String.eqb k k' then (k, v) :: d' else (k', v') :: dict_set k v d'
  end.



(** ** Pairwise distances: [cogent/phylo/distance.py] *)

Module Distance.

(** [range(a, b)] for [a] not negative: empty when [b <= a]. *)
Definition range (a b : nat) : list nat := seq a (b - a).

(** [__make_pairwise_comparison_sets], on the list [getSeqNames()]. *)
Definition make_pairwise_comparison_sets (names : list string)
  : list (string * string) :=
  let n := length names in
  flat_map (fun i =>
    map (fun j => (nth i names "", nth j names "")) (range (i + 1) n))
    (range 0 (n - 1)).

(** [__make_threeway_comparison_sets]. *)
Definition make_threeway_comparison_sets (names : list string)
  : list (string * string * string) :=
  let n := length names in
  flat_map (fun i =>
    flat_map (fun j =>
      map (fun k => (nth i names "", nth j names "", nth k names ""))
        (range (j + 1) n))
      (range (i + 1) (n - 1)))
    (range 0 (n - 2)).

(** The rounds of [run]: [range((len(combination_aligns) - 1) /
    parallel_context.size + 1)], with the integer division of Python (it
    rounds down: no round for no comparison). The number of processes is
    positive. *)
Definition rounds (n : nat) (size : positive) : list nat :=
  seq 0 (Z.to_nat ((Z.of_nat n - 1) / Z.pos size + 1)).

(** The comparisons that the process [rank] estimates in [run]: in every
    round, [i = _round * size + rank] when [i < len(combination_aligns)]. *)
Definition estimated_by (n : nat) (size : positive) (rank : nat) : list nat :=
  List.filter (fun i => i <? n)
    (map (fun round => round * Pos.to_nat size + rank) (rounds n size)).

(** The estimates that every process stores in [run], in order: in every
    round and for every [cpu], comparison [i = _round * size + cpu], when
    [i < len(combination_aligns)], with the value broadcast from [cpu]. *)
Definition stored_from (n : nat) (size : positive) : list (nat * nat) :=
  flat_map (fun round =>
    List.filter (fun ic => fst ic <? n)
      (map (fun cpu => (round * Pos.to_nat size + cpu, cpu))
         (range 0 (Pos.to_nat size))))
    (rounds n size).

(** A cell of the distance table: a string or a number. *)
Inductive cell : Type :=
| Text (s : string)
| Number (q : Q).

Definition pair_eqb (p q : string * string) : bool :=
  String.eqb (fst p) (fst q) && String.eqb (snd p) (snd q).

(** [d[key]] on a dict with pairs of names as keys. *)
Definition pair_get (key : string * string)
    (d : list (string * string * cell)) : option cell :=
  option_map snd (find (fun kv => pair_eqb key (fst kv)) d).

(** [d[key] = v]: a new key goes last. *)
Fixpoint pair_set (key : string * string) (v : cell)
    (d : list (string * string * cell)) : list (string * string * cell) :=
  match d with
  | [] => [(key, v)]
  | (k, v') :: d' =>
      if pair_eqb key k then (key, v) :: d' else (k, v') :: pair_set key v d'
  end.

(** The inner loop of [getTable] when no distance is there: ['Not Done']
    for [s1] and every other name. *)
Definition not_done_row (s1 : string) (d : list (string * string * cell))
    (seqnames : list string) : list (string * string * cell) :=
  fold_left (fun d s2 =>
    if String.eqb s1 s2 then d else pair_set (s1, s2) (Text "Not Done") d)
    seqnames d.

(** The dict of [getTable] when no distance is there: ['Not Done'] for
    every pair of different names. *)
Definition not_done (seqnames : list string) : list (string * string * cell) :=
  fold_left (fun d s1 => not_done_row s1 d seqnames) seqnames [].

(** One cell of a row of [getTable]: [d[(s1, s2)]], and [d[(s2, s1)]] on a
    [KeyError]. *)
Definition table_cell (d : list (string * string * cell)) (s1 s2 : string)
  : res cell :=
  if String.eqb s1 s2 then Ok (Text "")
  else match pair_get (s1, s2) d with
       | Some c => Ok c
       | None =>
           match pair_get (s2, s1) d with
           | Some c => Ok c
           | None => Raise (KeyError (s2 ++ "," ++ s1))
           end
       end.

(** The rows [twoD] that [getTable] hands to [Table], for the dict [d] of
    pairwise distances. *)
Definition getTable_rows (seqnames : list string)
    (d : list (string * string * cell)) : res (list (list cell)) :=
  let d := match d with
           | [] => not_done seqnames
           | _ => d
           end in
  mapM (fun s1 =>
    cells <- mapM (table_cell d s1) seqnames ;;
    Ok (Text s1 :: cells)) seqnames.

(** A value in a dict of estimates: a float, or the dict of the lengths by
    sequence name that a threeway comparison stores. *)
Inductive value : Type :=
| Float (q : Q)
| Lengths (d : list (string * Q)).

(** The estimates of one comparison, and [self.__param_ests]: a dict with
    the tuples of sequence names as keys. *)
Abbreviation estimates := (list (string * value)).
Abbreviation param_ests := (list (list string * estimates)).

(** [d[k]] raising [KeyError]. *)
Definition lookup {V : Type} (k : string) (d : list (string * V)) : res V :=
  match dict_get k d with
  | Some v => Ok v
  | None => Raise (KeyError k)
  end.

(** [d.values()[0]] *)
Definition first_value (d : list (string * Q)) : res Q :=
  match d with
  | [] => Raise IndexError
  | (_, v) :: _ => Ok v
  end.

(** Equality of two tuples of names. *)
Fixpoint comp_eqb (a b : list string) : bool :=
  match a, b with
  | [], [] => true
  | x :: a', y :: b' => String.eqb x y && comp_eqb a' b'
  | _, _ => false
  end.

(** [self.__param_ests[sequence_names] = v]: a new key goes last. *)
Fixpoint comp_set (key : list string) (v : estimates) (d : param_ests)
  : param_ests :=
  match d with
  | [] => [(key, v)]
  | (k, v') :: d' =>
      if comp_eqb key k then (key, v) :: d' else (k, v') :: comp_set key v d'
  end.

(** The last loop of [__doset]: the estimates of the other parameters. *)
Fixpoint store_params (stats_dict : list (string * list (string * Q)))
    (est_params : list string) (d : estimates) : res estimates :=
  match est_params with
  | [] => Ok d
  | param :: rest =>
      s <- lookup param stats_dict ;;
      v <- first_value s ;;
      store_params stats_dict rest (dict_set param (Float v) d)
  end.

(** What [__doset] stores for the comparison [sequence_names], from the
    dict [stats_dict = lf.getStatisticsAsDict()] of the optimised
    likelihood function. *)
Definition __doset (threeway : bool) (est_params : list string)
    (sequence_names : list string)
    (stats_dict : list (string * list (string * Q)))
    (ests : param_ests) : res param_ests :=
  lengths <- lookup "length" stats_dict ;;
  d <- (if negb threeway
        then v <- first_value lengths ;; Ok [("length", Float (v * 2))]
        else Ok [("length", Lengths lengths)]) ;;
  d' <- store_params stats_dict est_params d ;;
  Ok (comp_set sequence_names d' ests).

Section Newick.

(** [repr(name)] and the format ["%s" % v]. *)
Variable repr : string -> string.
Variable str : value -> string.

(** [getNewickTrees], on [self.__param_ests]. *)
Definition getNewickTrees (ests : param_ests) : res (list string) :=
  mapM (fun item =>
    tips <- mapM (fun name =>
              v <- lookup name (snd item) ;;
              Ok (repr name ++ ":" ++ str v)%string) (fst item) ;;
    Ok ("(" ++ String.concat "," tips ++ ");")%string) ests.

End Newick.

End Distance.

(** The entry of row [i] and column [j] of the rows of a distance table;
    every row starts with its name. *)
Definition table_entry (rows : list (list Distance.cell)) (i j : nat)
  : Distance.cell :=
  nth (S j) (nth i rows []) (Distance.Text "").

(** * Properties *)

(** ** The default instantaneous rule *)

Lemma nth_error_skipn {A} (l : list A) i :
  i < length l -> exists a, nth_error l i = Some a /\ skipn i l = a :: skipn (S i) l.
Proof.
  revert i. induction l as [|b l IH]; simpl; intros i Hi; [lia|].
  destruct i as [|i]; simpl.
  - eexists; split; reflexivity.
  - destruct (IH i) as (a & H1 & H2); [lia|]. exists a. split; [exact H1|].
    rewrite H2. reflexivity.
Qed.

Lemma loop_after gs : forall zs i st,
  i + length zs <= length gs ->
  gap_start st <> None -> gap_end st <> None ->
  exists b, indel_loop gs i zs st = Ok b /\
    (b = true <-> Forall same (combine (skipn i gs) zs)).
Proof.
  induction zs as [|[X Y] zs IH]; simpl; intros i st Hlen Hs He.
  - exists true. split; [reflexivity|]. rewrite combine_nil. split; auto.
  - destruct (nth_error_skipn gs i) as (G & HG & Hsk); [lia|].
    rewrite HG, Hsk. simpl.
    destruct (Ascii.eqb_spec X Y) as [->|Hne]; simpl.
    + destruct (gap_start st) eqn:E1; [|congruence]. simpl.
      destruct (IH (S i) (Gap (Some n) (Some i) (gap_strand st))) as (b & Hb & Hiff);
        simpl; try lia; try congruence.
      exists b. split; [exact Hb|]. rewrite Hiff. split; intros H.
      * constructor; [reflexivity|exact H].
      * inversion H; assumption.
    + destruct (negb (Ascii.eqb X G) && negb (Ascii.eqb Y G)) eqn:E.
      * exists false. split; [reflexivity|]. split; [discriminate|].
        intros H. inversion H as [|? ? H1 H2]. unfold same in H1. simpl in H1. contradiction.
      * destruct (gap_start st) eqn:E1; [|congruence]. simpl.
        destruct (gap_end st) eqn:E2; [|congruence]. simpl.
        unfold index2. destruct (Ascii.eqb X G); simpl.
        -- exists false. split; [reflexivity|]. split; [discriminate|].
           intros H. inversion H as [|? ? H1 H2]. unfold same in H1. simpl in H1. contradiction.
        -- destruct (Ascii.eqb Y G); simpl; [|discriminate].
           exists false. split; [reflexivity|]. split; [discriminate|].
           intros H. inversion H as [|? ? H1 H2]. unfold same in H1. simpl in H1. contradiction.
Qed.

Lemma same_cons_iff t ts : same t -> (Forall same (t :: ts) <-> Forall same ts).
Proof.
  intros Ht. split; intros H; [inversion H; assumption|constructor; assumption].
Qed.

Lemma gap_on_not_same s t : gap_on s t -> ~ same t.
Proof. intros [H _] H'. exact (H H'). Qed.

(** A block of differing positions followed by equal ones, seen from its head. *)
Lemma region_cons s t ts :
  (exists mid post, t :: ts = mid ++ post /\ Forall (gap_on s) mid /\ Forall same post) <->
  (same t /\ Forall same ts) \/
  (gap_on s t /\ exists mid post, ts = mid ++ post /\ Forall (gap_on s) mid /\ Forall same post).
Proof.
  split.
  - intros (mid & post & Heq & Hm & Hp). destruct mid as [|m mid]; simpl in Heq.
    + subst post. inversion Hp; subst. left. split; assumption.
    + injection Heq as <- ->. inversion Hm; subst. right. split; [assumption|].
      exists mid, post. auto.
  - intros [[Ht Hts]|[Ht (mid & post & -> & Hm & Hp)]].
    + exists [], (t :: ts). simpl. repeat split; auto.
    + exists (t :: mid), post. simpl. repeat split; auto.
Qed.

Lemma loop_in_gap gs s : forall zs i st,
  i + length zs <= length gs ->
  gap_start st <> None -> gap_end st = None ->
  gap_strand st = Some (strand_index s) ->
  exists b, indel_loop gs i zs st = Ok b /\
    (b = true <-> exists mid post,
        combine (skipn i gs) zs = mid ++ post /\
        Forall (gap_on s) mid /\ Forall same post).
Proof.
  induction zs as [|[X Y] zs IH]; simpl; intros i st Hlen Hs He Hstr.
  - exists true. split; [reflexivity|]. split; auto.
    intros _. exists [], []. split; [apply combine_nil|auto].
  - destruct (nth_error_skipn gs i) as (G & HG & Hsk); [lia|].
    rewrite HG, Hsk. simpl. setoid_rewrite region_cons.
    destruct (gap_start st) eqn:E1; [|congruence]. simpl.
    destruct (Ascii.eqb_spec X Y) as [->|Hne]; simpl.
    + destruct (loop_after gs zs (S i) (Gap (Some n) (Some i) (gap_strand st)))
        as (b & Hb & Hiff); simpl; try lia; try congruence.
      exists b. split; [exact Hb|]. rewrite Hiff. split.
      * intros H. left. split; [reflexivity|exact H].
      * intros [[_ H]|[[H _] _]]; [exact H|]. simpl in H. congruence.
    + rewrite He, Hstr. simpl. unfold index2.
      destruct (Ascii.eqb_spec X G) as [->|HXG]; simpl.
      * destruct s; simpl.
        -- exists false. split; [reflexivity|]. split; [discriminate|].
           intros [[H _]|[[_ H] _]]; unfold same in *; simpl in *; congruence.
        -- destruct (IH (S i) st) as (b & Hb & Hiff); try lia; try congruence.
           exists b. split; [exact Hb|]. rewrite Hiff. split.
           ++ intros H. right. split; [split; simpl; auto|exact H].
           ++ intros [[H _]|[_ H]]; [unfold same in H; simpl in H; congruence|exact H].
      * destruct (Ascii.eqb_spec Y G) as [->|HYG]; simpl.
        -- destruct s; simpl.
           ++ destruct (IH (S i) st) as (b & Hb & Hiff); try lia; try congruence.
                 exists b. split; [exact Hb|]. rewrite Hiff. split.
              ** intros H. right. split; [split; simpl; auto|exact H].
              ** intros [[H _]|[_ H]]; [unfold same in H; simpl in H; congruence|exact H].
           ++ exists false. split; [reflexivity|]. split; [discriminate|].
              intros [[H _]|[[_ H] _]]; unfold same in *; simpl in *; congruence.
        -- exists false. split; [reflexivity|]. split; [discriminate|].
           intros [[H _]|[[_ H] _]]; unfold same in *; simpl in *; [congruence|].
           destruct s; congruence.
Qed.

Lemma one_region_cons t ts :
  (exists s, one_region s (t :: ts)) <->
  (same t /\ exists s, one_region s ts) \/
  (exists s, gap_on s t /\ exists mid post,
      ts = mid ++ post /\ Forall (gap_on s) mid /\ Forall same post).
Proof.
  split.
  - intros (s & pre & mid & post & Heq & Hpre & Hmid & Hpost).
    destruct pre as [|p pre]; simpl in Heq.
    + assert (H : exists mid post,
                 t :: ts = mid ++ post /\ Forall (gap_on s) mid /\ Forall same post)
        by (exists mid, post; auto).
      apply region_cons in H. destruct H as [[Ht Hts]|H].
      * left. split; [exact Ht|]. exists s, ts, [], []. rewrite app_nil_r. auto.
      * right. exists s. exact H.
    + injection Heq as <- ->. inversion Hpre; subst. left. split; [assumption|].
      exists s, pre, mid, post. auto.
  - intros [[Ht (s & pre & mid & post & -> & Hpre & Hmid & Hpost)]
           |(s & Ht & mid & post & -> & Hmid & Hpost)].
    + exists s, (t :: pre), mid, post. simpl. auto.
    + exists s, [], (t :: mid), post. simpl. auto.
Qed.

Lemma loop_start gs : forall zs i st,
  i + length zs <= length gs ->
  gap_start st = None -> gap_end st = None ->
  exists b, indel_loop gs i zs st = Ok b /\
    (b = true <-> exists s, one_region s (combine (skipn i gs) zs)).
Proof.
  induction zs as [|[X Y] zs IH]; simpl; intros i st Hlen Hs He.
  - exists true. split; [reflexivity|]. split; auto.
    intros _. exists false, [], [], []. split; [apply combine_nil|auto].
  - destruct (nth_error_skipn gs i) as (G & HG & Hsk); [lia|].
    rewrite HG, Hsk. simpl. setoid_rewrite one_region_cons.
    rewrite Hs. simpl.
    destruct (Ascii.eqb_spec X Y) as [->|Hne]; simpl.
    + destruct (IH (S i) st) as (b & Hb & Hiff); try lia; try assumption.
      exists b. split; [exact Hb|]. rewrite Hiff. split.
      * intros H. left. split; [reflexivity|exact H].
      * intros [[_ H]|(s & [H _] & _)]; [exact H|]. simpl in H. congruence.
    + unfold index2.
      destruct (Ascii.eqb_spec X G) as [->|HXG]; simpl.
      * destruct (loop_in_gap gs false zs (S i) (Gap (Some i) (gap_end st) (Some 0)))
          as (b & Hb & Hiff); simpl; try lia; try congruence.
        exists b. split; [exact Hb|]. rewrite Hiff. split.
        -- intros H. right. exists false. split; [split; simpl; auto|exact H].
        -- intros [[H _]|(s & [_ Hg] & H)]; [unfold same in H; simpl in H; congruence|].
           destruct s; simpl in Hg; [congruence|exact H].
      * destruct (Ascii.eqb_spec Y G) as [->|HYG]; simpl.
        -- destruct (loop_in_gap gs true zs (S i) (Gap (Some i) (gap_end st) (Some 1)))
             as (b & Hb & Hiff); simpl; try lia; try congruence.
           exists b. split; [exact Hb|]. rewrite Hiff. split.
           ++ intros H. right. exists true. split; [split; simpl; auto|exact H].
           ++ intros [[H _]|(s & [_ Hg] & H)]; [unfold same in H; simpl in H; congruence|].
              destruct s; simpl in Hg; [exact H|congruence].
        -- exists false. split; [reflexivity|]. split; [discriminate|].
           intros [[H _]|(s & [_ Hg] & _)]; [unfold same in H; simpl in H; congruence|].
           destruct s; simpl in Hg; congruence.
Qed.

Lemma count_diffs_app a b : count_diffs (a ++ b) = count_diffs a + count_diffs b.
Proof. unfold count_diffs. rewrite map_app, list_sum_app. reflexivity. Qed.

Lemma count_diffs_cons p zs :
  count_diffs (p :: zs) = (if differ p then 1 else 0) + count_diffs zs.
Proof. reflexivity. Qed.

Lemma count_diffs_same (ts : list triple) :
  Forall same ts -> count_diffs (map snd ts) = 0.
Proof.
  induction 1 as [|[G [X Y]] ts Ht _ IH]; [reflexivity|].
  unfold same in Ht. simpl in Ht. subst Y.
  rewrite map_cons, count_diffs_cons, IH. unfold differ. simpl.
  rewrite Ascii.eqb_refl. reflexivity.
Qed.

Lemma count_diffs_gap s (ts : list triple) :
  Forall (gap_on s) ts -> count_diffs (map snd ts) = length ts.
Proof.
  induction 1 as [|[G [X Y]] ts [Ht _] _ IH]; [reflexivity|].
  simpl in Ht. rewrite map_cons, count_diffs_cons, IH. unfold differ. simpl.
  destruct (Ascii.eqb_spec X Y); [contradiction|]. reflexivity.
Qed.

Lemma map_snd_combine {A B} (l : list A) (l' : list B) :
  length l' <= length l -> map snd (combine l l') = l'.
Proof.
  revert l'. induction l as [|a l IH]; intros [|b l']; simpl; intros H; try lia; auto.
  rewrite IH; [reflexivity|lia].
Qed.

Lemma diffs_refl x : diffs x x = 0.
Proof.
  unfold diffs, zip. fold (count_diffs (combine (chars x) (chars x))).
  induction (chars x) as [|c l IH]; [reflexivity|].
  simpl combine. rewrite count_diffs_cons, IH. unfold differ. simpl.
  rewrite Ascii.eqb_refl. reflexivity.
Qed.

Lemma length_chars x : length (chars x) = String.length x.
Proof. unfold chars. induction x; simpl; auto. Qed.

Lemma region_length gapmotif x y s pre mid post :
  String.length x = String.length gapmotif ->
  String.length y = String.length gapmotif ->
  positions gapmotif x y = pre ++ mid ++ post ->
  Forall same pre -> Forall (gap_on s) mid -> Forall same post ->
  diffs x y = length mid.
Proof.
  intros Hx Hy Heq Hpre Hmid Hpost.
  assert (Hz : zip x y = map snd (positions gapmotif x y)).
  { unfold positions. rewrite map_snd_combine; [reflexivity|].
    unfold zip. rewrite length_combine, !length_chars. lia. }
  unfold diffs. fold (count_diffs (zip x y)). rewrite Hz, Heq, !map_app, !count_diffs_app.
  rewrite (count_diffs_same pre), (count_diffs_same post), (count_diffs_gap s mid); auto.
Qed.

Lemma isInstantaneous_same gapmotif x :
  isInstantaneous gapmotif x x = Ok false.
Proof.
  unfold isInstantaneous, _isInstantaneous. rewrite diffs_refl. reflexivity.
Qed.

(** C7. With long indels enabled, for two motifs as long as the gap motif,
    [isInstantaneous(x, y)] returns, and it returns true exactly when [x] and
    [y] differ in one position, or differ in more than one position and
    their positions are a run of equal characters, then one run of differing
    positions in which the same one of the two motifs has the gap character,
    then a run of equal characters. A second run of differing positions
    ([("-a-", "cag")]) or a gap character that changes motif
    ([("-a", "c-")]) makes it false. With the gap motif ["-"], the pairs
    [("a", "-")] and [("a", "c")] are instantaneous, and a motif is never
    instantaneous with itself. *)
Theorem isInstantaneous_spec :
  (forall gapmotif x y,
     String.length x = String.length gapmotif ->
     String.length y = String.length gapmotif ->
     exists b, isInstantaneous gapmotif x y = Ok b /\
       (b = true <->
        diffs x y = 1 \/ (1 < diffs x y /\ single_gap_region gapmotif x y))) /\
  isInstantaneous "---" "-a-" "cag" = Ok false /\
  isInstantaneous "--" "-a" "c-" = Ok false /\
  isInstantaneous "-" "a" "-" = Ok true /\
  isInstantaneous "-" "a" "c" = Ok true /\
  (forall gapmotif x, isInstantaneous gapmotif x x = Ok false).
Proof.
  split; [|repeat (split; [reflexivity|])].
  - intros g x y Hx Hy. unfold isInstantaneous, _isInstantaneous.
    destruct (Nat.eqb_spec (diffs x y) 1) as [E|E].
    + exists true. split; [reflexivity|]. split; auto.
    + destruct (Nat.ltb_spec 1 (diffs x y)) as [L|L]; simpl.
      * unfold _isAnyIndel. destruct (String.eqb_spec x y) as [->|Hne].
        { rewrite diffs_refl in L. lia. }
        destruct (loop_start (chars g) (zip x y) 0 no_gap) as (b & Hb & Hiff);
          try reflexivity.
        { unfold zip. rewrite length_combine, !length_chars. lia. }
        exists b. split; [exact Hb|]. rewrite Hiff. simpl.
        unfold single_gap_region, positions. split.
        -- intros H. right. split; [exact L|exact H].
        -- intros [H|[_ H]]; [lia|exact H].
      * exists false. split; [reflexivity|]. split; [discriminate|].
        intros [H|[H _]]; lia.
  - intros g x. apply isInstantaneous_same.
Qed.

Lemma isInstantaneous_spec_witness :
  exists b, isInstantaneous "---" "a--" "act" = Ok b /\
    (b = true <->
     diffs "a--" "act" = 1 \/
     (1 < diffs "a--" "act" /\ single_gap_region "---" "a--" "act")).
Proof.
  exact (proj1 isInstantaneous_spec "---" "a--" "act" eq_refl eq_refl).
Defined.

(** ** Linear dependence and the reference singular-value count *)

Lemma vnth_nil n : vnth [] n = 0%Q.
Proof. unfold vnth. destruct n; reflexivity. Qed.

Lemma vnth_map_seq (f : nat -> Q) d n :
  n < d -> vnth (map f (seq 0 d)) n = f n.
Proof.
  intros H. unfold vnth.
  rewrite (nth_indep _ 0%Q (f 0)) by (rewrite length_map, length_seq; exact H).
  rewrite (map_nth f (seq 0 d) 0 n), seq_nth by exact H. reflexivity.
Qed.

Lemma vnth_map_Qred v n : (vnth (map Qred v) n == vnth v n)%Q.
Proof.
  unfold vnth. revert n. induction v as [|x v IH]; intros [|n]; simpl;
    try reflexivity; [apply Qred_correct|apply IH].
Qed.

Lemma reduce1_nth d b v n :
  n < d ->
  vnth (reduce1 d b v) n =
  (vnth v n - vnth v (fst b) / vnth (snd b) (fst b) * vnth (snd b) n)%Q.
Proof. intros H. unfold reduce1. rewrite vnth_map_seq by exact H. reflexivity. Qed.

(** [reduce] is linear, column by column. *)
Lemma reduce_linear d B : pivots_in d B -> forall v x y a,
  (forall n, n < d -> (vnth v n == a * vnth x n + vnth y n)%Q) ->
  forall n, n < d ->
    (vnth (reduce d B v) n
     == a * vnth (reduce d B x) n + vnth (reduce d B y) n)%Q.
Proof.
  induction 1 as [|b B Hb _ IH]; intros v x y a Hv; [exact Hv|].
  simpl. apply IH. intros n Hn. rewrite !reduce1_nth by exact Hn.
  rewrite (Hv n Hn), (Hv (fst b) Hb). unfold Qdiv. ring.
Qed.

Lemma reduce_snoc d B b v :
  reduce d (B ++ [b]) v = reduce1 d b (reduce d B v).
Proof. unfold reduce. rewrite fold_left_app. reflexivity. Qed.

Lemma in_kernel_snoc d B b v :
  fst b < d -> in_kernel d B v -> in_kernel d (B ++ [b]) v.
Proof.
  intros Hb Hv n Hn. rewrite reduce_snoc, reduce1_nth by exact Hn.
  rewrite (Hv n Hn), (Hv (fst b) Hb). unfold Qdiv. ring.
Qed.

Lemma find_pivot_Some d v p :
  find_pivot d v = Some p -> p < d /\ ~ (vnth v p == 0)%Q.
Proof.
  unfold find_pivot. intros H. apply find_some in H. destruct H as [Hin Hp].
  apply in_seq in Hin. split; [lia|].
  intros E. apply Qeq_bool_iff in E. rewrite E in Hp. discriminate.
Qed.

Lemma find_pivot_None d v :
  (forall n, n < d -> (vnth v n == 0)%Q) -> find_pivot d v = None.
Proof.
  intros H. unfold find_pivot.
  destruct (find _ _) as [p|] eqn:E; [|reflexivity].
  apply find_some in E. destruct E as [Hin Hp]. apply in_seq in Hin.
  assert (Hz : (vnth v p == 0)%Q) by (apply H; lia).
  apply Qeq_bool_iff in Hz. rewrite Hz in Hp. discriminate.
Qed.

Lemma insert_row_pivots d B v :
  pivots_in d B -> pivots_in d (insert_row d B v).
Proof.
  intros HB. unfold insert_row.
  destruct (find_pivot d _) as [p|] eqn:E; [|exact HB].
  apply Forall_app. split; [exact HB|]. constructor; [|constructor].
  apply (find_pivot_Some _ _ _ E).
Qed.

Lemma insert_row_kernel_mono d B v u :
  in_kernel d B u -> in_kernel d (insert_row d B v) u.
Proof.
  intros Hu. unfold insert_row.
  destruct (find_pivot d _) as [p|] eqn:E; [|exact Hu].
  apply in_kernel_snoc; [apply (find_pivot_Some _ _ _ E)|exact Hu].
Qed.

(** A row is in the kernel of the basis it has been offered to. *)
Lemma insert_row_kernel_self d B v : in_kernel d (insert_row d B v) v.
Proof.
  unfold insert_row.
  destruct (find_pivot d _) as [p|] eqn:E.
  - destruct (find_pivot_Some _ _ _ E) as [Hp Hnz].
    intros n Hn. rewrite reduce_snoc, reduce1_nth by exact Hn. simpl.
    rewrite vnth_map_Qred in Hnz.
    rewrite !vnth_map_Qred. field. exact Hnz.
  - intros n Hn.
    destruct (Qeq_dec (vnth (reduce d B v) n) 0) as [Hz|Hnz]; [exact Hz|].
    exfalso. unfold find_pivot in E.
    assert (Hin : In n (seq 0 d)) by (apply in_seq; lia).
    pose proof (find_none _ _ E n Hin) as Hf. simpl in Hf.
    apply negb_false_iff, Qeq_bool_iff in Hf.
    rewrite vnth_map_Qred in Hf. contradiction.
Qed.

Lemma insert_row_length d B v :
  length (insert_row d B v) <= S (length B).
Proof.
  unfold insert_row. destruct (find_pivot d _); [|lia].
  rewrite length_app. simpl. lia.
Qed.

Lemma insert_row_length_kernel d B v :
  in_kernel d B v -> insert_row d B v = B.
Proof.
  intros Hv. unfold insert_row. rewrite find_pivot_None; [reflexivity|].
  intros n Hn. rewrite vnth_map_Qred. apply Hv, Hn.
Qed.

Lemma fold_insert_length d rows : forall B,
  length (fold_left (insert_row d) rows B) <= length B + length rows.
Proof.
  induction rows as [|r rows IH]; intros B; simpl; [lia|].
  specialize (IH (insert_row d B r)). pose proof (insert_row_length d B r). lia.
Qed.

Lemma lincomb_cons c cs r rows n :
  lincomb (c :: cs) (r :: rows) n = (c * vnth r n + lincomb cs rows n)%Q.
Proof. reflexivity. Qed.

Lemma lincomb_zero cs : forall rows n,
  Forall (fun c => (c == 0)%Q) cs -> (lincomb cs rows n == 0)%Q.
Proof.
  induction cs as [|c cs IH]; intros [|r rows] n H; try reflexivity.
  inversion H as [|? ? Hc Hcs]; subst.
  rewrite lincomb_cons, Hc, (IH rows n Hcs). ring.
Qed.

Lemma nonzero_dec (cs : list Q) :
  {Exists (fun c => ~ (c == 0)%Q) cs} + {Forall (fun c => (c == 0)%Q) cs}.
Proof.
  induction cs as [|c cs [IH|IH]].
  - right. constructor.
  - left. apply Exists_cons_tl, IH.
  - destruct (Qeq_dec c 0) as [Hc|Hc].
    + right. constructor; assumption.
    + left. apply Exists_cons_hd, Hc.
Qed.

(** Offering dependent rows to the elimination leaves one of them out. *)
Lemma dependent_fold d : forall rows B cs u,
  pivots_in d B ->
  length cs = length rows ->
  Exists (fun c => ~ (c == 0)%Q) cs ->
  in_kernel d B u ->
  (forall n, n < d -> (lincomb cs rows n + vnth u n == 0)%Q) ->
  length (fold_left (insert_row d) rows B) < length B + length rows.
Proof.
  induction rows as [|r rows IH]; intros B cs u HB Hlen Hex Hu Hdep.
  - destruct cs; [inversion Hex|discriminate].
  - destruct cs as [|c cs]; [discriminate|]. simpl in Hlen.
    simpl fold_left. destruct (nonzero_dec cs) as [Hcs|Hcs].
    + set (u' := map (fun n => (c * vnth r n + vnth u n)%Q) (seq 0 d)).
      assert (Hlt : length (fold_left (insert_row d) rows (insert_row d B r))
                    < length (insert_row d B r) + length rows).
      { apply (IH _ cs u'); [apply insert_row_pivots, HB|lia|exact Hcs| |].
        - intros n Hn.
          rewrite (reduce_linear d _ (insert_row_pivots d B r HB) u' r u c)
            by (try exact Hn; intros k Hk; unfold u';
                rewrite vnth_map_seq by exact Hk; reflexivity).
          rewrite (insert_row_kernel_self d B r n Hn),
                  (insert_row_kernel_mono d B r u Hu n Hn). ring.
        - intros n Hn. unfold u'. rewrite vnth_map_seq by exact Hn.
          rewrite <- (Hdep n Hn), lincomb_cons. ring. }
      pose proof (insert_row_length d B r). simpl. lia.
    + assert (Hc : ~ (c == 0)%Q).
      { inversion Hex as [? ? H|? ? H]; subst; [exact H|].
        exfalso. apply Exists_exists in H. destruct H as (x & Hin & Hx).
        rewrite Forall_forall in Hcs. exact (Hx (Hcs x Hin)). }
      assert (Hr : in_kernel d B r).
      { intros n Hn.
        rewrite (reduce_linear d B HB r u u (- (1 / c) - 1)%Q);
          [rewrite (Hu n Hn); ring| |exact Hn].
        intros k Hk. pose proof (Hdep k Hk) as Hk'.
        rewrite lincomb_cons, (lincomb_zero cs rows k Hcs) in Hk'.
        assert (E1 : (c * vnth r k == - vnth u k)%Q) by lra.
        assert (E : (vnth r k == - (1 / c) * vnth u k)%Q).
        { assert (E2 : (vnth r k == c * vnth r k / c)%Q) by (field; exact Hc).
          rewrite E2, E1. field. exact Hc. }
        rewrite E. ring. }
      rewrite (insert_row_length_kernel d B r Hr).
      pose proof (fold_insert_length d rows B). simpl. lia.
Qed.

Theorem rank_sound rows : linearly_dependent rows -> rank rows < length rows.
Proof.
  intros (cs & Hlen & Hex & Hdep). unfold rank.
  apply (dependent_fold (width rows) rows [] cs []); auto.
  - constructor.
  - intros n _. unfold reduce. simpl. rewrite vnth_nil. reflexivity.
  - intros n _. rewrite vnth_nil, (Hdep n). ring.
Qed.

Lemma significant_app a b :
  significant (a ++ b) = significant a + significant b.
Proof. unfold significant. rewrite List.filter_app, length_app. reflexivity. Qed.

Lemma significant_ones n : significant (repeat 1%Q n) = n.
Proof. induction n as [|n IH]; [reflexivity|]. simpl repeat. unfold significant in *. simpl. rewrite IH. reflexivity. Qed.

Lemma significant_zeros n : significant (repeat 0%Q n) = 0.
Proof. induction n as [|n IH]; [reflexivity|]. simpl repeat. unfold significant in *. simpl. exact IH. Qed.

Lemma significant_rank_svd rows : significant (rank_svd rows) = rank rows.
Proof.
  unfold rank_svd. rewrite significant_app, significant_ones, significant_zeros.
  lia.
Qed.

Theorem rank_svd_detects : svd_detects rank_svd.
Proof.
  intros rows H. rewrite significant_rank_svd. apply rank_sound, H.
Qed.

Lemma lincomb_app c1 : forall r1 c2 r2 n,
  length c1 = length r1 ->
  (lincomb (c1 ++ c2) (r1 ++ r2) n == lincomb c1 r1 n + lincomb c2 r2 n)%Q.
Proof.
  induction c1 as [|c c1 IH]; intros [|r r1] c2 r2 n Hlen; try discriminate.
  - simpl app. unfold lincomb at 2. simpl. ring.
  - simpl app. rewrite !lincomb_cons, IH by (simpl in Hlen; lia). ring.
Qed.

Lemma lincomb_zeros k rows n : (lincomb (repeat 0%Q k) rows n == 0)%Q.
Proof.
  apply lincomb_zero. induction k as [|k IH]; simpl; constructor;
    [reflexivity|exact IH].
Qed.

Lemma zero_row_dependent A r C :
  (forall n, (vnth r n == 0)%Q) -> linearly_dependent (A ++ r :: C).
Proof.
  intros Hr.
  exists (repeat 0%Q (length A) ++ 1%Q :: repeat 0%Q (length C)). split; [|split].
  - rewrite !length_app. simpl. rewrite !repeat_length. reflexivity.
  - apply Exists_app. right. apply Exists_cons_hd. discriminate.
  - intros n. rewrite lincomb_app by apply repeat_length.
    rewrite lincomb_cons, !lincomb_zeros, Hr. ring.
Qed.

Lemma two_dependent_rows_dependent rows :
  two_dependent_rows rows -> linearly_dependent rows.
Proof.
  intros (A & r1 & B & r2 & C & a & b & -> & Hab & Hdep).
  exists (repeat 0%Q (length A) ++ a :: repeat 0%Q (length B)
          ++ b :: repeat 0%Q (length C)).
  split; [|split].
  - rewrite !length_app. simpl. rewrite !length_app. simpl.
    rewrite !repeat_length. reflexivity.
  - destruct (Qeq_dec a 0) as [Ha|Ha].
    + apply Exists_app. right. apply Exists_cons_tl, Exists_app. right.
      apply Exists_cons_hd. intros Hb. apply Hab. split; assumption.
    + apply Exists_app. right. apply Exists_cons_hd, Ha.
  - intros n. rewrite lincomb_app by apply repeat_length.
    rewrite lincomb_cons, lincomb_app by apply repeat_length.
    rewrite lincomb_cons, !lincomb_zeros. pose proof (Hdep n). lra.
Qed.

(** ** Validation of the predicate masks *)

Lemma redundancy_nonempty svd preds :
  preds <> [] ->
  redundancyInPredicateMasks svd preds =
  (Z.of_nat (length preds) - Z.of_nat (significant (svd (mask_rows preds))))%Z.
Proof.
  intros H. unfold redundancyInPredicateMasks, mask_rows, significant.
  destruct preds as [|p preds]; [contradiction|]. cbn [map length].
  rewrite length_map. reflexivity.
Qed.

Lemma redundancy_dependent svd preds :
  svd_detects svd -> linearly_dependent (mask_rows preds) ->
  (0 < redundancyInPredicateMasks svd preds)%Z.
Proof.
  intros Hsvd Hdep. pose proof (Hsvd _ Hdep) as Hlt.
  unfold mask_rows in Hlt at 2. rewrite !length_map in Hlt.
  rewrite redundancy_nonempty; [lia|].
  intros ->. simpl in Hlt. lia.
Qed.

Lemma first_mask_Some test preds name :
  first_mask test preds = Some name ->
  exists A m C, preds = A ++ (name, m) :: C /\ test m = true.
Proof.
  unfold first_mask. induction preds as [|[k m] preds IH]; simpl; [discriminate|].
  destruct (test m) eqn:E; simpl.
  - intros [= <-]. exists [], m, preds. auto.
  - intros H. destruct (IH H) as (A & m' & C & -> & Hm).
    exists ((k, m) :: A), m', C. auto.
Qed.

Lemma first_mask_None test preds :
  first_mask test preds = None <->
  forall name m, In (name, m) preds -> test m = false.
Proof.
  unfold first_mask. induction preds as [|[k m] preds IH]; simpl.
  - split; [intros _ ? ? []|reflexivity].
  - destruct (test m) eqn:E; simpl.
    + split; [discriminate|]. intros H. rewrite (H k m) in E by auto. discriminate.
    + rewrite IH. split.
      * intros H name m' [[= <- <-]|Hin]; [exact E|exact (H _ _ Hin)].
      * intros H name m' Hin. apply (H name). right. exact Hin.
Qed.

Lemma vnth_to_float m n :
  vnth (Array.to_float m) n = if nth n m false then 1%Q else 0%Q.
Proof.
  unfold vnth, Array.to_float.
  exact (map_nth (fun b : bool => if b then 1%Q else 0%Q) m false n).
Qed.

Lemma always_false_nth m n : always_false m = true -> nth n m false = false.
Proof.
  unfold always_false. revert n. induction m as [|b m IH]; intros [|n] H;
    simpl in *; try reflexivity; apply andb_prop in H; destruct H as [Hb Hm].
  - destruct b; [discriminate|reflexivity].
  - apply IH, Hm.
Qed.

(** An always-false mask makes the rows dependent. *)
Lemma always_false_dependent A name m C :
  always_false m = true ->
  linearly_dependent (mask_rows (A ++ (name, m) :: C)).
Proof.
  intros H. unfold mask_rows. rewrite !map_app. simpl map.
  apply zero_row_dependent. intros n.
  rewrite vnth_to_float, always_false_nth by exact H. reflexivity.
Qed.

Lemma zero_redundancy_no_false svd preds :
  svd_detects svd -> redundancyInPredicateMasks svd preds = 0%Z ->
  first_mask always_false preds = None.
Proof.
  intros Hsvd Hz. destruct (first_mask always_false preds) as [name|] eqn:E;
    [|reflexivity].
  destruct (first_mask_Some _ _ _ E) as (A & m & C & -> & Hm).
  pose proof (redundancy_dependent svd _ Hsvd (always_false_dependent A name m C Hm)).
  lia.
Qed.

(** A non-zero redundancy of the masks is an error, with or without scaling. *)
Lemma check_raises_redundant svd do_scaling inst preds :
  redundancyInPredicateMasks svd preds <> 0%Z ->
  raises (checkPredicateMasks svd do_scaling inst preds).
Proof.
  intros H. apply Z.eqb_neq in H. unfold checkPredicateMasks.
  destruct (first_mask always_false preds); [exact I|].
  destruct do_scaling.
  - destruct (first_mask _ preds); [exact I|]. rewrite H. exact I.
  - rewrite H. exact I.
Qed.

(** Going through a [bind]: either its first part raises, or it returns. *)
Tactic Notation "step" "as" simple_intropattern(p) :=
  match goal with
  | |- raises (bind ?r _) => destruct r as [p|]; simpl; [|exact I]
  end.

Lemma init_raises_check svd a w inst inst_f msgs preds :
  init_matrix a = Ok (inst, inst_f, msgs) ->
  _adaptPredicates (arg_alphabet a) inst (rules_items (arg_predicates a))
    = Ok preds ->
  raises (checkPredicateMasks svd (arg_do_scaling a) inst preds) ->
  raises (__init__ svd a w).
Proof.
  intros Hmx Hadapt Hcheck. unfold __init__.
  step as [mp w1]. step as stored. rewrite Hmx. simpl. rewrite Hadapt. simpl.
  destruct (checkPredicateMasks _ _ _ _); [contradiction|exact I].
Qed.

Lemma init_raises_masks svd a w preds :
  construction_masks a = Ok preds ->
  (forall inst, raises (checkPredicateMasks svd (arg_do_scaling a) inst preds)) ->
  raises (__init__ svd a w).
Proof.
  unfold construction_masks. intros H Hcheck.
  destruct (init_matrix a) as [[[inst inst_f] msgs]|] eqn:E; [|discriminate].
  simpl in H. eapply init_raises_check; eauto.
Qed.

Lemma equal_masks_dependent A n1 m B n2 C :
  two_dependent_rows (mask_rows (A ++ (n1, m) :: B ++ (n2, m) :: C)).
Proof.
  unfold mask_rows. rewrite !map_app. simpl map. rewrite !map_app. simpl map.
  exists (map Array.to_float (map snd A)), (Array.to_float m),
         (map Array.to_float (map snd B)), (Array.to_float m),
         (map Array.to_float (map snd C)), 1%Q, (- (1))%Q.
  split; [reflexivity|]. split.
  - intros [H _]. discriminate.
  - intros n. ring.
Qed.

(** C3. [redundancyInPredicateMasks] returns 0 for an empty dict and, for a
    non-empty one, the number of masks minus the number of singular values of
    the stacked flattened masks whose absolute value exceeds 1e-8. When
    [numpy.linalg.svd] reports the linear dependence of rows, two predicates
    with linearly dependent masks (two equal masks, for one) make it
    positive, [checkPredicateMasks] raises, and so does the construction of
    the model. *)
Theorem redundancyInPredicateMasks_spec (svd : list (list Q) -> list Q) :
  redundancyInPredicateMasks svd [] = 0%Z /\
  (forall preds, preds <> [] ->
     redundancyInPredicateMasks svd preds =
     (Z.of_nat (length preds)
      - Z.of_nat (significant (svd (mask_rows preds))))%Z) /\
  (svd_detects svd ->
   forall preds, two_dependent_rows (mask_rows preds) ->
     (0 < redundancyInPredicateMasks svd preds)%Z /\
     (forall do_scaling inst,
        raises (checkPredicateMasks svd do_scaling inst preds)) /\
     (forall a w, construction_masks a = Ok preds -> raises (__init__ svd a w))) /\
  (svd_detects svd ->
   forall A n1 m B n2 C,
     (0 < redundancyInPredicateMasks svd
            (A ++ (n1, m) :: B ++ (n2, m) :: C))%Z).
Proof.
  assert (Hpos : svd_detects svd ->
                 forall preds, two_dependent_rows (mask_rows preds) ->
                 (0 < redundancyInPredicateMasks svd preds)%Z).
  { intros Hsvd preds Hdep. apply redundancy_dependent; [exact Hsvd|].
    apply two_dependent_rows_dependent, Hdep. }
  split; [reflexivity|]. split; [apply redundancy_nonempty|]. split.
  - intros Hsvd preds Hdep. pose proof (Hpos Hsvd preds Hdep) as H.
    assert (Hcheck : forall do_scaling inst,
               raises (checkPredicateMasks svd do_scaling inst preds))
      by (intros; apply check_raises_redundant; lia).
    split; [exact H|]. split; [exact Hcheck|].
    intros a w Ha. apply (init_raises_masks svd a w preds Ha).
    intros inst. apply Hcheck.
  - intros Hsvd A n1 m B n2 C. apply (Hpos Hsvd), equal_masks_dependent.
Qed.

Lemma redundancyInPredicateMasks_spec_witness :
  (0 < redundancyInPredicateMasks rank_svd
         [("kappa", Examples.transition_mask);
          ("omega", Examples.transition_mask)])%Z /\
  raises (__init__ rank_svd Examples.twice_args Examples.empty_world).
Proof.
  destruct (proj1 (proj2 (proj2 (redundancyInPredicateMasks_spec rank_svd)))
              rank_svd_detects
              [("kappa", Examples.transition_mask);
               ("omega", Examples.transition_mask)]
              (equal_masks_dependent [] "kappa" Examples.transition_mask
                 [] "omega" []))
    as (Hpos & _ & Hinit).
  split; [exact Hpos|]. apply Hinit. vm_compute. reflexivity.
Defined.

(** C4, amended. For a set of predicate masks whose redundancy is zero,
    [checkPredicateMasks] does not raise when scaling is disabled; when
    scaling is enabled it raises exactly when some mask equals the
    instantaneous mask or the redundancy of the masks with the instantaneous
    mask appended is not zero. *)
Theorem checkPredicateMasks_zero_redundancy svd inst preds :
  svd_detects svd ->
  redundancyInPredicateMasks svd preds = 0%Z ->
  (exists msgs, checkPredicateMasks svd false inst preds = Ok msgs) /\
  (raises (checkPredicateMasks svd true inst preds) <->
   (exists name m, In (name, m) preds /\ same_mask m inst = true) \/
   redundancyInPredicateMasks svd (preds ++ [("None", inst)]) <> 0%Z).
Proof.
  intros Hsvd Hz. unfold checkPredicateMasks.
  rewrite (zero_redundancy_no_false svd preds Hsvd Hz), Hz. simpl. split.
  - destruct (negb _); eexists; reflexivity.
  - destruct (first_mask (fun m => same_mask m inst) preds) as [name|] eqn:E.
    + split; [|intros _; exact I]. intros _. left.
      destruct (first_mask_Some _ _ _ E) as (A & m & C & -> & Hm).
      exists name, m. split; [|exact Hm]. apply in_elt.
    + destruct (Z.eqb_spec
                  (redundancyInPredicateMasks svd (preds ++ [("None", inst)])) 0)
        as [Hp|Hp]; simpl.
      * split; [intros []|]. intros [(name & m & Hin & Hm)|H]; [|contradiction].
        rewrite (proj1 (first_mask_None _ preds) E name m Hin) in Hm.
        discriminate.
      * split; [|intros _; exact I]. intros _. right. exact Hp.
Qed.

Lemma checkPredicateMasks_zero_redundancy_witness :
  (exists msgs,
     checkPredicateMasks rank_svd false Examples.DNA_inst
       [("kappa", Examples.transition_mask)] = Ok msgs) /\
  (raises (checkPredicateMasks rank_svd true Examples.DNA_inst
             [("kappa", Examples.transition_mask)]) <->
   (exists name m,
      In (name, m) [("kappa", Examples.transition_mask)] /\
      same_mask m Examples.DNA_inst = true) \/
   redundancyInPredicateMasks rank_svd
     ([("kappa", Examples.transition_mask)] ++ [("None", Examples.DNA_inst)])
   <> 0%Z).
Proof.
  apply (checkPredicateMasks_zero_redundancy rank_svd Examples.DNA_inst
           [("kappa", Examples.transition_mask)] rank_svd_detects).
  vm_compute. reflexivity.
Defined.

(** C4, as stated, fails: with scaling enabled, the only predicate of
    [Nucleotide(predicates={'kappa': any_pair})] has the instantaneous mask
    as its mask; the redundancy of this mask set is zero, and
    [checkPredicateMasks] raises, as the construction does. *)
Lemma zero_redundancy_raises :
  construction_masks Examples.always_true_args
    = Ok [("kappa", Examples.DNA_inst)] /\
  redundancyInPredicateMasks rank_svd [("kappa", Examples.DNA_inst)] = 0%Z /\
  checkPredicateMasks rank_svd true Examples.DNA_inst
    [("kappa", Examples.DNA_inst)]
    = Raise (ValueError "Predicate kappa is always true.") /\
  __init__ rank_svd Examples.always_true_args Examples.empty_world
    = Raise (ValueError "Predicate kappa is always true.").
Proof. repeat split; vm_compute; reflexivity. Qed.

(** C5, amended. With scaling disabled, [checkPredicateMasks] raises exactly
    when some predicate is always false or the redundancy of the predicate
    masks is not zero. A mask equal to the instantaneous mask is not looked
    for, and a non-zero redundancy of the masks with the instantaneous mask
    appended only logs a warning. *)
Theorem checkPredicateMasks_without_scaling svd inst preds :
  (raises (checkPredicateMasks svd false inst preds) <->
   first_mask always_false preds <> None \/
   redundancyInPredicateMasks svd preds <> 0%Z) /\
  (first_mask always_false preds = None ->
   redundancyInPredicateMasks svd preds = 0%Z ->
   checkPredicateMasks svd false inst preds =
   Ok (if (redundancyInPredicateMasks svd (preds ++ [("None", inst)]) =? 0)%Z
       then [] else [scaling_warning])).
Proof.
  unfold checkPredicateMasks. split.
  - destruct (first_mask always_false preds) as [name|].
    + split; [|intros _; exact I]. intros _. left. discriminate.
    + destruct (Z.eqb_spec (redundancyInPredicateMasks svd preds) 0) as [Hz|Hz];
        simpl.
      * split; [destruct (negb _); intros []|].
        intros [H|H]; contradiction.
      * split; [|intros _; exact I]. intros _. right. exact Hz.
  - intros -> ->. simpl. destruct (Z.eqb _ 0); reflexivity.
Qed.

Lemma checkPredicateMasks_without_scaling_witness :
  checkPredicateMasks rank_svd false Examples.DNA_inst
    [("kappa", Examples.transition_mask);
     ("omega", Examples.transversion_mask)]
  = Ok [scaling_warning].
Proof.
  exact (proj2 (checkPredicateMasks_without_scaling rank_svd Examples.DNA_inst
                  [("kappa", Examples.transition_mask);
                   ("omega", Examples.transversion_mask)])
           eq_refl eq_refl).
Defined.

(** C5, as stated, fails: with scaling disabled,
    [Nucleotide(predicates={'kappa': transition, 'omega': transition},
    do_scaling=False)] has no always-false predicate, and the redundancy of
    its two equal masks makes [checkPredicateMasks], and the construction,
    raise. *)
Lemma redundancy_raises_without_scaling :
  construction_masks Examples.twice_args
    = Ok [("kappa", Examples.transition_mask);
          ("omega", Examples.transition_mask)] /\
  first_mask always_false
    [("kappa", Examples.transition_mask);
     ("omega", Examples.transition_mask)] = None /\
  checkPredicateMasks rank_svd false Examples.DNA_inst
    [("kappa", Examples.transition_mask);
     ("omega", Examples.transition_mask)]
    = Raise (ValueError "Redundancy in predicates.") /\
  __init__ rank_svd Examples.twice_args Examples.empty_world
    = Raise (ValueError "Redundancy in predicates.").
Proof. repeat split; vm_compute; reflexivity. Qed.

(** ** Bin-partitioned parameters *)

Lemma init_bins_without_ordered a parameter_order :
  as_tuple (arg_ordered_param a) = [] ->
  as_tuple (arg_partitioned_params a) <> [] ->
  init_bins a parameter_order =
  Raise (AssertionError "you must specify an ordered_param for a binned model").
Proof.
  intros Ho Hp. unfold init_bins. rewrite Ho.
  destruct (as_tuple (arg_partitioned_params a)); [contradiction|reflexivity].
Qed.

(** C8. Constructing a model with a non-empty [partitioned_params] and no
    [ordered_param] raises: no model is returned, and the BINS part of
    [__init__], when the construction gets that far, fails the assertion
    "you must specify an ordered_param for a binned model". *)
Theorem binned_model_needs_ordered_param svd a w :
  as_tuple (arg_ordered_param a) = [] ->
  as_tuple (arg_partitioned_params a) <> [] ->
  raises (__init__ svd a w) /\
  forall parameter_order,
    init_bins a parameter_order =
    Raise (AssertionError
             "you must specify an ordered_param for a binned model").
Proof.
  intros Ho Hp. split; [|intros; apply init_bins_without_ordered; assumption].
  unfold __init__.
  step as [mp w1]. step as stored. step as [[inst inst_f] msgs].
  step as preds. step as warnings. step as [[sym order] indices].
  step as scales.
  rewrite (init_bins_without_ordered a order Ho Hp). exact I.
Qed.

Lemma binned_model_needs_ordered_param_witness :
  raises (__init__ rank_svd Examples.binned_args Examples.empty_world) /\
  forall parameter_order,
    init_bins Examples.binned_args parameter_order =
    Raise (AssertionError
             "you must specify an ordered_param for a binned model").
Proof.
  apply (binned_model_needs_ordered_param rank_svd Examples.binned_args
           Examples.empty_world).
  - reflexivity.
  - simpl. discriminate.
Defined.

(** ** [getMotifProbs] *)

Lemma alloc_fresh w d : heap w !! fst (alloc w d) = None.
Proof.
  unfold alloc. simpl. apply not_elem_of_dom. apply is_fresh.
Qed.

Lemma alloc_other w d l :
  is_Some (heap w !! l) ->
  fst (alloc w d) <> l /\ deref (snd (alloc w d)) l = deref w l.
Proof.
  intros Hl.
  assert (Hne : fst (alloc w d) <> l).
  { intros E. pose proof (alloc_fresh w d) as Hf. rewrite E in Hf.
    rewrite Hf in Hl. destruct Hl as [x Hx]. discriminate. }
  split; [exact Hne|]. unfold deref, alloc in *. simpl in *.
  rewrite lookup_insert_ne by exact Hne. reflexivity.
Qed.

Lemma alloc_self w d : deref (snd (alloc w d)) (fst (alloc w d)) = d.
Proof. unfold deref, alloc. simpl. rewrite lookup_insert_eq. reflexivity. Qed.

Lemma alloc_self_valid w d :
  is_Some (heap (snd (alloc w d)) !! fst (alloc w d)).
Proof.
  unfold alloc. simpl. rewrite lookup_insert_eq. eexists; reflexivity.
Qed.

Lemma alloc_valid w d l :
  is_Some (heap w !! l) -> is_Some (heap (snd (alloc w d)) !! l).
Proof.
  intros Hl. destruct (alloc_other w d l Hl) as [Hne _].
  unfold alloc in *. simpl in *. rewrite lookup_insert_ne by exact Hne.
  exact Hl.
Qed.

Lemma setitem_other w c k v l : c <> l -> deref (setitem w c k v) l = deref w l.
Proof.
  intros Hne. unfold deref, setitem. simpl.
  rewrite lookup_insert_ne by exact Hne. reflexivity.
Qed.

Lemma delitem_other w c k l : c <> l -> deref (delitem w c k) l = deref w l.
Proof.
  intros Hne. unfold deref, delitem. simpl.
  rewrite lookup_insert_ne by exact Hne. reflexivity.
Qed.

(** C10. For a model whose motif probabilities are set, [getMotifProbs]
    returns a new dict object with the contents of the stored one: setting
    or deleting a key of the returned dict leaves the stored dict as it was,
    and a second call returns a dict equal to the first, also after the
    first has been changed in between. *)
Theorem getMotifProbs_copy self w l :
  motif_probs self = Some l ->
  is_Some (heap w !! l) ->
  exists c w1,
    getMotifProbs self w = Ok (c, w1) /\
    c <> l /\ heap w !! c = None /\
    deref w1 c = deref w l /\
    deref w1 l = deref w l /\
    (forall k v, deref (setitem w1 c k v) l = deref w l) /\
    (forall k, deref (delitem w1 c k) l = deref w l) /\
    (exists c' w2,
       getMotifProbs self w1 = Ok (c', w2) /\
       c' <> c /\ deref w2 c' = deref w2 c) /\
    (forall k v, exists c' w2,
       getMotifProbs self (setitem w1 c k v) = Ok (c', w2) /\
       deref w2 c' = deref w l).
Proof.
  intros Hself Hl. unfold getMotifProbs. rewrite Hself.
  destruct (alloc_other w (deref w l) l Hl) as [Hne Hsame].
  pose proof (alloc_fresh w (deref w l)) as Hfresh.
  pose proof (alloc_self w (deref w l)) as Hcopy.
  pose proof (alloc_valid w (deref w l) l Hl) as Hl1.
  pose proof (alloc_self_valid w (deref w l)) as Hc.
  destruct (alloc w (deref w l)) as [c w1] eqn:E. simpl in *.
  exists c, w1. repeat split; try assumption.
  - intros k v. rewrite setitem_other by exact Hne. exact Hsame.
  - intros k. rewrite delitem_other by exact Hne. exact Hsame.
  - destruct (alloc_other w1 (deref w1 l) c Hc) as [Hne' Hsame'].
    pose proof (alloc_self w1 (deref w1 l)) as Hcopy'.
    destruct (alloc w1 (deref w1 l)) as [c' w2]. simpl in *.
    exists c', w2. repeat split; [exact Hne'|]. congruence.
  - intros k v.
    pose proof (alloc_self (setitem w1 c k v) (deref (setitem w1 c k v) l))
      as Hcopy'.
    destruct (alloc (setitem w1 c k v) (deref (setitem w1 c k v) l))
      as [c' w2]. simpl in *.
    exists c', w2. split; [reflexivity|].
    rewrite Hcopy', setitem_other by exact Hne. exact Hsame.
Qed.

(** ** What a constructed model satisfies *)

(** Going through a [bind] that returned. *)
Tactic Notation "unbind" hyp(H) "as" simple_intropattern(p) ident(E) :=
  match type of H with
  | bind ?r _ = Ok _ => destruct r as [p|] eqn:E; simpl in H; [|discriminate H]
  end.

Lemma heap_warn w msg : heap (warn w msg) = heap w.
Proof. reflexivity. Qed.

Lemma heap_warn_all msgs : forall w, heap (warn_all w msgs) = heap w.
Proof.
  unfold warn_all. induction msgs as [|msg msgs IH]; intros w; simpl;
    [reflexivity|]. rewrite IH. reflexivity.
Qed.

Lemma dict_truthy_valid w l :
  dict_truthy w (Some l) = true -> is_Some (heap w !! l).
Proof.
  unfold dict_truthy, deref. destruct (heap w !! l) as [d|]; simpl.
  - intros _. eexists; reflexivity.
  - rewrite map_size_empty. discriminate.
Qed.

(** The parts of [__init__] that a returned model went through. *)
Lemma init_inv svd a w0 m w :
  __init__ svd a w0 = Ok (m, w) ->
  (exists msgs,
     init_matrix a
     = Ok (_instantaneous_mask m, _instantaneous_mask_f m, msgs)) /\
  _adaptPredicates (arg_alphabet a) (_instantaneous_mask m)
    (rules_items (arg_predicates a)) = Ok (predicate_masks m) /\
  (exists warnings,
     checkPredicateMasks svd (arg_do_scaling a) (_instantaneous_mask m)
       (predicate_masks m) = Ok warnings) /\
  (exists sym,
     init_order (length (arg_alphabet a)) (predicate_masks m) sym [] []
     = Ok (symmetric m, parameter_order m, predicate_indices m)) /\
  alphabet m = arg_alphabet a /\
  class m = arg_class a /\
  gapmotif m = arg_gapmotif a /\
  _do_scaling m = arg_do_scaling a /\
  (forall l, motif_probs m = Some l -> is_Some (heap w !! l)).
Proof.
  unfold __init__. intros H.
  unbind H as [mp w1] Emp. unbind H as stored Est.
  unbind H as [[inst inst_f] msgs] Emx. unbind H as preds Epreds.
  unbind H as warnings Echeck. unbind H as [[sym order] indices] Eorder.
  unbind H as scales Escales. unbind H as [[rate ordered] partitioned] Ebins.
  unbind H as dist Edist. injection H as <- <-. simpl.
  repeat split; eauto.
  intros l Hl.
  destruct (dict_truthy w1 mp) eqn:Et.
  - unbind Est as u Eu. injection Est as <-. simpl in Hl. subst mp.
    destruct sym; simpl; rewrite ?heap_warn, !heap_warn_all;
      apply dict_truthy_valid, Et.
  - injection Est as <-. discriminate.
Qed.

Lemma init_motif_probs_valid svd a w0 m w l :
  __init__ svd a w0 = Ok (m, w) -> motif_probs m = Some l ->
  is_Some (heap w !! l).
Proof.
  intros H. destruct (init_inv svd a w0 m w H) as (_ & _ & _ & _ & _ & _ & _ & _ & Hv).
  apply Hv.
Qed.

Lemma getMotifProbs_copy_witness :
  exists self w,
    __init__ rank_svd Examples.kappa_args Examples.empty_world = Ok (self, w) /\
    exists c w1,
      getMotifProbs self w = Ok (c, w1) /\
      c <> 1%positive /\
      deref w1 c = deref w 1%positive /\
      forall k v, deref (setitem w1 c k v) 1%positive = deref w 1%positive.
Proof.
  destruct (__init__ rank_svd Examples.kappa_args Examples.empty_world)
    as [[self w]|] eqn:E; [|vm_compute in E; discriminate E].
  exists self, w. split; [reflexivity|].
  assert (Hl : motif_probs self = Some 1%positive).
  { vm_compute in E. injection E as <- _. reflexivity. }
  destruct (getMotifProbs_copy self w 1%positive Hl
              (init_motif_probs_valid _ _ _ _ _ _ E Hl))
    as (c & w1 & Hget & Hne & _ & Hc & _ & Hset & _).
  exists c, w1. auto.
Defined.

(** ** Arrays *)

Lemma flat_index_lt M i j : i < M -> j < M -> i * M + j < M * M.
Proof. intros Hi Hj. nia. Qed.

Lemma length_tabulate_from {A} (f : nat -> nat -> A) M n : forall s,
  length (flat_map (fun i => map (f i) (seq 0 M)) (seq s n)) = n * M.
Proof.
  induction n as [|n IH]; intros s; [reflexivity|].
  simpl. rewrite length_app, length_map, length_seq, IH. reflexivity.
Qed.

Lemma length_tabulate {A} (f : nat -> nat -> A) M :
  length (Array.tabulate M f) = M * M.
Proof. apply length_tabulate_from. Qed.

Lemma nth_tabulate_from {A} (d : A) (f : nat -> nat -> A) M n : forall s i j,
  i < n -> j < M ->
  nth (i * M + j) (flat_map (fun i => map (f i) (seq 0 M)) (seq s n)) d
  = f (s + i) j.
Proof.
  induction n as [|n IH]; intros s i j Hi Hj; [lia|].
  simpl. destruct i as [|i].
  - rewrite app_nth1 by (rewrite length_map, length_seq; exact Hj).
    simpl. rewrite (nth_indep _ d (f s 0)) by (rewrite length_map, length_seq; exact Hj).
    rewrite (map_nth (f s) (seq 0 M) 0 j), seq_nth by exact Hj.
    rewrite Nat.add_0_r. reflexivity.
  - rewrite app_nth2 by (rewrite length_map, length_seq; simpl; lia).
    rewrite length_map, length_seq.
    replace (S i * M + j - M) with (i * M + j) by (simpl; lia).
    rewrite IH by lia. f_equal. lia.
Qed.

Lemma entry_tabulate {A} (d : A) (f : nat -> nat -> A) M i j :
  i < M -> j < M -> Array.entry d M (Array.tabulate M f) i j = f i j.
Proof.
  intros Hi Hj. unfold Array.entry, Array.tabulate.
  rewrite nth_tabulate_from by assumption. reflexivity.
Qed.

Lemma nonzero_from_spec mask : forall s n,
  In n (Array.nonzero_from s mask) <->
  s <= n /\ nth (n - s) mask false = true.
Proof.
  induction mask as [|b mask IH]; intros s n; simpl.
  - split; [intros []|]. intros [_ H]. destruct (n - s); discriminate.
  - assert (Hrec : In n (Array.nonzero_from (S s) mask) <->
                   s < n /\ nth (n - S s) mask false = true)
      by (rewrite IH; reflexivity).
    destruct b; simpl; rewrite Hrec; split.
    + intros [<-|[Hlt Hn]].
      * rewrite Nat.sub_diag. auto.
      * split; [lia|]. replace (n - s) with (S (n - S s)) by lia. exact Hn.
    + intros [Hle Hn]. destruct (Nat.eq_dec s n) as [E|E]; [left; exact E|].
      right. split; [lia|]. replace (n - s) with (S (n - S s)) in Hn by lia.
      exact Hn.
    + intros [Hlt Hn]. split; [lia|].
      replace (n - s) with (S (n - S s)) by lia. exact Hn.
    + intros [Hle Hn]. destruct (Nat.eq_dec s n) as [E|E].
      * subst n. rewrite Nat.sub_diag in Hn. discriminate.
      * split; [lia|]. replace (n - s) with (S (n - S s)) in Hn by lia.
        exact Hn.
Qed.

Lemma nonzero_spec mask n :
  In n (Array.nonzero mask) <-> nth n mask false = true.
Proof.
  unfold Array.nonzero. rewrite nonzero_from_spec, Nat.sub_0_r.
  split; [intros [_ H]; exact H|intros H; split; [lia|exact H]].
Qed.

Lemma nth_true_lt (mask : list bool) n :
  nth n mask false = true -> n < length mask.
Proof.
  intros H. destruct (Nat.lt_ge_cases n (length mask)) as [L|L]; [exact L|].
  rewrite nth_overflow in H by exact L. discriminate.
Qed.

Lemma nth_insert {A} (d v : A) (a : list A) : forall n k,
  n < length a ->
  nth k (<[n := v]> a) d = if k =? n then v else nth k a d.
Proof.
  induction a as [|x a IH]; intros n k Hn; simpl in Hn; [lia|].
  destruct n as [|n], k as [|k]; simpl; try reflexivity.
  rewrite IH by lia. reflexivity.
Qed.

(** [put] with indices inside the array writes [v] there and nothing else. *)
Lemma put_spec {A} (d v : A) indices : forall a,
  (forall n, In n indices -> n < length a) ->
  exists a', Array.put a indices v = Ok a' /\
             length a' = length a /\
             forall k, nth k a' d = if existsb (Nat.eqb k) indices
                                    then v else nth k a d.
Proof.
  induction indices as [|n indices IH]; intros a Hin; simpl.
  - exists a. auto.
  - assert (Hn : n < length a) by (apply Hin; left; reflexivity).
    destruct (Nat.ltb_spec n (length a)) as [_|L]; [|lia].
    destruct (IH (<[n := v]> a)) as (a' & Hput & Hlen & Hnth).
    { intros k Hk. rewrite length_insert. apply Hin. right. exact Hk. }
    exists a'. split; [exact Hput|]. split; [rewrite Hlen; apply length_insert|].
    intros k. rewrite Hnth, nth_insert by exact Hn.
    destruct (k =? n); simpl; [|reflexivity].
    destruct (existsb (Nat.eqb k) indices); reflexivity.
Qed.

Lemma existsb_nonzero mask k :
  existsb (Nat.eqb k) (Array.nonzero mask) = nth k mask false.
Proof.
  destruct (nth k mask false) eqn:E.
  - apply existsb_exists. exists k. split; [apply nonzero_spec, E|apply Nat.eqb_refl].
  - destruct (existsb _ _) eqn:Ex; [|reflexivity].
    apply existsb_exists in Ex. destruct Ex as (n & Hin & Hn).
    apply Nat.eqb_eq in Hn. subst n. apply nonzero_spec in Hin. congruence.
Qed.

Lemma length_mul a : forall b,
  length a = length b -> length (Array.mul a b) = length a.
Proof.
  induction a as [|x a IH]; intros [|y b] H; simpl in *; try lia.
  rewrite IH by lia. reflexivity.
Qed.

Lemma nth_mul a : forall b n,
  length a = length b -> n < length a ->
  nth n (Array.mul a b) 0%Q = Qmult (nth n a 0%Q) (nth n b 0%Q).
Proof.
  induction a as [|x a IH]; intros [|y b] n H Hn; simpl in *; try lia.
  destruct n as [|n]; [reflexivity|]. apply IH; lia.
Qed.

(** Multiplying by [1.0] leaves a number as it is. *)
Lemma Qmult_one (x : Q) : Qmult x 1 = x.
Proof.
  destruct x as [n d]. unfold Qmult. simpl.
  rewrite Z.mul_1_r, Pos.mul_1_r. reflexivity.
Qed.

Lemma nth_ones n k : k < n -> nth k (Array.ones n) 0%Q = 1%Q.
Proof.
  intros H. unfold Array.ones. rewrite nth_repeat_lt by exact H. reflexivity.
Qed.

Lemma map_const_ones (l : list Q) :
  map (fun _ => 1%Q) l = Array.ones (length l).
Proof.
  unfold Array.ones. induction l as [|x l IH]; simpl; [reflexivity|].
  rewrite IH. reflexivity.
Qed.

(** ** Masks of predicates *)

Lemma mapM_ext_ok {A B} (f : A -> res B) (g : A -> B) l :
  (forall a, In a l -> f a = Ok (g a)) -> mapM f l = Ok (map g l).
Proof.
  induction l as [|a l IH]; intros H; simpl; [reflexivity|].
  rewrite (H a) by (left; reflexivity). simpl.
  rewrite IH by (intros b Hb; apply H; right; exact Hb). reflexivity.
Qed.

Lemma mapM_inv {A B} (d : B) (f : A -> res B) l : forall bs,
  mapM f l = Ok bs ->
  bs = map (fun a => res_get d (f a)) l /\
  forall a, In a l -> f a = Ok (res_get d (f a)).
Proof.
  induction l as [|a l IH]; simpl; intros bs H.
  - injection H as <-. split; [reflexivity|intros ? []].
  - destruct (f a) as [b|] eqn:Ea; simpl in H; [|discriminate].
    destruct (mapM f l) as [bs'|]; simpl in H; [|discriminate].
    injection H as <-. destruct (IH bs' eq_refl) as [-> Hall].
    split; [reflexivity|]. intros x [<-|Hx]; [rewrite Ea; reflexivity|].
    apply Hall, Hx.
Qed.

Lemma predicate2matrix_pure alphabet p inst :
  predicate2matrix alphabet (fun x y => Ok (p x y)) (Some inst)
  = Ok (Array.tabulate (length alphabet) (masked alphabet inst p)).
Proof.
  unfold predicate2matrix, Array.tabulate.
  rewrite (mapM_ext_ok _
             (fun i => map (masked alphabet inst p i) (seq 0 (length alphabet)))).
  - simpl. rewrite flat_map_concat_map. reflexivity.
  - intros i _. apply mapM_ext_ok. intros j _. unfold masked.
    destruct (Array.entry _ _ _ _ _); reflexivity.
Qed.

Lemma predicate2matrix_None_inv alphabet pred m :
  predicate2matrix alphabet pred None = Ok m ->
  length m = length alphabet * length alphabet /\
  forall i j, i < length alphabet -> j < length alphabet ->
    pred (nth i alphabet "") (nth j alphabet "")
    = Ok (Array.entry false (length alphabet) m i j).
Proof.
  unfold predicate2matrix. intros H.
  destruct (mapM _ (seq 0 (length alphabet))) as [rows|] eqn:E;
    simpl in H; [|discriminate].
  injection H as <-.
  destruct (mapM_inv [] _ _ _ E) as [-> Hrows].
  set (g := fun i j => res_get false
                         (pred (nth i alphabet "") (nth j alphabet ""))).
  assert (Hrow : forall i, In i (seq 0 (length alphabet)) ->
            res_get []
              (mapM (fun j => pred (nth i alphabet "") (nth j alphabet ""))
                 (seq 0 (length alphabet)))
            = map (g i) (seq 0 (length alphabet)) /\
            forall j, In j (seq 0 (length alphabet)) ->
              pred (nth i alphabet "") (nth j alphabet "") = Ok (g i j)).
  { intros i Hi. specialize (Hrows i Hi). simpl in Hrows.
    destruct (mapM_inv false _ _ _ Hrows) as [Hr Hcells].
    split; [exact Hr|exact Hcells]. }
  assert (Hm : concat
                 (map (fun i => res_get []
                    (mapM (fun j =>
                       if true then pred (nth i alphabet "") (nth j alphabet "")
                       else Ok false) (seq 0 (length alphabet))))
                    (seq 0 (length alphabet)))
               = Array.tabulate (length alphabet) g).
  { unfold Array.tabulate. rewrite flat_map_concat_map. f_equal.
    apply map_ext_in. intros i Hi. apply (Hrow i Hi). }
  rewrite Hm. split; [apply length_tabulate|].
  intros i j Hi Hj. rewrite entry_tabulate by assumption.
  apply (Hrow i); apply in_seq; lia.
Qed.

Lemma adaptPredicate_inv alphabet inst pred key lm :
  adaptPredicate alphabet inst pred key = Ok lm ->
  mask_within alphabet inst (snd lm).
Proof.
  unfold adaptPredicate. rewrite predicate2matrix_pure. simpl.
  intros [= <-]. exists (makeModelPredicate pred). reflexivity.
Qed.

Lemma adapt_loop_within alphabet inst rules : forall acc pm,
  Forall (fun kv => mask_within alphabet inst (snd kv)) acc ->
  adapt_loop alphabet inst rules acc = Ok pm ->
  Forall (fun kv => mask_within alphabet inst (snd kv)) pm.
Proof.
  induction rules as [|[key pred] rules IH]; simpl; intros acc pm Hacc H.
  - injection H as <-. exact Hacc.
  - destruct (adaptPredicate alphabet inst pred key) as [lm|] eqn:E;
      simpl in H; [|discriminate].
    destruct (has_key (fst lm) acc); [discriminate|].
    apply (IH (acc ++ [lm])); [|exact H].
    apply Forall_app. split; [exact Hacc|]. constructor; [|constructor].
    apply (adaptPredicate_inv _ _ _ _ _ E).
Qed.

Lemma _adaptPredicates_within alphabet inst r pm :
  _adaptPredicates alphabet inst r = Ok pm ->
  Forall (fun kv => mask_within alphabet inst (snd kv)) pm.
Proof.
  unfold _adaptPredicates. apply adapt_loop_within. constructor.
Qed.

Lemma init_order_inv M items : forall sym order indices sym' order' indices',
  init_order M items sym order indices = Ok (sym', order', indices') ->
  order' = order ++ map fst items /\
  indices' = indices ++ map (fun kv => Array.nonzero (snd kv)) items.
Proof.
  induction items as [|[name mask] items IH]; simpl;
    intros sym order indices sym' order' indices' H.
  - injection H as _ <- <-. rewrite !app_nil_r. auto.
  - destruct (assert _ _); simpl in H; [|discriminate].
    apply IH in H. destruct H as [-> ->].
    rewrite <- !app_assoc. auto.
Qed.

Lemma mask_within_length alphabet inst mask :
  mask_within alphabet inst mask ->
  length mask = length alphabet * length alphabet.
Proof. intros [p ->]. apply length_tabulate. Qed.

Lemma mask_within_entry alphabet inst mask i j :
  mask_within alphabet inst mask ->
  i < length alphabet -> j < length alphabet ->
  Array.entry false (length alphabet) mask i j = true ->
  Array.entry false (length alphabet) inst i j = true.
Proof.
  intros [p ->] Hi Hj. rewrite entry_tabulate by assumption.
  unfold masked. destruct (Array.entry _ _ inst i j); [reflexivity|discriminate].
Qed.

(** ** Constructed models *)

Lemma Codon_isInstantaneous_same gapmotif x :
  Codon_isInstantaneous gapmotif x x = Ok false.
Proof.
  unfold Codon_isInstantaneous. rewrite String.eqb_refl, diffs_refl.
  destruct (_ || _); reflexivity.
Qed.

Lemma model_isInstantaneous_same c gapmotif x :
  model_isInstantaneous c gapmotif x x = Ok false.
Proof.
  destruct c; [apply isInstantaneous_same|apply Codon_isInstantaneous_same].
Qed.

Lemma forallb_diagonal M (rm : list Q) i :
  forallb (fun q => Qeq_bool q 0) (diagonal 0%Q M rm) = true ->
  i < M -> Qeq_bool (Array.entry 0%Q M rm i i) 0 = true.
Proof.
  intros H Hi. rewrite forallb_forall in H. apply H.
  unfold diagonal. apply in_map_iff. exists i. split; [reflexivity|].
  apply in_seq. lia.
Qed.

(** The instantaneous mask of a constructed model: its shape, its diagonal,
    and its float version when the model has no empirical rate matrix. *)
Lemma init_matrix_inv a inst inst_f msgs :
  init_matrix a = Ok (inst, inst_f, msgs) ->
  length inst = length (arg_alphabet a) * length (arg_alphabet a) /\
  length inst_f = length (arg_alphabet a) * length (arg_alphabet a) /\
  (forall i, i < length (arg_alphabet a) ->
     Array.entry false (length (arg_alphabet a)) inst i i = false) /\
  (arg_rate_matrix a = None -> inst_f = Array.to_float inst).
Proof.
  unfold init_matrix. intros H. set (M := length (arg_alphabet a)) in *.
  destruct (arg_rate_matrix a) as [rm|].
  - destruct (Nat.eqb_spec (length rm) (M * M)) as [Hlen|]; simpl in H;
      [|discriminate].
    destruct (forallb _ (diagonal 0%Q _ rm)) eqn:Hdiag; simpl in H;
      [|discriminate].
    injection H as <- <- _. rewrite !length_map.
    repeat split; try exact Hlen; [|discriminate].
    intros i Hi. unfold Array.entry.
    rewrite (map_nth (fun q => negb (Qeq_bool q 0)) _ 0%Q).
    rewrite (map_nth (fun q => Qmult q 1) rm 0%Q), Qmult_one.
    fold (Array.entry 0%Q M rm i i).
    rewrite (forallb_diagonal M rm i Hdiag Hi). reflexivity.
  - destruct (predicate2matrix _ _ None) as [m|] eqn:E; simpl in H;
      [|discriminate].
    injection H as <- <- _.
    destruct (predicate2matrix_None_inv _ _ _ E) as [Hlen Hcells].
    unfold Array.to_float. rewrite length_map.
    repeat split; try exact Hlen.
    intros i Hi. pose proof (Hcells i i Hi Hi) as Hc.
    rewrite model_isInstantaneous_same in Hc. injection Hc as Hc.
    symmetry. exact Hc.
Qed.

Lemma init_constructed svd a w0 self w :
  __init__ svd a w0 = Ok (self, w) ->
  constructed self /\
  (arg_rate_matrix a = None ->
   _instantaneous_mask_f self = Array.to_float (_instantaneous_mask self)).
Proof.
  intros H.
  destruct (init_inv svd a w0 self w H)
    as ((msgs & Hmx) & Hadapt & _ & (sym & Horder) & Halph & _).
  destruct (init_matrix_inv a _ _ _ Hmx) as (Hl & Hlf & Hdiag & Hf).
  apply init_order_inv in Horder. destruct Horder as [Ho Hi]. simpl in Ho, Hi.
  split; [|exact Hf]. rewrite <- Halph in *.
  constructor; try assumption.
  apply (_adaptPredicates_within _ _ _ _ Hadapt).
Qed.

Lemma constructed_mask_entry self name mask i j :
  constructed self -> In (name, mask) (predicate_masks self) ->
  i < length (alphabet self) -> j < length (alphabet self) ->
  Array.entry false (length (alphabet self)) mask i j = true ->
  Array.entry false (length (alphabet self)) (_instantaneous_mask self) i j
  = true.
Proof.
  intros Hc Hin Hi Hj. pose proof (masks_within self Hc) as Hw.
  rewrite Forall_forall in Hw. apply list_elem_of_In in Hin.
  apply (mask_within_entry _ _ _ i j (Hw _ Hin) Hi Hj).
Qed.

(** C9. In every constructed model, a predicate mask is true only where the
    instantaneous mask is true. *)
Theorem predicate_masks_within_instantaneous svd a w0 self w :
  __init__ svd a w0 = Ok (self, w) ->
  forall name mask, In (name, mask) (predicate_masks self) ->
  forall i j, i < length (alphabet self) -> j < length (alphabet self) ->
    Array.entry false (length (alphabet self)) mask i j = true ->
    Array.entry false (length (alphabet self)) (_instantaneous_mask self) i j
    = true.
Proof.
  intros H name mask Hin i j Hi Hj.
  apply (constructed_mask_entry self name mask i j); try assumption.
  apply (init_constructed svd a w0 self w H).
Qed.

Lemma predicate_masks_within_instantaneous_witness :
  exists self w,
    __init__ rank_svd Examples.kappa_args Examples.empty_world = Ok (self, w) /\
    forall name mask, In (name, mask) (predicate_masks self) ->
    forall i j, i < length (alphabet self) -> j < length (alphabet self) ->
      Array.entry false (length (alphabet self)) mask i j = true ->
      Array.entry false (length (alphabet self)) (_instantaneous_mask self) i j
      = true.
Proof.
  destruct (__init__ rank_svd Examples.kappa_args Examples.empty_world)
    as [[self w]|] eqn:E; [|vm_compute in E; discriminate E].
  exists self, w. split; [reflexivity|].
  exact (predicate_masks_within_instantaneous rank_svd Examples.kappa_args
           Examples.empty_world self w E).
Defined.

(** ** [getMatrixParams] *)

Lemma names_at_outside self i j :
  constructed self ->
  i < length (alphabet self) -> j < length (alphabet self) ->
  Array.entry false (length (alphabet self)) (_instantaneous_mask self) i j
  = false ->
  names_at self i j = [].
Proof.
  intros Hc Hi Hj Hinst. unfold names_at.
  assert (Hall : forall name mask, In (name, mask) (predicate_masks self) ->
            Array.entry false (length (alphabet self)) mask i j = false).
  { intros name mask Hin.
    destruct (Array.entry false _ mask i j) eqn:E; [|reflexivity].
    rewrite (constructed_mask_entry self name mask i j Hc Hin Hi Hj E) in Hinst.
    discriminate. }
  induction (predicate_masks self) as [|[name mask] pm IH]; [reflexivity|].
  cbn -[Array.entry]. rewrite (Hall name mask) by (left; reflexivity).
  apply IH. intros n m Hin. apply (Hall n m). right. exact Hin.
Qed.

Lemma getMatrixParams_entry self i j :
  i < length (alphabet self) -> j < length (alphabet self) ->
  Array.entry [] (length (alphabet self)) (getMatrixParams self) i j
  = if Array.entry false (length (alphabet self))
         (_instantaneous_mask self) i j
    then list_sort (names_at self i j) else [].
Proof.
  intros Hi Hj. unfold getMatrixParams. rewrite entry_tabulate by assumption.
  destruct (Array.entry false _ _ i j); reflexivity.
Qed.

Lemma getMatrixParams_cell self i j :
  constructed self ->
  i < length (alphabet self) -> j < length (alphabet self) ->
  Array.entry [] (length (alphabet self)) (getMatrixParams self) i j
  = list_sort (names_at self i j).
Proof.
  intros Hc Hi Hj. rewrite getMatrixParams_entry by assumption.
  destruct (Array.entry false _ _ i j) eqn:E; [reflexivity|].
  rewrite (names_at_outside self i j Hc Hi Hj E). reflexivity.
Qed.

Lemma In_names_at self i j name :
  In name (names_at self i j) <->
  exists mask, In (name, mask) (predicate_masks self) /\
               Array.entry false (length (alphabet self)) mask i j = true.
Proof.
  unfold names_at. rewrite in_map_iff. split.
  - intros ([n mask] & <- & Hin). apply filter_In in Hin.
    exists mask. exact Hin.
  - intros (mask & Hin & Hm). exists (name, mask). split; [reflexivity|].
    apply filter_In. split; assumption.
Qed.

(** C6. In every constructed model, cell [(i, j)] of [getMatrixParams()] is
    the sorted list of the names of the predicates whose masks are true at
    [(i, j)], and every diagonal cell is the empty list. *)
Theorem getMatrixParams_spec svd a w0 self w :
  __init__ svd a w0 = Ok (self, w) ->
  forall i j, i < length (alphabet self) -> j < length (alphabet self) ->
    let cell :=
      Array.entry [] (length (alphabet self)) (getMatrixParams self) i j in
    Permutation (names_at self i j) cell /\
    Sorted (fun x y => String.leb x y = true) cell /\
    (forall name,
       In name cell <->
       exists mask, In (name, mask) (predicate_masks self) /\
                    Array.entry false (length (alphabet self)) mask i j = true)
    /\
    Array.entry [] (length (alphabet self)) (getMatrixParams self) i i = [].
Proof.
  intros H i j Hi Hj cell.
  destruct (init_constructed svd a w0 self w H) as [Hc _].
  assert (Hcell : cell = list_sort (names_at self i j))
    by (apply getMatrixParams_cell; assumption).
  assert (Hperm : Permutation (names_at self i j) cell)
    by (rewrite Hcell; apply StringSort.Permuted_sort).
  split; [exact Hperm|]. split; [|split].
  - rewrite Hcell. apply StringSort.Sorted_sort.
  - intros name. rewrite <- In_names_at. split; intros Hin.
    + apply (Permutation_in name (Permutation_sym Hperm) Hin).
    + apply (Permutation_in name Hperm Hin).
  - rewrite getMatrixParams_entry, (inst_diagonal self Hc i Hi) by assumption.
    reflexivity.
Qed.

Lemma getMatrixParams_spec_witness :
  exists self w,
    __init__ rank_svd Examples.general_args Examples.empty_world = Ok (self, w) /\
    Array.entry [] 4 (getMatrixParams self) 0 1 = ["kappa"] /\
    Array.entry [] 4 (getMatrixParams self) 0 2 = ["omega"] /\
    Array.entry [] 4 (getMatrixParams self) 0 0 = [] /\
    Sorted (fun x y => String.leb x y = true)
      (Array.entry [] (length (alphabet self)) (getMatrixParams self) 0 1).
Proof.
  destruct (__init__ rank_svd Examples.general_args Examples.empty_world)
    as [[self w]|] eqn:E; [|vm_compute in E; discriminate E].
  exists self, w. split; [reflexivity|].
  assert (Hlen : 0 < length (alphabet self) /\ 1 < length (alphabet self)).
  { pose proof E as E'. vm_compute in E'. injection E' as <- _. simpl. lia. }
  destruct (getMatrixParams_spec rank_svd Examples.general_args
              Examples.empty_world self w E 0 1 (proj1 Hlen) (proj2 Hlen))
    as (_ & Hsorted & _).
  vm_compute in E. injection E as <- _.
  repeat split; try (vm_compute; reflexivity). exact Hsorted.
Defined.

(** ** [calcRateMatrix] *)

Lemma times_cons x v l : times x (v :: l) = times (Qmult x v) l.
Proof. reflexivity. Qed.

(** The loop of [calcRateMatrix] on the buffers: position [n] of [F] is
    multiplied by the parameters of the masks that are true at [n], one
    after the other. *)
Lemma calc_loop_spec : forall (ms : masks) (params : list Q) (F : list Q),
  Forall (fun kv => length (snd kv) = length F) ms ->
  exists F',
    calc_loop F (Array.ones (length F))
      (combine (map (fun kv => Array.nonzero (snd kv)) ms) params) = Ok F' /\
    length F' = length F /\
    forall n, n < length F ->
      nth n F' 0%Q =
      times (nth n F 0%Q)
        (map snd (List.filter (fun mv => nth n (snd (fst mv)) false)
                    (combine ms params))).
Proof.
  induction ms as [|[name mask] ms IH]; intros params F Hms.
  - exists F. simpl. auto.
  - destruct params as [|par params]; [exists F; simpl; auto|].
    inversion Hms as [|? ? Hmask Hrest]; subst. simpl in Hmask.
    cbn [map combine calc_loop snd].
    destruct (put_spec 0%Q par (Array.nonzero mask) (Array.ones (length F)))
      as (work & Hput & Hwlen & Hwork).
    { intros n Hn. unfold Array.ones. rewrite repeat_length, <- Hmask.
      apply nth_true_lt, nonzero_spec, Hn. }
    rewrite Hput. cbn [bind].
    unfold Array.ones in Hwlen. rewrite repeat_length in Hwlen.
    assert (HF1 : length (Array.mul F work) = length F)
      by (apply length_mul; congruence).
    rewrite map_const_ones, Hwlen.
    destruct (IH params (Array.mul F work)) as (F' & Hloop & Hlen & Hnth).
    { rewrite HF1. exact Hrest. }
    rewrite HF1 in Hloop, Hlen, Hnth.
    exists F'. split; [exact Hloop|]. split; [exact Hlen|].
    intros n Hn. rewrite Hnth by exact Hn.
    rewrite nth_mul by congruence. rewrite Hwork, existsb_nonzero.
    cbn [List.filter fst snd].
    destruct (nth n mask false); cbn [map snd].
    + rewrite times_cons. reflexivity.
    + rewrite nth_ones, Qmult_one by exact Hn. reflexivity.
Qed.

Lemma constructed_mask_lengths self :
  constructed self ->
  Forall (fun kv => length (snd kv) = length (_instantaneous_mask_f self))
    (predicate_masks self).
Proof.
  intros Hc. pose proof (masks_within self Hc) as Hw.
  induction Hw as [|kv pm Hkv _ IH]; constructor; [|exact IH].
  rewrite (mask_within_length _ _ _ Hkv), (inst_f_length self Hc). reflexivity.
Qed.

Lemma calcRateMatrix_constructed self params :
  constructed self ->
  length params = length (parameter_order self) ->
  exists R,
    calcRateMatrix self params = Ok R /\
    forall i j, i < length (alphabet self) -> j < length (alphabet self) ->
      Array.entry 0%Q (length (alphabet self)) (F R) i j =
      times (Array.entry 0%Q (length (alphabet self))
               (_instantaneous_mask_f self) i j)
        (applicable self params i j).
Proof.
  intros Hc Hlen. unfold calcRateMatrix.
  rewrite (indices_nonzero self Hc), length_map.
  rewrite (order_names self Hc), length_map in Hlen.
  rewrite Hlen, Nat.eqb_refl. cbn [assert bind].
  destruct (calc_loop_spec (predicate_masks self) params
              (_instantaneous_mask_f self) (constructed_mask_lengths self Hc))
    as (F' & Hloop & HlenF & Hnth).
  rewrite Hloop. cbn [bind]. eexists. split; [reflexivity|].
  intros i j Hi Hj. cbn [F]. unfold Array.entry, applicable.
  apply Hnth. rewrite (inst_f_length self Hc). apply flat_index_lt; assumption.
Qed.

Lemma entry_to_float M inst i j :
  Array.entry 0%Q M (Array.to_float inst) i j =
  if Array.entry false M inst i j then 1%Q else 0%Q.
Proof. unfold Array.entry. apply vnth_to_float. Qed.

Lemma applicable_nil self params i j :
  names_at self i j = [] -> applicable self params i j = [].
Proof.
  unfold applicable, names_at. generalize params.
  induction (predicate_masks self) as [|kv pm IH];
    intros ps Hnone; destruct ps as [|p ps]; try reflexivity.
  cbn -[Array.entry] in Hnone |- *.
  destruct (Array.entry false _ (snd kv) i j).
  - discriminate Hnone.
  - apply IH, Hnone.
Qed.

(** C1. For a model built from predicates and a parameter vector of the
    declared length, [calcRateMatrix] returns, and entry [(i, j)] of the
    matrix it accumulates is the instantaneous value at [(i, j)] multiplied
    by the parameters of the predicates, in parameter order, whose mask is
    true at [(i, j)]; where no mask is true the entry is the instantaneous
    value, and this value is 0 or 1. *)
Theorem calcRateMatrix_entries svd a w0 self w params :
  __init__ svd a w0 = Ok (self, w) ->
  arg_rate_matrix a = None ->
  length params = length (parameter_order self) ->
  parameter_order self = map fst (predicate_masks self) /\
  exists R,
    calcRateMatrix self params = Ok R /\
    forall i j, i < length (alphabet self) -> j < length (alphabet self) ->
      let inst_ij :=
        Array.entry 0%Q (length (alphabet self))
          (_instantaneous_mask_f self) i j in
      Array.entry 0%Q (length (alphabet self)) (F R) i j
      = times inst_ij (applicable self params i j) /\
      (names_at self i j = [] ->
       Array.entry 0%Q (length (alphabet self)) (F R) i j = inst_ij) /\
      (inst_ij = 0%Q \/ inst_ij = 1%Q).
Proof.
  intros H Hrm Hlen.
  destruct (init_constructed svd a w0 self w H) as [Hc Hf].
  destruct (calcRateMatrix_constructed self params Hc Hlen) as (R & HR & Hent).
  split; [apply (order_names self Hc)|].
  exists R. split; [exact HR|]. intros i j Hi Hj inst_ij.
  split; [apply Hent; assumption|]. split.
  - intros Hnone. rewrite (Hent i j Hi Hj). fold inst_ij.
    rewrite (applicable_nil self params i j Hnone). reflexivity.
  - unfold inst_ij. rewrite (Hf Hrm), entry_to_float.
    destruct (Array.entry false _ _ i j); auto.
Qed.

Lemma calcRateMatrix_entries_witness :
  exists self w R,
    __init__ rank_svd Examples.general_args Examples.empty_world = Ok (self, w) /\
    calcRateMatrix self [2 # 1; 3 # 1]%Q = Ok R /\
    Array.entry 0%Q 4 (F R) 0 1 = (2 # 1)%Q /\
    Array.entry 0%Q 4 (F R) 0 2 = (3 # 1)%Q /\
    Array.entry 0%Q 4 (F R) 0 0 = 0%Q.
Proof.
  destruct (__init__ rank_svd Examples.general_args Examples.empty_world)
    as [[self w]|] eqn:E; [|vm_compute in E; discriminate E].
  assert (Hlen : length [2 # 1; 3 # 1]%Q = length (parameter_order self)).
  { pose proof E as E'. vm_compute in E'. injection E' as <- _. reflexivity. }
  destruct (calcRateMatrix_entries rank_svd Examples.general_args
              Examples.empty_world self w [2 # 1; 3 # 1]%Q E eq_refl Hlen)
    as (_ & R & HR & _).
  exists self, w, R. split; [reflexivity|]. split; [exact HR|].
  vm_compute in E. injection E as <- _.
  vm_compute in HR. injection HR as <-.
  repeat split; vm_compute; reflexivity.
Defined.

(** ** Rows of the rate matrix *)

Lemma fold_Qplus_shift l : forall a,
  (fold_left Qplus l a == a + fold_left Qplus l 0)%Q.
Proof.
  induction l as [|x l IH]; intros a; simpl; [ring|].
  rewrite (IH (a + x)%Q), (IH (0 + x)%Q). ring.
Qed.

Lemma sum_cons x l : (Array.sum (x :: l) == x + Array.sum l)%Q.
Proof.
  unfold Array.sum. simpl. rewrite (fold_Qplus_shift l (0 + x)%Q). ring.
Qed.

(** Replacing the entry at [i] by [c] adds [c] to the sum of the others. *)
Lemma sum_replace (f : nat -> Q) (c : Q) i n : forall s,
  (Array.sum (map (fun j => if i =? j then c else f j) (seq s n))
   == (if (s <=? i) && (i <? s + n) then c else 0)
      + Array.sum (map (fun j => if i =? j then 0 else f j) (seq s n)))%Q.
Proof.
  induction n as [|n IH]; intros s.
  - simpl. replace (i <? s + 0) with (i <? s) by (f_equal; lia).
    destruct (Nat.leb_spec s i), (Nat.ltb_spec i s); simpl; try lia;
      unfold Array.sum; simpl; ring.
  - cbn [seq map]. rewrite !sum_cons, (IH (S s)).
    destruct (Nat.eqb_spec i s) as [->|Hne].
    + destruct (Nat.leb_spec (S s) s); [lia|].
      destruct (Nat.leb_spec s s); [|lia].
      destruct (Nat.ltb_spec s (s + S n)); [|lia]. simpl. ring.
    + destruct (Nat.leb_spec (S s) i), (Nat.leb_spec s i); try lia;
        destruct (Nat.ltb_spec i (S s + n)), (Nat.ltb_spec i (s + S n));
        try lia; simpl; ring.
Qed.

Lemma skipn_tabulate_from {A} (g : nat -> list A) M n : forall s i,
  (forall k, length (g k) = M) -> i <= n ->
  skipn (i * M) (flat_map g (seq s n)) = flat_map g (seq (s + i) (n - i)).
Proof.
  induction n as [|n IH]; intros s i Hg Hi.
  - replace i with 0 by lia. reflexivity.
  - destruct i as [|i].
    + simpl. rewrite Nat.add_0_r. reflexivity.
    + cbn [seq flat_map]. rewrite skipn_app, (Hg s).
      replace (S i * M - M) with (i * M) by (simpl; lia).
      rewrite skipn_all2 by (rewrite (Hg s); simpl; lia).
      rewrite IH by (try exact Hg; lia).
      replace (s + S i) with (S s + i) by lia. reflexivity.
Qed.

Lemma row_tabulate {A} (f : nat -> nat -> A) M i :
  i < M -> Array.row M (Array.tabulate M f) i = map (f i) (seq 0 M).
Proof.
  intros Hi. unfold Array.row, Array.tabulate.
  rewrite (skipn_tabulate_from (fun i => map (f i) (seq 0 M)) M M 0 i)
    by (try lia; intros k; rewrite length_map, length_seq; reflexivity).
  destruct (M - i) as [|k] eqn:E; [lia|].
  cbn [seq flat_map]. rewrite firstn_app, length_map, length_seq.
  rewrite Nat.sub_diag, firstn_O, app_nil_r.
  rewrite firstn_all2 by (rewrite length_map, length_seq; lia).
  reflexivity.
Qed.

Lemma rate_matrix_row_sum M R i :
  i < M -> (Array.sum (Array.row M (rate_matrix_Q M R) i) == 0)%Q.
Proof.
  intros Hi. unfold rate_matrix_Q. rewrite row_tabulate by exact Hi.
  rewrite (sum_replace (fun j => Array.entry 0%Q M (F R) i j)
             (- off_diagonal_sum M (F R) i)%Q i M 0).
  destruct (Nat.leb_spec 0 i); [|lia].
  destruct (Nat.ltb_spec i (0 + M)); [|lia]. simpl.
  unfold off_diagonal_sum. ring.
Qed.

(** C2. For a constructed model and a parameter vector of the declared
    length, [calcRateMatrix] returns; in the rate matrix of what it returns,
    every diagonal entry is the negative of the sum of the other entries of
    its row, the other entries are those accumulated by [calcRateMatrix],
    and every row sums to zero, so within 1e-10 of zero. *)
Theorem calcRateMatrix_rows_sum_to_zero svd a w0 self w params :
  __init__ svd a w0 = Ok (self, w) ->
  length params = length (parameter_order self) ->
  exists R,
    calcRateMatrix self params = Ok R /\
    forall i, i < length (alphabet self) ->
      let M := length (alphabet self) in
      (Array.sum (Array.row M (rate_matrix_Q M R) i) == 0)%Q /\
      (Qabs (Array.sum (Array.row M (rate_matrix_Q M R) i))
       <= 1 # 10000000000)%Q /\
      Array.entry 0%Q M (rate_matrix_Q M R) i i
      = (- off_diagonal_sum M (F R) i)%Q /\
      forall j, j < M -> j <> i ->
        Array.entry 0%Q M (rate_matrix_Q M R) i j
        = Array.entry 0%Q M (F R) i j.
Proof.
  intros H Hlen.
  destruct (init_constructed svd a w0 self w H) as [Hc _].
  destruct (calcRateMatrix_constructed self params Hc Hlen) as (R & HR & _).
  exists R. split; [exact HR|]. intros i Hi M.
  pose proof (rate_matrix_row_sum M R i Hi) as Hsum.
  split; [exact Hsum|]. split; [rewrite Hsum; discriminate|]. split.
  - unfold rate_matrix_Q. rewrite entry_tabulate by exact Hi.
    rewrite Nat.eqb_refl. reflexivity.
  - intros j Hj Hne. unfold rate_matrix_Q. rewrite entry_tabulate by assumption.
    destruct (Nat.eqb_spec i j); [congruence|reflexivity].
Qed.

Lemma calcRateMatrix_rows_sum_to_zero_witness :
  exists self w R,
    __init__ rank_svd Examples.general_args Examples.empty_world = Ok (self, w) /\
    calcRateMatrix self [2 # 1; 3 # 1]%Q = Ok R /\
    (Array.sum (Array.row 4 (rate_matrix_Q 4 R) 0) == 0)%Q /\
    Array.entry 0%Q 4 (rate_matrix_Q 4 R) 0 0 = (- (8 # 1))%Q.
Proof.
  destruct (__init__ rank_svd Examples.general_args Examples.empty_world)
    as [[self w]|] eqn:E; [|vm_compute in E; discriminate E].
  assert (Hlen : length [2 # 1; 3 # 1]%Q = length (parameter_order self)).
  { pose proof E as E'. vm_compute in E'. injection E' as <- _. reflexivity. }
  destruct (calcRateMatrix_rows_sum_to_zero rank_svd Examples.general_args
              Examples.empty_world self w [2 # 1; 3 # 1]%Q E Hlen)
    as (R & HR & Hrows).
  exists self, w, R. split; [reflexivity|]. split; [exact HR|].
  vm_compute in E. injection E as <- _.
  split; [apply (Hrows 0); simpl; lia|].
  vm_compute in HR. injection HR as <-. vm_compute. reflexivity.
Defined.

(** * More of the code *)

(** ** The instantaneous rule is symmetric *)

Lemma combine_swap {A B} (l : list A) : forall (l' : list B),
  combine l' l = map (fun p => (snd p, fst p)) (combine l l').
Proof.
  induction l as [|a l IH]; intros [|b l']; simpl; try reflexivity.
  rewrite IH. reflexivity.
Qed.

Lemma zip_swap x y : zip y x = map (fun p => (snd p, fst p)) (zip x y).
Proof. unfold zip. apply combine_swap. Qed.

Lemma count_diffs_swap zs :
  count_diffs (map (fun p => (snd p, fst p)) zs) = count_diffs zs.
Proof.
  induction zs as [|[X Y] zs IH]; [reflexivity|].
  rewrite map_cons, !count_diffs_cons, IH. unfold differ. simpl.
  rewrite (Ascii.eqb_sym Y X). reflexivity.
Qed.

Lemma diffs_sym x y : diffs y x = diffs x y.
Proof.
  unfold diffs. fold (count_diffs (zip y x)). fold (count_diffs (zip x y)).
  rewrite zip_swap. apply count_diffs_swap.
Qed.

Lemma indel_loop_swap gs : forall zs i st,
  indel_loop gs i (map (fun p => (snd p, fst p)) zs) (other_strand st)
  = indel_loop gs i zs st.
Proof.
  induction zs as [|[X Y] zs IH]; intros i st; [reflexivity|].
  cbn [map indel_loop fst snd]. destruct (nth_error gs i) as [G|]; [|reflexivity].
  rewrite (Ascii.eqb_sym Y X).
  destruct (Ascii.eqb_spec X Y) as [->|Hne]; cbn [negb].
  - destruct st as [[s|] e str]; cbn [other_strand gap_start gap_end gap_strand is_None negb].
    + exact (IH (S i) (Gap (Some s) (Some i) str)).
    + exact (IH (S i) (Gap None e str)).
  - rewrite (andb_comm (negb (Ascii.eqb Y G))).
    destruct (negb (Ascii.eqb X G) && negb (Ascii.eqb Y G)) eqn:E; [reflexivity|].
    assert (Hidx : index2 Y X G = bind (index2 X Y G) (fun s => Ok (1 - s))
                   /\ (index2 X Y G = Ok 0 \/ index2 X Y G = Ok 1)).
    { unfold index2.
      destruct (Ascii.eqb_spec X G) as [->|HX], (Ascii.eqb_spec Y G) as [->|HY];
        simpl in *; try discriminate; try contradiction; auto. }
    destruct Hidx as [Hswap Hcases]. rewrite Hswap.
    destruct st as [start e str].
    cbn [other_strand gap_start gap_end gap_strand].
    destruct start as [s|]; cbn [is_None negb].
    + destruct e as [e|]; cbn [is_None negb]; [reflexivity|].
      destruct Hcases as [-> | ->]; cbn [bind];
        destruct str as [[|[|t]]|]; cbn [flip_strand same_strand Nat.sub Nat.eqb negb];
        try reflexivity;
        match goal with
        | |- _ = indel_loop _ _ _ ?st => exact (IH (S i) st)
        end.
    + destruct Hcases as [-> | ->]; cbn [bind Nat.sub];
        match goal with
        | |- _ = indel_loop _ _ _ ?st => exact (IH (S i) st)
        end.
Qed.

Lemma _isAnyIndel_sym gapmotif x y :
  _isAnyIndel gapmotif y x = _isAnyIndel gapmotif x y.
Proof.
  unfold _isAnyIndel. rewrite (String.eqb_sym y x).
  destruct (String.eqb x y); [reflexivity|].
  rewrite zip_swap. exact (indel_loop_swap (chars gapmotif) (zip x y) 0 no_gap).
Qed.

Lemma _isInstantaneous_swap long_indels gapmotif x y :
  _isInstantaneous long_indels gapmotif y x
  = _isInstantaneous long_indels gapmotif x y.
Proof.
  unfold _isInstantaneous. rewrite (diffs_sym x y), _isAnyIndel_sym.
  reflexivity.
Qed.

Lemma Codon_isInstantaneous_sym gapmotif x y :
  Codon_isInstantaneous gapmotif y x = Codon_isInstantaneous gapmotif x y.
Proof.
  unfold Codon_isInstantaneous.
  rewrite (orb_comm (String.eqb y gapmotif)), (String.eqb_sym y x),
    (diffs_sym x y). reflexivity.
Qed.

Lemma model_isInstantaneous_sym c gapmotif x y :
  model_isInstantaneous c gapmotif y x = model_isInstantaneous c gapmotif x y.
Proof.
  destruct c; [apply _isInstantaneous_swap|apply Codon_isInstantaneous_sym].
Qed.

(** X1. The instantaneous rules do not depend on the order of the two
    motifs: [_isInstantaneous(y, x)] returns, or raises, what
    [_isInstantaneous(x, y)] does, with or without long indels, and so does
    the rule of [Codon]. *)
Theorem isInstantaneous_sym long_indels gapmotif x y :
  _isInstantaneous long_indels gapmotif y x
  = _isInstantaneous long_indels gapmotif x y /\
  Codon_isInstantaneous gapmotif y x = Codon_isInstantaneous gapmotif x y.
Proof.
  split; [apply _isInstantaneous_swap|apply Codon_isInstantaneous_sym].
Qed.

(** ** The parts of a construction *)

(** Everything [__init__] computed on the way to a returned model. *)
Lemma init_trace svd a w0 self w :
  __init__ svd a w0 = Ok (self, w) ->
  exists mp w1 from_align msgs warnings,
    init_motif_probs a
      (if arg_recode_gaps a && arg_model_gaps a
       then warn w0 "Converting gaps to wildcards AND modeling gaps"
       else w0) = Ok (mp, w1) /\
    (if dict_truthy w1 mp then
       _ <- assert (match mp with
                    | Some l => size (deref w1 l) =? length (arg_alphabet a)
                    | None => false
                    end) "" ;;
       Ok (mp, default false (arg_motif_probs_from_data a))
     else Ok (None, default true (arg_motif_probs_from_data a)))
    = Ok (motif_probs self, from_align) /\
    init_matrix a
    = Ok (_instantaneous_mask self, _instantaneous_mask_f self, msgs) /\
    _adaptPredicates (arg_alphabet a) (_instantaneous_mask self)
      (rules_items (arg_predicates a)) = Ok (predicate_masks self) /\
    checkPredicateMasks svd (arg_do_scaling a) (_instantaneous_mask self)
      (predicate_masks self) = Ok warnings /\
    init_order (length (arg_alphabet a)) (predicate_masks self)
      (_isSymmetrical Qeq_bool 0%Q (length (arg_alphabet a))
         (_instantaneous_mask_f self)) [] []
    = Ok (symmetric self, parameter_order self, predicate_indices self) /\
    _adaptPredicates (arg_alphabet a) (_instantaneous_mask self)
      (rules_items (arg_scales a)) = Ok (scale_masks self) /\
    init_bins a (parameter_order self)
    = Ok (with_rate self, ordered_param self, partitioned_params self) /\
    init_distribution (arg_distribution a) = Ok (distrib_class self) /\
    alphabet self = arg_alphabet a /\
    w = (let w2 := warn_all (warn_all w1 msgs) warnings in
         if negb (symmetric self) then warn w2 "Model not reversible" else w2).
Proof.
  unfold __init__. intros H.
  unbind H as [mp w1] Emp. unbind H as stored Est.
  unbind H as [[inst inst_f] msgs] Emx. unbind H as preds Epreds.
  unbind H as warnings Echeck. unbind H as [[sym order] indices] Eorder.
  unbind H as scales Escales. unbind H as [[rate ordered] partitioned] Ebins.
  unbind H as dist Edist. injection H as <- <-. simpl.
  exists mp, w1, (snd stored), msgs, warnings.
  destruct stored as [stored_mp stored_from]. simpl.
  repeat split; assumption.
Qed.

(** ** Reversibility *)

Lemma _isSymmetrical_spec {A} (eqb : A -> A -> bool) d M m :
  _isSymmetrical eqb d M m = true <->
  forall i j, i < M -> j < M ->
    eqb (Array.entry d M m i j) (Array.entry d M m j i) = true.
Proof.
  unfold _isSymmetrical. rewrite forallb_forall. split.
  - intros H i j Hi Hj.
    assert (Hin : In i (seq 0 M)) by (apply in_seq; lia).
    specialize (H i Hin). rewrite forallb_forall in H.
    apply H, in_seq. lia.
  - intros H i Hi. apply forallb_forall. intros j Hj.
    apply in_seq in Hi, Hj. apply H; lia.
Qed.

Lemma init_matrix_symmetric a inst inst_f msgs :
  init_matrix a = Ok (inst, inst_f, msgs) ->
  arg_rate_matrix a = None ->
  forall i j, i < length (arg_alphabet a) -> j < length (arg_alphabet a) ->
    Array.entry false (length (arg_alphabet a)) inst i j
    = Array.entry false (length (arg_alphabet a)) inst j i.
Proof.
  unfold init_matrix. intros H Hrm. rewrite Hrm in H.
  destruct (predicate2matrix _ _ None) as [m|] eqn:E; simpl in H; [|discriminate].
  injection H as <- _ _.
  destruct (predicate2matrix_None_inv _ _ _ E) as [_ Hcells].
  intros i j Hi Hj. pose proof (Hcells i j Hi Hj) as H1.
  pose proof (Hcells j i Hj Hi) as H2.
  rewrite model_isInstantaneous_sym, H1 in H2. injection H2 as H2. exact H2.
Qed.

(** X2. In a constructed model without an empirical rate matrix, the
    instantaneous mask equals its transpose, and so does its float version:
    [_isSymmetrical(self._instantaneous_mask_f)] is true. *)
Theorem instantaneous_mask_symmetric svd a w0 self w :
  __init__ svd a w0 = Ok (self, w) ->
  arg_rate_matrix a = None ->
  (forall i j, i < length (alphabet self) -> j < length (alphabet self) ->
     Array.entry false (length (alphabet self)) (_instantaneous_mask self) i j
     = Array.entry false (length (alphabet self))
         (_instantaneous_mask self) j i) /\
  _isSymmetrical Qeq_bool 0%Q (length (alphabet self))
    (_instantaneous_mask_f self) = true.
Proof.
  intros H Hrm.
  destruct (init_trace svd a w0 self w H)
    as (mp & w1 & fa & msgs & warnings & _ & _ & Hmx & _ & _ & _ & _ & _ & _
        & Halph & _).
  destruct (init_matrix_inv a _ _ _ Hmx) as (_ & _ & _ & Hf).
  rewrite Halph.
  pose proof (init_matrix_symmetric a _ _ _ Hmx Hrm) as Hsym.
  split; [exact Hsym|].
  apply _isSymmetrical_spec. intros i j Hi Hj.
  rewrite (Hf Hrm), !entry_to_float, (Hsym i j Hi Hj).
  destruct (Array.entry false _ _ j i); reflexivity.
Qed.

Lemma instantaneous_mask_symmetric_witness :
  exists self w,
    __init__ rank_svd Examples.kappa_args Examples.empty_world = Ok (self, w) /\
    _isSymmetrical Qeq_bool 0%Q (length (alphabet self))
      (_instantaneous_mask_f self) = true.
Proof.
  destruct (__init__ rank_svd Examples.kappa_args Examples.empty_world)
    as [[self w]|] eqn:E; [|vm_compute in E; discriminate E].
  exists self, w. split; [reflexivity|].
  apply (instantaneous_mask_symmetric rank_svd Examples.kappa_args
           Examples.empty_world self w E eq_refl).
Defined.

Lemma init_order_symmetric M items : forall sym order indices sym' order' indices',
  init_order M items sym order indices = Ok (sym', order', indices') ->
  sym' = sym && forallb (fun kv => _isSymmetrical Bool.eqb false M (snd kv)) items.
Proof.
  induction items as [|[name mask] items IH]; simpl;
    intros sym order indices sym' order' indices' H.
  - injection H as <- _ _. rewrite andb_true_r. reflexivity.
  - destruct (assert _ _); simpl in H; [|discriminate].
    apply IH in H. rewrite H.
    destruct (_isSymmetrical Bool.eqb false M mask), sym; reflexivity.
Qed.

Lemma log_warn_all msgs : forall w, log (warn_all w msgs) = log w ++ msgs.
Proof.
  unfold warn_all. induction msgs as [|m msgs IH]; intros w; simpl.
  - rewrite app_nil_r. reflexivity.
  - rewrite IH. simpl. rewrite <- app_assoc. reflexivity.
Qed.

Lemma init_motif_probs_log a w mp w1 :
  init_motif_probs a w = Ok (mp, w1) -> log w1 = log w.
Proof.
  unfold init_motif_probs. destruct (arg_equal_motif_probs a).
  - destruct (assert _ _); simpl; [|discriminate].
    intros [= _ <-]. reflexivity.
  - intros [= _ <-]. reflexivity.
Qed.

Lemma init_matrix_msgs a inst inst_f msgs :
  init_matrix a = Ok (inst, inst_f, msgs) ->
  msgs = [] \/ msgs = ["Empirical model with parameters too!"].
Proof.
  unfold init_matrix. destruct (arg_rate_matrix a).
  - destruct (assert _ _); simpl; [|discriminate].
    destruct (assert _ _); simpl; [|discriminate].
    intros [= _ _ <-]. destruct (rules_truthy _); auto.
  - destruct (predicate2matrix _ _ _); simpl; [|discriminate].
    intros [= _ _ <-]. auto.
Qed.

Lemma checkPredicateMasks_msgs svd do_scaling inst preds warnings :
  checkPredicateMasks svd do_scaling inst preds = Ok warnings ->
  warnings = [] \/ warnings = [scaling_warning].
Proof.
  unfold checkPredicateMasks. destruct (first_mask always_false preds);
    [discriminate|].
  destruct do_scaling.
  - destruct (first_mask _ preds); [discriminate|].
    destruct (negb _); [discriminate|]. destruct (negb _); [discriminate|].
    intros [= <-]. auto.
  - destruct (negb _); [discriminate|].
    destruct (negb _); intros [= <-]; auto.
Qed.

(** X3. In a constructed model, [symmetric] is true exactly when the float
    instantaneous matrix and every predicate mask equal their transposes,
    and the construction logs "Model not reversible", as its last message,
    exactly when [symmetric] is false. *)
Theorem symmetric_flag svd a w0 self w :
  __init__ svd a w0 = Ok (self, w) ->
  symmetric self
  = _isSymmetrical Qeq_bool 0%Q (length (alphabet self))
      (_instantaneous_mask_f self)
    && forallb (fun kv => _isSymmetrical Bool.eqb false
                            (length (alphabet self)) (snd kv))
         (predicate_masks self) /\
  exists msgs,
    log w = log w0 ++ msgs
            ++ (if symmetric self then [] else ["Model not reversible"]) /\
    ~ In "Model not reversible" msgs.
Proof.
  intros H.
  destruct (init_trace svd a w0 self w H)
    as (mp & w1 & fa & msgs & warnings & Hmp & _ & Hmx & _ & Hcheck & Horder
        & _ & _ & _ & Halph & Hw).
  rewrite Halph. split; [apply (init_order_symmetric _ _ _ _ _ _ _ _ Horder)|].
  apply init_motif_probs_log in Hmp.
  apply init_matrix_msgs in Hmx. apply checkPredicateMasks_msgs in Hcheck.
  exists ((if arg_recode_gaps a && arg_model_gaps a
           then ["Converting gaps to wildcards AND modeling gaps"] else [])
          ++ msgs ++ warnings).
  split.
  - rewrite Hw. cbv zeta.
    assert (Hlog : log (warn_all (warn_all w1 msgs) warnings)
                   = log w0 ++ (if arg_recode_gaps a && arg_model_gaps a
                                then ["Converting gaps to wildcards AND modeling gaps"]
                                else []) ++ msgs ++ warnings).
    { rewrite !log_warn_all, Hmp.
      destruct (arg_recode_gaps a && arg_model_gaps a);
        rewrite <- ?app_assoc; simpl; rewrite <- ?app_assoc; reflexivity. }
    destruct (symmetric self); cbn [negb warn log].
    + rewrite Hlog, app_nil_r. reflexivity.
    + rewrite Hlog, <- !app_assoc. reflexivity.
  - intros Hin. apply in_app_or in Hin. destruct Hin as [Hin|Hin].
    + destruct (_ && _); simpl in Hin; [|contradiction].
      destruct Hin as [Hin|[]]. discriminate Hin.
    + apply in_app_or in Hin.
      destruct Hin as [Hin|Hin];
        [destruct Hmx as [-> | ->]|destruct Hcheck as [-> | ->]];
        simpl in Hin; try contradiction;
        destruct Hin as [Hin|[]]; discriminate Hin.
Qed.

Lemma symmetric_flag_witness :
  exists self w,
    __init__ rank_svd Examples.kappa_args Examples.empty_world = Ok (self, w) /\
    symmetric self = true /\ log w = [].
Proof.
  destruct (__init__ rank_svd Examples.kappa_args Examples.empty_world)
    as [[self w]|] eqn:E; [|vm_compute in E; discriminate E].
  exists self, w. split; [reflexivity|].
  destruct (symmetric_flag rank_svd Examples.kappa_args Examples.empty_world
              self w E) as [Hsym _].
  vm_compute in E. injection E as <- <-. split; reflexivity.
Defined.

(** ** Names of predicates *)

Lemma adaptPredicate_adapted alphabet inst key pred :
  adaptPredicate alphabet inst pred key = Ok (adapted alphabet inst (key, pred)).
Proof.
  unfold adaptPredicate, adapted, label_of. rewrite predicate2matrix_pure.
  reflexivity.
Qed.

Lemma has_key_In {V} k (d : list (string * V)) :
  has_key k d = true <-> In k (map fst d).
Proof.
  unfold has_key. rewrite existsb_exists, in_map_iff. split.
  - intros (kv & Hin & Hk). apply String.eqb_eq in Hk. exists kv. auto.
  - intros (kv & Hk & Hin). exists kv. split; [exact Hin|].
    apply String.eqb_eq. auto.
Qed.

Lemma NoDup_snoc {A} (l : list A) x :
  List.NoDup l -> ~ In x l -> List.NoDup (l ++ [x]).
Proof.
  induction l as [|a l IH]; intros Hl Hx; simpl.
  - constructor; [intros []|constructor].
  - inversion Hl as [|? ? Ha Hl']; subst. constructor.
    + intros Hin. apply in_app_or in Hin. destruct Hin as [Hin|[<-|[]]].
      * exact (Ha Hin).
      * apply Hx. left. reflexivity.
    + apply IH; [exact Hl'|]. intros Hin. apply Hx. right. exact Hin.
Qed.

Lemma adapt_loop_spec alphabet inst : forall rules acc,
  match adapt_loop alphabet inst rules acc with
  | Ok pm =>
      pm = acc ++ map (adapted alphabet inst) rules /\
      (List.NoDup (map fst acc) -> List.NoDup (map fst pm))
  | Raise e =>
      exists name,
        e = KeyError ("Duplicate predicate name " ++ name) /\
        In name (map (fun kp => label_of (fst kp) (snd kp)) rules) /\
        ~ List.NoDup (map fst acc
                      ++ map (fun kp => label_of (fst kp) (snd kp)) rules)
  end.
Proof.
  intros rs. induction rs as [|[key pred] rules IH]; intros acc;
    cbn [adapt_loop].
  - rewrite app_nil_r. auto.
  - rewrite adaptPredicate_adapted. cbn [bind].
    set (l := label_of key pred).
    change (fst (adapted alphabet inst (key, pred))) with l.
    destruct (has_key l acc) eqn:Hk.
    + exists l. split; [reflexivity|]. split; [left; reflexivity|].
      apply has_key_In in Hk. intros Hnd. cbn [map fst snd] in Hnd.
      fold l in Hnd. apply List.NoDup_remove_2 in Hnd. apply Hnd.
      apply in_or_app. left. exact Hk.
    + specialize (IH (acc ++ [adapted alphabet inst (key, pred)])).
      destruct (adapt_loop _ _ rules _) as [pm|e].
      * destruct IH as [-> Hnd]. rewrite <- app_assoc. split; [reflexivity|].
        intros Hacc. rewrite app_assoc. apply Hnd.
        rewrite map_app. cbn [map fst adapted]. fold l.
        apply NoDup_snoc; [exact Hacc|].
        intros Hin. apply has_key_In in Hin. unfold l in *.
        cbn [fst snd] in Hin. rewrite Hin in Hk. discriminate Hk.
      * destruct IH as (name & -> & Hin & Hnd).
        exists name. split; [reflexivity|]. split; [right; exact Hin|].
        intros H. apply Hnd. rewrite map_app, <- app_assoc. exact H.
Qed.

Lemma _adaptPredicates_spec alphabet inst r :
  match _adaptPredicates alphabet inst r with
  | Ok pm =>
      List.NoDup (rule_labels r) /\
      pm = map (adapted alphabet inst) (rule_list r)
  | Raise e =>
      ~ List.NoDup (rule_labels r) /\
      exists name,
        In name (rule_labels r) /\
        e = KeyError ("Duplicate predicate name " ++ name)
  end.
Proof.
  unfold _adaptPredicates. fold (rule_list r).
  pose proof (adapt_loop_spec alphabet inst (rule_list r) []) as H.
  destruct (adapt_loop alphabet inst (rule_list r) []) as [pm|e].
  - destruct H as [-> Hnd]. split; [|reflexivity].
    specialize (Hnd (List.NoDup_nil _)). cbn [app] in Hnd.
    rewrite map_map in Hnd. exact Hnd.
  - destruct H as (name & -> & Hin & Hnd). split; [exact Hnd|].
    exists name. auto.
Qed.


(** X5. A construction whose predicates, or whose scale rules, have two equal
    labels returns no model. *)
Theorem duplicate_labels_raise svd a w :
  ~ List.NoDup (rule_labels (rules_items (arg_predicates a))) \/
  ~ List.NoDup (rule_labels (rules_items (arg_scales a))) ->
  raises (__init__ svd a w).
Proof.
  intros Hdup. unfold __init__.
  step as [mp w1]. step as stored. step as [[inst inst_f] msgs].
  pose proof (_adaptPredicates_spec (arg_alphabet a) inst
                (rules_items (arg_predicates a))) as Hp.
  destruct (_adaptPredicates (arg_alphabet a) inst
              (rules_items (arg_predicates a))) as [preds|]; [|exact I].
  cbn [bind]. step as warnings. step as [[sym order] indices].
  pose proof (_adaptPredicates_spec (arg_alphabet a) inst
                (rules_items (arg_scales a))) as Hs.
  destruct (_adaptPredicates (arg_alphabet a) inst
              (rules_items (arg_scales a))) as [scales|]; [|exact I].
  exfalso. destruct Hdup as [H|H]; [apply H, Hp|apply H, Hs].
Qed.

Lemma duplicate_labels_raise_witness :
  raises (__init__ rank_svd MoreExamples.repeated_args Examples.empty_world).
Proof.
  apply (duplicate_labels_raise rank_svd MoreExamples.repeated_args
           Examples.empty_world).
  left. intros H. cbn in H. apply List.NoDup_cons_iff in H.
  apply (proj1 H). left. reflexivity.
Defined.

(** ** More on the validation *)

Lemma always_false_tabulate M f :
  (forall i j, i < M -> j < M -> f i j = false) ->
  always_false (Array.tabulate M f) = true.
Proof.
  intros H. unfold always_false, Array.tabulate. apply forallb_forall.
  intros b Hb. apply in_flat_map in Hb. destruct Hb as (i & Hi & Hb).
  apply in_map_iff in Hb. destruct Hb as (j & <- & Hj).
  apply in_seq in Hi, Hj. rewrite H by lia. reflexivity.
Qed.

Lemma first_mask_exists test preds name m :
  In (name, m) preds -> test m = true ->
  exists name', first_mask test preds = Some name'.
Proof.
  intros Hin Hm. destruct (first_mask test preds) as [n|] eqn:E; [eauto|].
  rewrite (proj1 (first_mask_None test preds) E name m Hin) in Hm.
  discriminate.
Qed.

Lemma check_raises_always_false svd do_scaling inst preds name m :
  In (name, m) preds -> always_false m = true ->
  exists name',
    checkPredicateMasks svd do_scaling inst preds
    = Raise (ValueError ("Predicate " ++ name' ++ " is always false.")).
Proof.
  intros Hin Hm.
  destruct (first_mask_exists always_false preds name m Hin Hm) as [n Hn].
  exists n. unfold checkPredicateMasks. rewrite Hn. reflexivity.
Qed.

(** X6. A predicate that holds of no pair of motifs of the instantaneous
    mask makes the construction fail: with its mask computed,
    [checkPredicateMasks] raises "Predicate ... is always false." whatever
    the scaling and before any singular value is computed, and [__init__]
    returns no model. *)
Theorem never_true_predicate_raises svd a w inst inst_f msgs key pred :
  init_matrix a = Ok (inst, inst_f, msgs) ->
  In (key, pred) (rule_list (rules_items (arg_predicates a))) ->
  (forall i j, i < length (arg_alphabet a) -> j < length (arg_alphabet a) ->
     Array.entry false (length (arg_alphabet a)) inst i j = true ->
     makeModelPredicate pred (nth i (arg_alphabet a) "")
       (nth j (arg_alphabet a) "") = false) ->
  raises (__init__ svd a w) /\
  forall preds,
    _adaptPredicates (arg_alphabet a) inst (rules_items (arg_predicates a))
    = Ok preds ->
    exists name,
      checkPredicateMasks svd (arg_do_scaling a) inst preds
      = Raise (ValueError ("Predicate " ++ name ++ " is always false.")).
Proof.
  intros Hmx Hin Hfalse.
  assert (Hcheck : forall preds,
    _adaptPredicates (arg_alphabet a) inst (rules_items (arg_predicates a))
    = Ok preds ->
    exists name,
      checkPredicateMasks svd (arg_do_scaling a) inst preds
      = Raise (ValueError ("Predicate " ++ name ++ " is always false."))).
  { intros preds Hpreds.
    pose proof (_adaptPredicates_spec (arg_alphabet a) inst
                  (rules_items (arg_predicates a))) as Hspec.
    rewrite Hpreds in Hspec. destruct Hspec as [_ ->].
    apply (check_raises_always_false svd _ inst _
             (label_of key pred)
             (snd (adapted (arg_alphabet a) inst (key, pred)))).
    - apply in_map_iff. exists (key, pred). split; [reflexivity|exact Hin].
    - apply always_false_tabulate. intros i j Hi Hj. unfold masked.
      destruct (Array.entry false _ inst i j) eqn:E; [|reflexivity].
      apply Hfalse; assumption. }
  split; [|exact Hcheck].
  destruct (_adaptPredicates (arg_alphabet a) inst
              (rules_items (arg_predicates a))) as [preds|e] eqn:Hpreds.
  - destruct (Hcheck preds eq_refl) as [name Hname].
    apply (init_raises_check svd a w inst inst_f msgs preds Hmx Hpreds).
    rewrite Hname. exact I.
  - unfold __init__. step as [mp w1]. step as stored. rewrite Hmx. cbn [bind].
    rewrite Hpreds. exact I.
Qed.

Lemma never_true_predicate_raises_witness :
  raises (__init__ rank_svd
            (Examples.Nucleotide [("never", Examples.no_pair)] true false
               NoNames NoNames)
            Examples.empty_world).
Proof.
  refine (proj1 (never_true_predicate_raises rank_svd
            (Examples.Nucleotide [("never", Examples.no_pair)] true false
               NoNames NoNames)
            Examples.empty_world Examples.DNA_inst
            (Array.to_float Examples.DNA_inst) []
            (Some "never") Examples.no_pair _ _ _)).
  - vm_compute. reflexivity.
  - left. reflexivity.
  - intros. reflexivity.
Defined.

Lemma lincomb_nil_r cs n : lincomb cs [] n = 0%Q.
Proof. unfold lincomb. rewrite combine_nil. reflexivity. Qed.

Lemma shares_out_dependent preds inst :
  shares_out preds inst ->
  linearly_dependent (mask_rows (preds ++ [("None", inst)])).
Proof.
  intros H. exists (repeat 1%Q (length preds) ++ [(- (1))%Q]).
  split; [|split].
  - unfold mask_rows. rewrite !length_map, !length_app, repeat_length.
    reflexivity.
  - apply Exists_app. right. apply Exists_cons_hd. discriminate.
  - intros n. unfold mask_rows. rewrite !map_app. cbn [map snd].
    rewrite lincomb_app by (rewrite repeat_length, !length_map; reflexivity).
    fold (mask_rows preds). rewrite (H n), lincomb_cons, lincomb_nil_r. ring.
Qed.

(** X7. When the predicate masks share out the instantaneous mask (every
    instantaneous position is in one mask), as the transitions and the
    transversions of a nucleotide model do, and [numpy.linalg.svd] reports
    the linear dependence of rows: with scaling enabled
    [checkPredicateMasks] raises, and with scaling disabled, if it returns,
    it has logged that [do_scaling=True] would be more efficient. *)
Theorem shared_out_mask_is_redundant svd inst preds :
  svd_detects svd ->
  shares_out preds inst ->
  raises (checkPredicateMasks svd true inst preds) /\
  forall msgs, checkPredicateMasks svd false inst preds = Ok msgs ->
               msgs = [scaling_warning].
Proof.
  intros Hsvd Hshare.
  pose proof (redundancy_dependent svd _ Hsvd (shares_out_dependent _ _ Hshare))
    as Hpos.
  assert (Hne : (redundancyInPredicateMasks svd (preds ++ [("None", inst)])
                 =? 0)%Z = false) by (apply Z.eqb_neq; lia).
  unfold checkPredicateMasks. destruct (first_mask always_false preds).
  - split; [exact I|discriminate].
  - split.
    + destruct (first_mask _ preds); [exact I|].
      destruct (negb _); [exact I|]. rewrite Hne. exact I.
    + destruct (negb _); [discriminate|]. rewrite Hne. cbn [negb].
      intros msgs [= <-]. reflexivity.
Qed.

Lemma shared_out_mask_is_redundant_witness :
  raises (checkPredicateMasks rank_svd true Examples.DNA_inst
            [("kappa", Examples.transition_mask);
             ("omega", Examples.transversion_mask)]).
Proof.
  refine (proj1 (shared_out_mask_is_redundant rank_svd Examples.DNA_inst
            [("kappa", Examples.transition_mask);
             ("omega", Examples.transversion_mask)] rank_svd_detects _)).
  intros n. unfold lincomb, mask_rows. cbn [length repeat map snd combine fold_right fst].
  rewrite !vnth_to_float.
  do 16 (destruct n as [|n]; [vm_compute; reflexivity|]).
  unfold Examples.transition_mask, Examples.transversion_mask, Examples.DNA_inst.
  cbn [nth]. destruct n; vm_compute; reflexivity.
Defined.

(** ** More on [calcRateMatrix] *)




(** X9. For a constructed model and as many values as it has parameters,
    [calcRateMatrix] leaves every entry outside the instantaneous mask, the
    diagonal among them, at its instantaneous value: zero, for a model
    without an empirical rate matrix. *)
Theorem calcRateMatrix_outside_mask svd a w0 self w params :
  __init__ svd a w0 = Ok (self, w) ->
  length params = length (parameter_order self) ->
  exists R,
    calcRateMatrix self params = Ok R /\
    (forall i j, i < length (alphabet self) -> j < length (alphabet self) ->
       Array.entry false (length (alphabet self))
         (_instantaneous_mask self) i j = false ->
       Array.entry 0%Q (length (alphabet self)) (F R) i j
       = Array.entry 0%Q (length (alphabet self))
           (_instantaneous_mask_f self) i j /\
       (arg_rate_matrix a = None ->
        Array.entry 0%Q (length (alphabet self)) (F R) i j = 0%Q)) /\
    (forall i, i < length (alphabet self) ->
       Array.entry 0%Q (length (alphabet self)) (F R) i i
       = Array.entry 0%Q (length (alphabet self))
           (_instantaneous_mask_f self) i i).
Proof.
  intros H Hlen. destruct (init_constructed svd a w0 self w H) as [Hc Hf].
  destruct (calcRateMatrix_constructed self params Hc Hlen) as (R & HR & Hent).
  assert (Hout : forall i j,
    i < length (alphabet self) -> j < length (alphabet self) ->
    Array.entry false (length (alphabet self))
      (_instantaneous_mask self) i j = false ->
    Array.entry 0%Q (length (alphabet self)) (F R) i j
    = Array.entry 0%Q (length (alphabet self))
        (_instantaneous_mask_f self) i j).
  { intros i j Hi Hj Hinst. rewrite (Hent i j Hi Hj).
    rewrite (applicable_nil self params i j
               (names_at_outside self i j Hc Hi Hj Hinst)).
    reflexivity. }
  exists R. split; [exact HR|]. split.
  - intros i j Hi Hj Hinst. split; [apply Hout; assumption|].
    intros Hrm. rewrite (Hout i j Hi Hj Hinst), (Hf Hrm), entry_to_float, Hinst.
    reflexivity.
  - intros i Hi. apply Hout; try assumption. apply (inst_diagonal self Hc i Hi).
Qed.

Lemma calcRateMatrix_outside_mask_witness :
  exists self w R,
    __init__ rank_svd Examples.general_args Examples.empty_world = Ok (self, w)
    /\ calcRateMatrix self [2 # 1; 3 # 1]%Q = Ok R
    /\ forall i, i < length (alphabet self) ->
         Array.entry 0%Q (length (alphabet self)) (F R) i i
         = Array.entry 0%Q (length (alphabet self))
             (_instantaneous_mask_f self) i i.
Proof.
  destruct (__init__ rank_svd Examples.general_args Examples.empty_world)
    as [[self w]|] eqn:E; [|vm_compute in E; discriminate E].
  assert (Hlen : length [2 # 1; 3 # 1]%Q = length (parameter_order self)).
  { pose proof E as E'. vm_compute in E'. injection E' as <- _. reflexivity. }
  destruct (calcRateMatrix_outside_mask rank_svd Examples.general_args
              Examples.empty_world self w [2 # 1; 3 # 1]%Q E Hlen)
    as (R & HR & _ & Hdiag).
  exists self, w, R. split; [reflexivity|]. split; [exact HR|exact Hdiag].
Defined.

Lemma times_ones x l : Forall (fun v => v = 1%Q) l -> times x l = x.
Proof.
  intros H. revert x. induction H as [|v l Hv _ IH]; intros x; [reflexivity|].
  subst v. rewrite times_cons, Qmult_one. apply IH.
Qed.

Lemma applicable_ones self params i j :
  Forall (fun v => v = 1%Q) params ->
  Forall (fun v => v = 1%Q) (applicable self params i j).
Proof.
  intros H. unfold applicable. apply Forall_forall. intros v Hv.
  apply list_elem_of_In, in_map_iff in Hv. destruct Hv as ([kv p] & <- & Hin).
  apply filter_In in Hin. destruct Hin as [Hin _].
  apply in_combine_r in Hin. rewrite Forall_forall in H.
  apply H, list_elem_of_In, Hin.
Qed.

(** X10. For a constructed model, [calcRateMatrix] with every parameter equal
    to 1.0 returns the float instantaneous matrix, entry for entry. *)
Theorem calcRateMatrix_ones svd a w0 self w params :
  __init__ svd a w0 = Ok (self, w) ->
  length params = length (parameter_order self) ->
  Forall (fun v => v = 1%Q) params ->
  exists R,
    calcRateMatrix self params = Ok R /\
    forall i j, i < length (alphabet self) -> j < length (alphabet self) ->
      Array.entry 0%Q (length (alphabet self)) (F R) i j
      = Array.entry 0%Q (length (alphabet self))
          (_instantaneous_mask_f self) i j.
Proof.
  intros H Hlen Hones. destruct (init_constructed svd a w0 self w H) as [Hc _].
  destruct (calcRateMatrix_constructed self params Hc Hlen) as (R & HR & Hent).
  exists R. split; [exact HR|]. intros i j Hi Hj.
  rewrite (Hent i j Hi Hj). apply times_ones, applicable_ones, Hones.
Qed.

Lemma calcRateMatrix_ones_witness :
  exists self w R,
    __init__ rank_svd Examples.general_args Examples.empty_world = Ok (self, w)
    /\ calcRateMatrix self [1; 1]%Q = Ok R
    /\ forall i j, i < length (alphabet self) -> j < length (alphabet self) ->
         Array.entry 0%Q (length (alphabet self)) (F R) i j
         = Array.entry 0%Q (length (alphabet self))
             (_instantaneous_mask_f self) i j.
Proof.
  destruct (__init__ rank_svd Examples.general_args Examples.empty_world)
    as [[self w]|] eqn:E; [|vm_compute in E; discriminate E].
  assert (Hlen : length [1; 1]%Q = length (parameter_order self)).
  { pose proof E as E'. vm_compute in E'. injection E' as <- _. reflexivity. }
  destruct (calcRateMatrix_ones rank_svd Examples.general_args
              Examples.empty_world self w [1; 1]%Q E Hlen)
    as (R & HR & Hent).
  { repeat constructor. }
  exists self, w, R. split; [reflexivity|]. split; [exact HR|exact Hent].
Defined.

(** ** Motif probabilities at construction *)

Lemma fold_insert_lookup (p : Q) (l : list string) : forall (d : gmap string Q) k,
  fold_left (fun d motif => <[motif := p]> d) l d !! k
  = if existsb (String.eqb k) l then Some p else d !! k.
Proof.
  induction l as [|m l IH]; intros d k; simpl; [reflexivity|].
  rewrite IH. destruct (String.eqb_spec k m) as [->|Hne]; simpl.
  - rewrite lookup_insert_eq. destruct (existsb _ l); reflexivity.
  - rewrite lookup_insert_ne by congruence. reflexivity.
Qed.

Lemma dict_truthy_Some w o :
  dict_truthy w o = true -> exists l, o = Some l /\ deref w l <> ∅.
Proof.
  destruct o as [l|]; [|discriminate]. simpl. intros H. exists l.
  split; [reflexivity|]. intros E. rewrite E, map_size_empty in H.
  discriminate.
Qed.

Lemma deref_warn_all w msgs l : deref (warn_all w msgs) l = deref w l.
Proof. unfold deref. rewrite heap_warn_all. reflexivity. Qed.

Lemma deref_final (w : world) (b : bool) msg l :
  deref (if b then warn w msg else w) l = deref w l.
Proof. destruct b; reflexivity. Qed.

(** X11. A model constructed with [equal_motif_probs=True] over a non-empty
    alphabet holds a dict object that did not exist before, in which every
    motif of the alphabet has probability [1.0 / len(alphabet)] and no other
    key is present. *)
Theorem equal_motif_probs_dict svd a w0 self w :
  __init__ svd a w0 = Ok (self, w) ->
  arg_equal_motif_probs a = true ->
  arg_alphabet a <> [] ->
  exists l,
    motif_probs self = Some l /\
    heap w0 !! l = None /\
    size (deref w l) = length (alphabet self) /\
    forall motif,
      deref w l !! motif
      = if existsb (String.eqb motif) (alphabet self)
        then Some (1 / inject_Z (Z.of_nat (length (alphabet self))))%Q
        else None.
Proof.
  intros H Heq Hne.
  destruct (init_trace svd a w0 self w H)
    as (mp & w1 & fa & msgs & warnings & Hmp & Hst & _ & _ & _ & _ & _ & _ & _
        & Halph & Hw).
  rewrite Halph. unfold init_motif_probs in Hmp. rewrite Heq in Hmp.
  destruct (assert _ _); simpl in Hmp; [|discriminate].
  set (w0' := if arg_recode_gaps a && arg_model_gaps a
              then warn w0 "Converting gaps to wildcards AND modeling gaps"
              else w0) in *.
  set (p := (1 / inject_Z (Z.of_nat (length (arg_alphabet a))))%Q) in *.
  set (d := fold_left (fun d motif => <[motif := p]> d) (arg_alphabet a) ∅) in *.
  assert (Hheap : heap w0' = heap w0) by (unfold w0'; destruct (_ && _); reflexivity).
  assert (Hmp' : mp = Some (fst (alloc w0' d)) /\ w1 = snd (alloc w0' d)).
  { unfold alloc in *. cbn [fst snd] in *. injection Hmp as <- <-. auto. }
  clear Hmp. destruct Hmp' as [-> ->].
  assert (Hd : deref (snd (alloc w0' d)) (fst (alloc w0' d)) = d)
    by apply alloc_self.
  assert (Hfresh : heap w0 !! fst (alloc w0' d) = None)
    by (rewrite <- Hheap; apply alloc_fresh).
  assert (Hlook : forall k, d !! k
            = if existsb (String.eqb k) (arg_alphabet a) then Some p else None).
  { intros k. unfold d. rewrite fold_insert_lookup, lookup_empty. reflexivity. }
  assert (Htruthy : dict_truthy (snd (alloc w0' d)) (Some (fst (alloc w0' d)))
                    = true).
  { cbn [dict_truthy]. rewrite Hd. destruct (arg_alphabet a) as [|m rest] eqn:Ea;
      [contradiction|].
    apply negb_true_iff, Nat.eqb_neq. intros Hsize.
    apply map_size_empty_iff in Hsize.
    pose proof (Hlook m) as Hm. rewrite Hsize, lookup_empty in Hm.
    simpl in Hm. rewrite String.eqb_refl in Hm. discriminate. }
  rewrite Htruthy in Hst.
  destruct (Nat.eqb_spec (size (deref (snd (alloc w0' d)) (fst (alloc w0' d))))
              (length (arg_alphabet a))) as [Hsize|]; simpl in Hst;
    [|discriminate].
  injection Hst as <- _.
  exists (fst (alloc w0' d)). split; [reflexivity|]. split; [exact Hfresh|].
  assert (Hfinal : deref w (fst (alloc w0' d)) = d).
  { rewrite Hw. cbv zeta. rewrite deref_final, !deref_warn_all. exact Hd. }
  rewrite Hfinal. rewrite Hd in Hsize. split; [exact Hsize|exact Hlook].
Qed.

Lemma equal_motif_probs_dict_witness :
  exists self w l,
    __init__ rank_svd Examples.kappa_args Examples.empty_world = Ok (self, w)
    /\ motif_probs self = Some l
    /\ deref w l !! "a" = Some (1 # 4)%Q.
Proof.
  destruct (__init__ rank_svd Examples.kappa_args Examples.empty_world)
    as [[self w]|] eqn:E; [|vm_compute in E; discriminate E].
  destruct (equal_motif_probs_dict rank_svd Examples.kappa_args
              Examples.empty_world self w E eq_refl)
    as (l & Hl & _ & _ & Hlook); [discriminate|].
  exists self, w, l. split; [reflexivity|]. split; [exact Hl|].
  rewrite (Hlook "a").
  vm_compute in E. injection E as <- _. reflexivity.
Defined.

Lemma dict_truthy_heap w w' o :
  heap w = heap w' -> dict_truthy w o = dict_truthy w' o.
Proof.
  intros H. destruct o as [l|]; [|reflexivity]. unfold dict_truthy, deref.
  rewrite H. reflexivity.
Qed.

Lemma heap_gaps_warning (b : bool) w msg :
  heap (if b then warn w msg else w) = heap w.
Proof. destruct b; reflexivity. Qed.

Lemma deref_setitem w l k v :
  deref (setitem w l k v) l = <[k := v]> (deref w l).
Proof. unfold deref, setitem. simpl. rewrite lookup_insert_eq. reflexivity. Qed.

(** X12. A model constructed from a [motif_probs] dict (and not
    [equal_motif_probs]) keeps the caller's dict object itself, when the dict
    is not empty, and no dict when it is empty; the store of dicts is left
    as it was. So a key that the caller sets in that dict after the
    construction shows in what [getMotifProbs] returns. *)
Theorem provided_motif_probs_shared svd a w0 self w :
  __init__ svd a w0 = Ok (self, w) ->
  arg_equal_motif_probs a = false ->
  motif_probs self
  = (if dict_truthy w0 (arg_motif_probs a) then arg_motif_probs a else None) /\
  heap w = heap w0 /\
  forall l, motif_probs self = Some l ->
    size (deref w0 l) = length (alphabet self) /\
    forall k v, exists c w2,
      getMotifProbs self (setitem w l k v) = Ok (c, w2) /\
      deref w2 c = <[k := v]> (deref w0 l).
Proof.
  intros H Heq.
  destruct (init_trace svd a w0 self w H)
    as (mp & w1 & fa & msgs & warnings & Hmp & Hst & _ & _ & _ & _ & _ & _ & _
        & Halph & Hw).
  unfold init_motif_probs in Hmp. rewrite Heq in Hmp. injection Hmp as <- <-.
  rewrite (dict_truthy_heap _ w0 _ (heap_gaps_warning _ w0 _)) in Hst.
  assert (Hheap : heap w = heap w0).
  { rewrite Hw. cbv zeta. rewrite heap_gaps_warning, !heap_warn_all.
    apply heap_gaps_warning. }
  assert (Hmotif : motif_probs self
            = (if dict_truthy w0 (arg_motif_probs a)
               then arg_motif_probs a else None) /\
            (forall l, motif_probs self = Some l ->
               size (deref w0 l) = length (arg_alphabet a))).
  { destruct (dict_truthy w0 (arg_motif_probs a)).
    - destruct (arg_motif_probs a) as [l|]; simpl in Hst; [|discriminate].
      unfold deref in Hst at 1. rewrite heap_gaps_warning in Hst.
      fold (deref w0 l) in Hst.
      destruct (Nat.eqb_spec (size (deref w0 l)) (length (arg_alphabet a)))
        as [Hsize|]; simpl in Hst; [|discriminate].
      injection Hst as <- _. split; [reflexivity|].
      intros l' [= <-]. exact Hsize.
    - injection Hst as <- _. split; [reflexivity|discriminate]. }
  destruct Hmotif as [Hm Hsize]. split; [exact Hm|]. split; [exact Hheap|].
  intros l Hl. rewrite Halph. split; [apply Hsize, Hl|].
  intros k v. unfold getMotifProbs. rewrite Hl.
  pose proof (alloc_self (setitem w l k v) (deref (setitem w l k v) l)) as Hc.
  destruct (alloc (setitem w l k v) (deref (setitem w l k v) l)) as [c w2].
  exists c, w2. split; [reflexivity|]. simpl in Hc.
  rewrite Hc, deref_setitem. unfold deref. rewrite Hheap. reflexivity.
Qed.

(** X13. Motif probabilities that cannot be used end the construction at
    once: a non-empty [motif_probs] dict together with
    [equal_motif_probs=True] fails the assertion "Motif probs equal or
    provided but not both", and a non-empty [motif_probs] dict with another
    number of keys than the alphabet has motifs fails the assertion on its
    length. *)
Theorem unusable_motif_probs svd a w0 :
  dict_truthy w0 (arg_motif_probs a) = true ->
  (arg_equal_motif_probs a = true ->
   __init__ svd a w0
   = Raise (AssertionError "Motif probs equal or provided but not both")) /\
  (arg_equal_motif_probs a = false ->
   (forall l, arg_motif_probs a = Some l ->
              size (deref w0 l) <> length (arg_alphabet a)) ->
   __init__ svd a w0 = Raise (AssertionError "")).
Proof.
  intros Ht.
  assert (Ht' : dict_truthy
                  (if arg_recode_gaps a && arg_model_gaps a
                   then warn w0 "Converting gaps to wildcards AND modeling gaps"
                   else w0) (arg_motif_probs a) = true)
    by (rewrite (dict_truthy_heap _ w0 _ (heap_gaps_warning _ w0 _)); exact Ht).
  split.
  - intros Heq. unfold __init__, init_motif_probs. rewrite Heq, Ht'.
    reflexivity.
  - intros Heq Hsize. unfold __init__, init_motif_probs. rewrite Heq.
    cbn [bind]. rewrite Ht'.
    destruct (arg_motif_probs a) as [l|]; [|discriminate].
    unfold deref at 1. rewrite heap_gaps_warning. fold (deref w0 l).
    specialize (Hsize l eq_refl). apply Nat.eqb_neq in Hsize. rewrite Hsize.
    reflexivity.
Qed.

Lemma provided_motif_probs_shared_witness :
  exists self w,
    __init__ rank_svd MoreExamples.probs_args MoreExamples.probs_world
    = Ok (self, w) /\
    motif_probs self = Some 1%positive /\
    exists c w2,
      getMotifProbs self (setitem w 1%positive "a" (1 # 2)%Q) = Ok (c, w2) /\
      deref w2 c
      = <["a" := (1 # 2)%Q]> (deref MoreExamples.probs_world 1%positive).
Proof.
  destruct (__init__ rank_svd MoreExamples.probs_args MoreExamples.probs_world)
    as [[self w]|] eqn:E; [|vm_compute in E; discriminate E].
  destruct (provided_motif_probs_shared rank_svd MoreExamples.probs_args
              MoreExamples.probs_world self w E eq_refl) as (Hm & _ & Hl).
  exists self, w. split; [reflexivity|].
  assert (Hself : motif_probs self = Some 1%positive).
  { vm_compute in E. injection E as <- _. reflexivity. }
  split; [exact Hself|]. apply (proj2 (Hl 1%positive Hself)).
Defined.

Lemma unusable_motif_probs_witness :
  __init__ rank_svd MoreExamples.short_probs_args MoreExamples.one_dict_world
  = Raise (AssertionError "").
Proof.
  apply (proj2 (unusable_motif_probs rank_svd MoreExamples.short_probs_args
                  MoreExamples.one_dict_world eq_refl) eq_refl).
  intros l [= <-]. vm_compute. discriminate.
Defined.

(** ** Empirical rate matrices *)

Lemma forallb_diagonal_false M (rm : list Q) i :
  i < M -> ~ (Array.entry 0%Q M rm i i == 0)%Q ->
  forallb (fun q => Qeq_bool q 0) (diagonal 0%Q M rm) = false.
Proof.
  intros Hi Hnz. destruct (forallb _ _) eqn:E; [|reflexivity].
  exfalso. apply Hnz. apply Qeq_bool_iff.
  apply (forallb_diagonal M rm i E Hi).
Qed.

(** X14. An empirical rate matrix that has not as many entries as the square
    of the number of motifs, or that has an entry on its diagonal that is
    not zero, fails an assertion of [__init__]: no model is returned. *)
Theorem empirical_matrix_checked svd a w rm :
  arg_rate_matrix a = Some rm ->
  length rm <> length (arg_alphabet a) * length (arg_alphabet a) \/
  (exists i, i < length (arg_alphabet a) /\
             ~ (Array.entry 0%Q (length (arg_alphabet a)) rm i i == 0)%Q) ->
  init_matrix a = Raise (AssertionError "") /\
  raises (__init__ svd a w).
Proof.
  intros Hrm Hbad.
  assert (Hmx : init_matrix a = Raise (AssertionError "")).
  { unfold init_matrix. rewrite Hrm.
    destruct (Nat.eqb_spec (length rm)
                (length (arg_alphabet a) * length (arg_alphabet a)))
      as [Hlen|Hlen]; [|reflexivity]. cbn [assert bind].
    destruct Hbad as [Hbad|(i & Hi & Hnz)]; [contradiction|].
    rewrite (forallb_diagonal_false _ rm i Hi Hnz). reflexivity. }
  split; [exact Hmx|]. unfold __init__.
  step as [mp w1]. step as stored. rewrite Hmx. exact I.
Qed.

Lemma empirical_matrix_checked_witness :
  raises (__init__ rank_svd
            (MoreExamples.model None None None
               (Some (repeat 1%Q 16)) true NoDistribution)
            Examples.empty_world).
Proof.
  refine (proj2 (empirical_matrix_checked rank_svd
            (MoreExamples.model None None None
               (Some (repeat 1%Q 16)) true NoDistribution)
            Examples.empty_world (repeat 1%Q 16) eq_refl _)).
  right. exists 0. split; [simpl; lia|]. vm_compute. discriminate.
Defined.

Lemma map_Qmult_one (l : list Q) : map (fun q => Qmult q 1) l = l.
Proof.
  induction l as [|q l IH]; simpl; [reflexivity|].
  rewrite Qmult_one, IH. reflexivity.
Qed.

(** X15. A model constructed from an empirical rate matrix has this matrix
    as its float instantaneous matrix, and its instantaneous mask is true
    exactly where the matrix is not zero; the construction logs "Empirical
    model with parameters too!" when predicates are given as well. *)
Theorem empirical_matrix_stored svd a w0 self w rm :
  __init__ svd a w0 = Ok (self, w) ->
  arg_rate_matrix a = Some rm ->
  _instantaneous_mask_f self = rm /\
  _instantaneous_mask self = map (fun q => negb (Qeq_bool q 0)) rm /\
  (rules_truthy (arg_predicates a) = true ->
   In "Empirical model with parameters too!" (log w)).
Proof.
  intros H Hrm.
  destruct (init_trace svd a w0 self w H)
    as (mp & w1 & fa & msgs & warnings & _ & _ & Hmx & _ & _ & _ & _ & _ & _
        & _ & Hw).
  unfold init_matrix in Hmx. rewrite Hrm in Hmx.
  destruct (assert _ _); simpl in Hmx; [|discriminate].
  destruct (assert _ _); simpl in Hmx; [|discriminate].
  rewrite map_Qmult_one in Hmx. injection Hmx as <- <- <-.
  split; [reflexivity|]. split; [reflexivity|].
  intros Hp. rewrite Hp in Hw. rewrite Hw. cbv zeta.
  assert (Hin : In "Empirical model with parameters too!"
                  (log (warn_all
                          (warn_all w1 ["Empirical model with parameters too!"])
                          warnings))).
  { rewrite !log_warn_all. apply in_or_app. left. apply in_or_app. right.
    left. reflexivity. }
  destruct (negb (symmetric self)); [|exact Hin].
  cbn [warn log]. apply in_or_app. left. exact Hin.
Qed.

Lemma empirical_matrix_stored_witness :
  exists self w,
    __init__ rank_svd MoreExamples.empirical_args Examples.empty_world
    = Ok (self, w) /\
    _instantaneous_mask_f self = MoreExamples.rates.
Proof.
  destruct (__init__ rank_svd MoreExamples.empirical_args Examples.empty_world)
    as [[self w]|] eqn:E; [|vm_compute in E; discriminate E].
  exists self, w. split; [reflexivity|].
  apply (empirical_matrix_stored rank_svd MoreExamples.empirical_args
           Examples.empty_world self w MoreExamples.rates E eq_refl).
Defined.

(** ** Bins and distributions *)

Lemma intersects_spec a b :
  intersects a b = true <-> exists s, In s a /\ In s b.
Proof.
  unfold intersects. rewrite existsb_exists. split.
  - intros (s & Ha & Hb). apply existsb_exists in Hb.
    destruct Hb as (t & Hb & Ht). apply String.eqb_eq in Ht. subst t.
    exists s. auto.
  - intros (s & Ha & Hb). exists s. split; [exact Ha|].
    apply existsb_exists. exists s. split; [exact Hb|apply String.eqb_refl].
Qed.

Lemma init_bins_inv a order rate ordered partitioned :
  init_bins a order = Ok (rate, ordered, partitioned) ->
  ordered = as_tuple (arg_ordered_param a) /\
  partitioned
  = match ordered with
    | [] => []
    | _ => set_union ordered (as_tuple (arg_partitioned_params a))
    end /\
  rate = arg_with_rate a || existsb (String.eqb "rate") ordered /\
  (partitioned <> [] -> intersects partitioned ("rate" :: order) = true).
Proof.
  unfold init_bins. intros H.
  destruct (as_tuple (arg_ordered_param a)) as [|o os] eqn:Eo.
  - destruct (as_tuple (arg_partitioned_params a)) as [|p ps];
      cbn [assert bind] in H; [|discriminate].
    injection H as <- <- <-. repeat split; auto; intros Hne; contradiction.
  - cbn [bind] in H.
    destruct (set_union (o :: os) (as_tuple (arg_partitioned_params a)))
      as [|p ps] eqn:Eu.
    + injection H as <- <- <-. repeat split; auto; intros Hne; contradiction.
    + destruct (intersects (p :: ps) ("rate" :: order)) eqn:Ei;
        cbn [assert bind] in H; [|discriminate].
      injection H as <- <- <-. repeat split; auto.
Qed.

(** X16. In a constructed model: [ordered_param] is the argument as a tuple;
    without an ordered parameter there is no partitioned parameter;
    otherwise [partitioned_params] holds, each once, the ordered and the
    partitioned parameters of the arguments, and at least one of them is
    ['rate'] or the name of a predicate (the others need not be);
    [with_rate] is set when ['rate'] is an ordered parameter. *)
Theorem bins_of_constructed_model svd a w0 self w :
  __init__ svd a w0 = Ok (self, w) ->
  ordered_param self = as_tuple (arg_ordered_param a) /\
  (ordered_param self = [] ->
   partitioned_params self = [] /\
   as_tuple (arg_partitioned_params a) = []) /\
  (ordered_param self <> [] ->
   List.NoDup (partitioned_params self) /\
   (forall s, In s (partitioned_params self) <->
              In s (ordered_param self)
              \/ In s (as_tuple (arg_partitioned_params a))) /\
   exists s, In s (partitioned_params self) /\
             (s = "rate" \/ In s (parameter_order self))) /\
  (In "rate" (ordered_param self) -> with_rate self = true).
Proof.
  intros H.
  destruct (init_trace svd a w0 self w H)
    as (mp & w1 & fa & msgs & warnings & _ & _ & _ & _ & _ & _ & _ & Hbins & _).
  pose proof Hbins as Hbins'.
  apply init_bins_inv in Hbins. destruct Hbins as (Ho & Hp & Hr & Hi).
  split; [exact Ho|]. split; [|split].
  - intros E. rewrite E in Hp. split; [exact Hp|].
    unfold init_bins in Hbins'. rewrite <- Ho, E in Hbins'.
    destruct (as_tuple (arg_partitioned_params a)); [reflexivity|].
    discriminate Hbins'.
  - intros Hne. destruct (ordered_param self) as [|o os] eqn:E;
      [contradiction|].
    rewrite Hp. split; [apply List.NoDup_nodup|]. split.
    + intros s. unfold set_union. rewrite nodup_In, in_app_iff. reflexivity.
    + assert (Hnonempty : partitioned_params self <> []).
      { rewrite Hp. unfold set_union. intros Hnil.
        assert (Hin : In o (nodup string_dec
                              ((o :: os) ++ as_tuple (arg_partitioned_params a))))
          by (apply nodup_In; left; reflexivity).
        rewrite Hnil in Hin. exact Hin. }
      apply Hi, intersects_spec in Hnonempty.
      destruct Hnonempty as (s & Hs & Hs').
      exists s. rewrite Hp in Hs. split; [exact Hs|].
      destruct Hs' as [<-|Hs']; auto.
  - intros Hin. rewrite Hr.
    assert (Hex : existsb (String.eqb "rate") (ordered_param self) = true).
    { apply existsb_exists. exists "rate". split; [exact Hin|reflexivity]. }
    rewrite Hex. apply orb_true_r.
Qed.

Lemma bins_of_constructed_model_witness :
  exists self w,
    __init__ rank_svd MoreExamples.binned_kappa_args Examples.empty_world
    = Ok (self, w) /\
    ordered_param self = ["kappa"] /\
    In "omega" (partitioned_params self) /\
    ~ In "omega" (parameter_order self).
Proof.
  destruct (__init__ rank_svd MoreExamples.binned_kappa_args
              Examples.empty_world)
    as [[self w]|] eqn:E; [|vm_compute in E; discriminate E].
  destruct (bins_of_constructed_model rank_svd MoreExamples.binned_kappa_args
              Examples.empty_world self w E) as (Ho & _ & Hp & _).
  exists self, w. split; [reflexivity|]. split; [exact Ho|].
  assert (Hne : ordered_param self <> []) by (rewrite Ho; discriminate).
  destruct (Hp Hne) as (_ & Hin & _). split.
  - apply Hin. right. left. reflexivity.
  - vm_compute in E. injection E as <- _. simpl. intros [H|[]].
    discriminate H.
Defined.

(** X17. The distribution of a constructed model is [GammaDefn] for
    ["gamma"], [MonotonicDefn] for [None] and ["free"], and the given object
    otherwise; a distribution given by any other name ends the construction
    with no model. *)
Theorem distribution_of_model svd a w0 :
  match arg_distribution a with
  | DistributionName s =>
      if String.eqb s "gamma" then
        forall self w, __init__ svd a w0 = Ok (self, w) ->
                       distrib_class self = GammaDefn
      else if String.eqb s "free" then
        forall self w, __init__ svd a w0 = Ok (self, w) ->
                       distrib_class self = MonotonicDefn
      else raises (__init__ svd a w0)
  | NoDistribution =>
      forall self w, __init__ svd a w0 = Ok (self, w) ->
                     distrib_class self = MonotonicDefn
  | DistributionObject c =>
      forall self w, __init__ svd a w0 = Ok (self, w) ->
                     distrib_class self = OtherDefn c
  end.
Proof.
  assert (Hd : forall self w, __init__ svd a w0 = Ok (self, w) ->
                 init_distribution (arg_distribution a)
                 = Ok (distrib_class self)).
  { intros self w H.
    destruct (init_trace svd a w0 self w H)
      as (mp & w1 & fa & msgs & warnings & _ & _ & _ & _ & _ & _ & _ & _ & Hdist
          & _). exact Hdist. }
  destruct (arg_distribution a) as [|s|c] eqn:E.
  - intros self w H. specialize (Hd self w H). simpl in Hd. congruence.
  - destruct (String.eqb s "gamma") eqn:Eg; [|destruct (String.eqb s "free") eqn:Ef].
    + intros self w H. specialize (Hd self w H). simpl in Hd.
      rewrite Eg in Hd. congruence.
    + intros self w H. specialize (Hd self w H). simpl in Hd.
      rewrite Eg, Ef in Hd. congruence.
    + destruct (__init__ svd a w0) as [[self w]|] eqn:H; [|exact I].
      specialize (Hd self w eq_refl). simpl in Hd. rewrite Eg, Ef in Hd.
      discriminate Hd.
  - intros self w H. specialize (Hd self w H). simpl in Hd. congruence.
Qed.

Lemma distribution_of_model_witness :
  raises (__init__ rank_svd
            (MoreExamples.model None None None None true
               (DistributionName "lognormal"))
            Examples.empty_world).
Proof.
  exact (distribution_of_model rank_svd
           (MoreExamples.model None None None None true
              (DistributionName "lognormal"))
           Examples.empty_world).
Defined.

(** ** Parameter names and masks by name *)



Lemma dict_get_In {V} k (d : list (string * V)) v :
  dict_get k d = Some v -> In (k, v) d.
Proof.
  unfold dict_get. destruct (find _ d) as [[k' v']|] eqn:E; [|discriminate].
  simpl. intros [= <-]. apply find_some in E. destruct E as [Hin Hk].
  apply String.eqb_eq in Hk. simpl in Hk. subst k'. exact Hin.
Qed.

Lemma mask_within_In alphabet inst (d : masks) k m :
  Forall (fun kv => mask_within alphabet inst (snd kv)) d ->
  In (k, m) d -> mask_within alphabet inst m.
Proof.
  intros H Hin. rewrite Forall_forall in H.
  apply (H (k, m)), list_elem_of_In, Hin.
Qed.

(** X19. In a constructed model, [getPredicateMask] looks a name up in the
    scale masks first and in the predicate masks next, and computes the mask
    of anything else; whatever it returns is a mask within the instantaneous
    mask: true only where the instantaneous mask is true. *)
Theorem getPredicateMask_within svd a w0 self w parse pred mask :
  __init__ svd a w0 = Ok (self, w) ->
  getPredicateMask parse self pred = Ok mask ->
  mask_within (alphabet self) (_instantaneous_mask self) mask /\
  (forall i j, i < length (alphabet self) -> j < length (alphabet self) ->
     Array.entry false (length (alphabet self)) mask i j = true ->
     Array.entry false (length (alphabet self))
       (_instantaneous_mask self) i j = true) /\
  (forall s, pred = ByName s ->
     match dict_get s (scale_masks self), dict_get s (predicate_masks self)
     with
     | Some m, _ => mask = m
     | None, Some m => mask = m
     | None, None => True
     end).
Proof.
  intros H Hget. destruct (init_constructed svd a w0 self w H) as [Hc _].
  destruct (init_trace svd a w0 self w H)
    as (mp & w1 & fa & msgs & warnings & _ & _ & _ & _ & _ & _ & Hscales & _ & _
        & Halph & _).
  apply _adaptPredicates_within in Hscales. rewrite <- Halph in Hscales.
  pose proof (masks_within self Hc) as Hpreds.
  assert (Hadapt : forall p m,
            bind (adaptPredicate (alphabet self) (_instantaneous_mask self)
                    p None) (fun lm => Ok (snd lm)) = Ok m ->
            mask_within (alphabet self) (_instantaneous_mask self) m).
  { intros p m Hp. rewrite adaptPredicate_adapted in Hp. injection Hp as <-.
    exists (makeModelPredicate p). reflexivity. }
  assert (Hw : mask_within (alphabet self) (_instantaneous_mask self) mask).
  { unfold getPredicateMask in Hget. destruct pred as [s|p].
    - destruct (dict_get s (scale_masks self)) as [m|] eqn:Es.
      + injection Hget as <-. apply dict_get_In in Es.
        apply (mask_within_In _ _ _ s m Hscales Es).
      + destruct (dict_get s (predicate_masks self)) as [m|] eqn:Ep.
        * injection Hget as <-. apply dict_get_In in Ep.
          apply (mask_within_In _ _ _ s m Hpreds Ep).
        * destruct (parse s) as [p|]; [|discriminate]. apply (Hadapt p), Hget.
    - apply (Hadapt p), Hget. }
  split; [exact Hw|]. split.
  - intros i j Hi Hj. apply mask_within_entry; assumption.
  - intros s ->. unfold getPredicateMask in Hget.
    destruct (dict_get s (scale_masks self)) as [m|].
    + injection Hget as <-. reflexivity.
    + destruct (dict_get s (predicate_masks self)) as [m|]; [|exact I].
      injection Hget as <-. reflexivity.
Qed.

Lemma getPredicateMask_within_witness :
  exists self w mask,
    __init__ rank_svd Examples.general_args Examples.empty_world = Ok (self, w)
    /\ getPredicateMask (fun _ => Raise (ValueError "")) self (ByName "kappa")
       = Ok mask
    /\ mask_within (alphabet self) (_instantaneous_mask self) mask.
Proof.
  destruct (__init__ rank_svd Examples.general_args Examples.empty_world)
    as [[self w]|] eqn:E; [|vm_compute in E; discriminate E].
  assert (Hm : getPredicateMask (fun _ => Raise (ValueError "")) self
                 (ByName "kappa") = Ok Examples.transition_mask).
  { pose proof E as E'. vm_compute in E'. injection E' as <- _. reflexivity. }
  exists self, w, Examples.transition_mask. split; [reflexivity|].
  split; [exact Hm|].
  apply (getPredicateMask_within rank_svd Examples.general_args
           Examples.empty_world self w _ _ _ E Hm).
Defined.

(** ** The helpers [_maxWidthIfTruncated] and [_extract_kw] *)

Lemma fold_add_shift l : forall a : Z,
  fold_left Z.add l a = (a + fold_left Z.add l 0%Z)%Z.
Proof.
  induction l as [|x l IH]; intros a; cbn [fold_left]; [lia|].
  rewrite (IH (a + x)%Z), (IH (0 + x)%Z). lia.
Qed.

Lemma sum_min_mono (each each' : Z) (l : list string) :
  (each <= each')%Z ->
  (fold_left Z.add (map (fun par => Z.min (len par) each) l) 0
   <= fold_left Z.add (map (fun par => Z.min (len par) each') l) 0)%Z.
Proof.
  intros H. induction l as [|p l IH]; cbn [map fold_left]; [lia|].
  rewrite (fold_add_shift _ (0 + Z.min (len p) each)%Z),
    (fold_add_shift _ (0 + Z.min (len p) each')%Z). lia.
Qed.

Lemma sum_min_saturated (each each' : Z) (l : list string) :
  (each <= each')%Z ->
  (forall p, In p l -> (len p <= each)%Z) ->
  fold_left Z.add (map (fun par => Z.min (len par) each) l) 0%Z
  = fold_left Z.add (map (fun par => Z.min (len par) each') l) 0%Z.
Proof.
  intros H Hall. induction l as [|p l IH]; cbn [map fold_left]; [reflexivity|].
  rewrite (fold_add_shift _ (0 + Z.min (len p) each)%Z),
    (fold_add_shift _ (0 + Z.min (len p) each')%Z).
  rewrite IH by (intros q Hq; apply Hall; right; exact Hq).
  pose proof (Hall p (or_introl eq_refl)). lia.
Qed.

Lemma cell_width_mono delim each each' l :
  (each <= each')%Z -> (cell_width delim each l <= cell_width delim each' l)%Z.
Proof. intros H. unfold cell_width. pose proof (sum_min_mono each each' l H). lia. Qed.

Lemma fold_max_mono : forall (l l' : list Z) (x x' : Z),
  (x <= x')%Z -> Forall2 Z.le l l' ->
  (fold_left Z.max l x <= fold_left Z.max l' x')%Z.
Proof.
  intros l l' x x' Hx H. revert x x' Hx.
  induction H as [|y y' l l' Hy _ IH]; intros x x' Hx; simpl; [exact Hx|].
  apply IH. lia.
Qed.

Lemma Forall2_map_le {A} (f g : A -> Z) (l : list A) :
  (forall a, (f a <= g a)%Z) -> Forall2 Z.le (map f l) (map g l).
Proof.
  intros H. induction l as [|a l IH]; simpl; constructor; auto.
Qed.

Lemma _maxWidthIfTruncated_mono pars delim each each' x x' :
  (each <= each')%Z ->
  _maxWidthIfTruncated pars delim each = Ok x ->
  _maxWidthIfTruncated pars delim each' = Ok x' ->
  (x <= x')%Z.
Proof.
  unfold _maxWidthIfTruncated. intros H. destruct pars as [|l pars]; simpl;
    [discriminate|].
  intros [= <-] [= <-]. apply fold_max_mono.
  - apply cell_width_mono, H.
  - apply Forall2_map_le. intros a. apply cell_width_mono, H.
Qed.

(** X20. [_maxWidthIfTruncated] raises for an array with no cell and returns
    for any other. The width it returns does not decrease when names are cut
    at more characters, and no longer changes once no name is longer than
    the cut. So the loop of [asciiArt] that lengthens the cut while the
    width stays within [w], entered with [w] less than the width at 100
    characters, stops before the cut reaches 100. *)
Theorem _maxWidthIfTruncated_spec pars delim each each' :
  (each <= each')%Z ->
  match _maxWidthIfTruncated pars delim each,
        _maxWidthIfTruncated pars delim each' with
  | Ok x, Ok x' =>
      pars <> [] /\
      (x <= x')%Z /\
      ((forall l p, In l pars -> In p l -> (len p <= each)%Z) -> x = x') /\
      (forall w x100,
         _maxWidthIfTruncated pars delim 100 = Ok x100 ->
         (w < x100)%Z -> (x' <= w)%Z -> (each' < 100)%Z)
  | Raise _, Raise _ => pars = []
  | _, _ => False
  end.
Proof.
  intros H.
  destruct (_maxWidthIfTruncated pars delim each) as [x|e] eqn:E,
           (_maxWidthIfTruncated pars delim each') as [x'|e'] eqn:E'.
  - split; [intros ->; discriminate E|].
    split; [apply (_maxWidthIfTruncated_mono _ _ _ _ _ _ H E E')|]. split.
    + intros Hall. unfold _maxWidthIfTruncated in E, E'.
      assert (Hmap : map (cell_width delim each) pars
                     = map (cell_width delim each') pars).
      { apply map_ext_in. intros l Hl. unfold cell_width.
        rewrite (sum_min_saturated each each' l H (fun p => Hall l p Hl)).
        reflexivity. }
      rewrite Hmap in E. congruence.
    + intros w x100 H100 Hw Hx.
      destruct (Z.lt_ge_cases each' 100) as [Hlt|Hge]; [exact Hlt|].
      pose proof (_maxWidthIfTruncated_mono _ _ _ _ _ _ Hge H100 E'). lia.
  - destruct pars; discriminate.
  - destruct pars; discriminate.
  - destruct pars; [reflexivity|discriminate].
Qed.

Lemma _maxWidthIfTruncated_spec_witness :
  _maxWidthIfTruncated [["kappa"; "omega"]; []; ["kappa"]] "," 1 = Ok 3%Z /\
  _maxWidthIfTruncated [["kappa"; "omega"]; []; ["kappa"]] "," 5 = Ok 11%Z /\
  (3 <= 11)%Z.
Proof.
  assert (E1 : _maxWidthIfTruncated [["kappa"; "omega"]; []; ["kappa"]] "," 1
               = Ok 3%Z) by reflexivity.
  assert (E5 : _maxWidthIfTruncated [["kappa"; "omega"]; []; ["kappa"]] "," 5
               = Ok 11%Z) by reflexivity.
  pose proof (_maxWidthIfTruncated_spec
                [["kappa"; "omega"]; []; ["kappa"]] "," 1 5 ltac:(lia)) as H.
  rewrite E1, E5 in H. destruct H as (_ & Hle & _). auto.
Defined.

(** *** [_extract_kw] *)






(** ** Comparison sets of [EstimateDistances] *)

Lemma In_range a b i : In i (Distance.range a b) <-> a <= i < b.
Proof. unfold Distance.range. rewrite in_seq. lia. Qed.

Lemma flat_map_shift {B} (f : nat -> list B) n : forall s,
  flat_map f (seq (S s) n) = flat_map (fun i => f (S i)) (seq s n).
Proof.
  induction n as [|n IH]; intros s; simpl; [reflexivity|].
  rewrite IH. reflexivity.
Qed.

Lemma map_shift {B} (f : nat -> B) n : forall s,
  map f (seq (S s) n) = map (fun i => f (S i)) (seq s n).
Proof.
  induction n as [|n IH]; intros s; simpl; [reflexivity|].
  rewrite IH. reflexivity.
Qed.

Lemma map_nth_seq (l : list string) :
  map (fun j => nth j l "") (seq 0 (length l)) = l.
Proof.
  induction l as [|x l IH]; simpl; [reflexivity|].
  rewrite map_shift. simpl. rewrite IH. reflexivity.
Qed.

Lemma pairwise_cons x l :
  Distance.make_pairwise_comparison_sets (x :: l)
  = map (fun y => (x, y)) l ++ Distance.make_pairwise_comparison_sets l.
Proof.
  unfold Distance.make_pairwise_comparison_sets, Distance.range.
  cbn [length]. rewrite !Nat.sub_0_r. replace (S (length l) - 1) with (length l) by lia.
  destruct l as [|y l]; [reflexivity|]. cbn [length seq flat_map].
  f_equal.
  - cbn [Nat.add Nat.sub nth]. rewrite map_shift. cbn [nth].
    transitivity (map (fun y0 => (x, y0))
                    (map (fun j => nth j (y :: l) "") (seq 0 (length (y :: l))))).
    + rewrite map_map. reflexivity.
    + rewrite map_nth_seq. reflexivity.
  - replace (S (length l) - 1) with (length l) by lia.
    rewrite flat_map_shift. apply flat_map_ext. intros i.
    cbn [Nat.add Nat.sub nth]. rewrite map_shift. reflexivity.
Qed.

Lemma pairwise_ordered_pairs names :
  Distance.make_pairwise_comparison_sets names = ordered_pairs names.
Proof.
  induction names as [|x l IH]; [reflexivity|].
  rewrite pairwise_cons, IH. reflexivity.
Qed.

Lemma In_ordered_pairs l a b :
  In (a, b) (ordered_pairs l) -> In a l /\ In b l.
Proof.
  induction l as [|x l IH]; simpl; [intros []|].
  intros H. apply in_app_or in H. destruct H as [H|H].
  - apply in_map_iff in H. destruct H as (y & [= <- <-] & Hy). auto.
  - destruct (IH H). auto.
Qed.

Lemma length_ordered_pairs l :
  2 * length (ordered_pairs l) = length l * (length l - 1).
Proof.
  induction l as [|x l IH]; [reflexivity|].
  cbn [ordered_pairs length]. rewrite length_app, length_map.
  replace (S (length l) - 1) with (length l) by lia.
  destruct (length l) as [|n]; simpl in *; nia.
Qed.

Lemma NoDup_ordered_pairs l :
  List.NoDup l ->
  List.NoDup (ordered_pairs l) /\
  forall a b, In (a, b) (ordered_pairs l) ->
              a <> b /\ ~ In (b, a) (ordered_pairs l).
Proof.
  induction 1 as [|x l Hx Hl [IHnd IHab]]; simpl.
  - split; [constructor|intros ? ? []].
  - split.
    + apply List.NoDup_app.
      * apply List.NoDup_map_NoDup_ForallPairs; [|exact Hl].
        intros a b _ _ [= E]. exact E.
      * exact IHnd.
      * intros [a b] H1 H2. apply in_map_iff in H1.
        destruct H1 as (y & [= <- <-] & _).
        apply In_ordered_pairs in H2. apply Hx, H2.
    + intros a b H. apply in_app_or in H. destruct H as [H|H].
      * apply in_map_iff in H. destruct H as (y & [= <- <-] & Hy).
        split; [intros <-; exact (Hx Hy)|].
        intros H'. apply in_app_or in H'. destruct H' as [H'|H'].
        -- apply in_map_iff in H'. destruct H' as (z & [= <- _] & _).
           exact (Hx Hy).
        -- apply In_ordered_pairs in H'. apply Hx, H'.
      * destruct (IHab a b H) as [Hne Hrev]. split; [exact Hne|].
        intros H'. apply in_app_or in H'. destruct H' as [H'|H'].
        -- apply in_map_iff in H'. destruct H' as (z & [= <- _] & _).
           apply In_ordered_pairs in H. apply Hx, H.
        -- exact (Hrev H').
Qed.

Lemma In_pairwise names p :
  In p (Distance.make_pairwise_comparison_sets names) <->
  exists i j, i < j < length names /\ p = (nth i names "", nth j names "").
Proof.
  unfold Distance.make_pairwise_comparison_sets. rewrite in_flat_map. split.
  - intros (i & Hi & Hp). apply in_map_iff in Hp. destruct Hp as (j & <- & Hj).
    apply In_range in Hi, Hj. exists i, j. split; [lia|reflexivity].
  - intros (i & j & Hij & ->). exists i. split; [apply In_range; lia|].
    apply in_map_iff. exists j. split; [reflexivity|apply In_range; lia].
Qed.

(** X22. The pairwise comparison sets are the pairs of names at positions
    [i < j], each once and in the order of the names, [n (n - 1) / 2] of
    them for [n] names. When the names are distinct, no comparison pairs a
    name with itself and none is the reverse of another. *)
Theorem pairwise_comparison_sets names :
  (forall p,
     In p (Distance.make_pairwise_comparison_sets names) <->
     exists i j, i < j < length names /\ p = (nth i names "", nth j names ""))
  /\
  Distance.make_pairwise_comparison_sets names = ordered_pairs names /\
  2 * length (Distance.make_pairwise_comparison_sets names)
  = length names * (length names - 1) /\
  (List.NoDup names ->
   List.NoDup (Distance.make_pairwise_comparison_sets names) /\
   forall a b, In (a, b) (Distance.make_pairwise_comparison_sets names) ->
     a <> b /\ ~ In (b, a) (Distance.make_pairwise_comparison_sets names)).
Proof.
  split; [apply In_pairwise|]. split; [apply pairwise_ordered_pairs|].
  rewrite pairwise_ordered_pairs. split; [apply length_ordered_pairs|].
  apply NoDup_ordered_pairs.
Qed.

Lemma pairwise_comparison_sets_witness :
  List.NoDup (Distance.make_pairwise_comparison_sets ["a"; "b"; "c"]) /\
  forall a b, In (a, b) (Distance.make_pairwise_comparison_sets ["a"; "b"; "c"])
    -> a <> b
       /\ ~ In (b, a) (Distance.make_pairwise_comparison_sets ["a"; "b"; "c"]).
Proof.
  apply (proj2 (proj2 (proj2 (pairwise_comparison_sets ["a"; "b"; "c"])))).
  repeat constructor; simpl; intuition discriminate.
Defined.

Lemma map_flat_map {A B C} (f : B -> C) (g : A -> list B) l :
  map f (flat_map g l) = flat_map (fun a => map f (g a)) l.
Proof.
  induction l as [|a l IH]; simpl; [reflexivity|].
  rewrite map_app, IH. reflexivity.
Qed.

Lemma flat_map_seq_head {B} (f : nat -> list B) s p :
  flat_map f (seq s (S p)) = f s ++ flat_map f (seq (S s) p).
Proof. reflexivity. Qed.

Lemma threeway_cons x l :
  Distance.make_threeway_comparison_sets (x :: l)
  = map (fun yz => (x, fst yz, snd yz))
      (Distance.make_pairwise_comparison_sets l)
    ++ Distance.make_threeway_comparison_sets l.
Proof.
  unfold Distance.make_threeway_comparison_sets,
    Distance.make_pairwise_comparison_sets, Distance.range.
  cbn [length]. generalize (length l). intros m.
  rewrite !Nat.sub_0_r. replace (S m - 2) with (m - 1) by lia.
  destruct (m - 1) as [|p] eqn:E.
  - replace (m - 2) with 0 by lia. reflexivity.
  - replace (m - 2) with p by lia.
    match goal with
    | |- flat_map ?F _ = _ => rewrite (flat_map_seq_head F 0 p)
    end.
    f_equal.
    + rewrite map_flat_map.
      replace (S m - 1 - (0 + 1)) with (S p) by lia.
      cbn [Nat.add]. rewrite flat_map_shift. apply flat_map_ext. intros j.
      rewrite map_map. cbn [Nat.add Nat.sub nth fst snd].
      rewrite map_shift. reflexivity.
    + rewrite flat_map_shift. apply flat_map_ext. intros i.
      replace (S m - 1 - (S i + 1)) with (S p - (i + 1)) by lia.
      cbn [Nat.add]. rewrite flat_map_shift. apply flat_map_ext. intros j.
      cbn [Nat.add Nat.sub nth]. rewrite map_shift. reflexivity.
Qed.

Lemma threeway_ordered_triples names :
  Distance.make_threeway_comparison_sets names = ordered_triples names.
Proof.
  induction names as [|x l IH]; [reflexivity|].
  rewrite threeway_cons, IH, pairwise_ordered_pairs. reflexivity.
Qed.

Lemma length_ordered_triples l :
  6 * length (ordered_triples l)
  = length l * (length l - 1) * (length l - 2).
Proof.
  induction l as [|x l IH]; [reflexivity|].
  cbn [ordered_triples length]. rewrite length_app, length_map.
  pose proof (length_ordered_pairs l) as HP.
  destruct (length l) as [|[|n]]; simpl in *; nia.
Qed.

Lemma In_threeway names t :
  In t (Distance.make_threeway_comparison_sets names) <->
  exists i j k, i < j < k /\ k < length names /\
    t = (nth i names "", nth j names "", nth k names "").
Proof.
  unfold Distance.make_threeway_comparison_sets. rewrite in_flat_map. split.
  - intros (i & Hi & Ht). apply in_flat_map in Ht. destruct Ht as (j & Hj & Ht).
    apply in_map_iff in Ht. destruct Ht as (k & <- & Hk).
    apply In_range in Hi, Hj, Hk. exists i, j, k. repeat split; lia.
  - intros (i & j & k & Hij & Hk & ->). exists i.
    split; [apply In_range; lia|]. apply in_flat_map. exists j.
    split; [apply In_range; lia|]. apply in_map_iff. exists k.
    split; [reflexivity|apply In_range; lia].
Qed.

(** X23. The threeway comparison sets are the triples of names at positions
    [i < j < k], in the order of the names: every name with every ordered
    pair of the names after it, [n (n - 1) (n - 2) / 6] triples for [n]
    names, so none for fewer than three names. *)
Theorem threeway_comparison_sets names :
  (forall t,
     In t (Distance.make_threeway_comparison_sets names) <->
     exists i j k, i < j < k /\ k < length names /\
       t = (nth i names "", nth j names "", nth k names ""))
  /\
  Distance.make_threeway_comparison_sets names = ordered_triples names /\
  (forall x l,
     Distance.make_threeway_comparison_sets (x :: l)
     = map (fun yz => (x, fst yz, snd yz))
         (Distance.make_pairwise_comparison_sets l)
       ++ Distance.make_threeway_comparison_sets l) /\
  6 * length (Distance.make_threeway_comparison_sets names)
  = length names * (length names - 1) * (length names - 2).
Proof.
  split; [apply In_threeway|]. split; [apply threeway_ordered_triples|].
  split; [apply threeway_cons|].
  rewrite threeway_ordered_triples. apply length_ordered_triples.
Qed.

(** ** The rounds of [EstimateDistances.run] *)

Lemma rounds_enough n size i :
  i < n ->
  i / Pos.to_nat size
  < Z.to_nat ((Z.of_nat n - 1) / Z.pos size + 1).
Proof.
  intros Hi. pose proof (Pos2Nat.is_pos size) as Hs.
  assert (E : Z.of_nat (i / Pos.to_nat size)
              = (Z.of_nat i / Z.pos size)%Z).
  { rewrite Nat2Z.inj_div, positive_nat_Z. reflexivity. }
  assert (M : (Z.of_nat i / Z.pos size <= (Z.of_nat n - 1) / Z.pos size)%Z).
  { apply Z.div_le_mono; lia. }
  assert (0 <= Z.of_nat i / Z.pos size)%Z by (apply Z.div_pos; lia).
  lia.
Qed.

Lemma rounds_cover n size :
  n <= Z.to_nat ((Z.of_nat n - 1) / Z.pos size + 1) * Pos.to_nat size.
Proof.
  destruct n as [|n]; [lia|].
  pose proof (rounds_enough (S n) size n ltac:(lia)) as H.
  pose proof (Pos2Nat.is_pos size) as Hs.
  pose proof (Nat.div_mod_eq n (Pos.to_nat size)) as D.
  pose proof (Nat.mod_upper_bound n (Pos.to_nat size) ltac:(lia)) as U.
  nia.
Qed.

Lemma In_estimated_by n size rank i :
  rank < Pos.to_nat size ->
  In i (Distance.estimated_by n size rank) <->
  i < n /\ i mod Pos.to_nat size = rank.
Proof.
  intros Hr. unfold Distance.estimated_by, Distance.rounds.
  rewrite List.filter_In, in_map_iff, Nat.ltb_lt. split.
  - intros [(r & <- & _) Hi]. split; [exact Hi|].
    rewrite Nat.add_comm, Nat.Div0.mod_add. apply Nat.mod_small, Hr.
  - intros [Hi <-]. split; [|exact Hi].
    exists (i / Pos.to_nat size). split.
    + pose proof (Nat.div_mod_eq i (Pos.to_nat size)). lia.
    + apply in_seq. pose proof (rounds_enough n size i Hi). lia.
Qed.

Lemma map_fst_filter {B} (p : nat -> bool) (l : list (nat * B)) :
  map fst (List.filter (fun ic => p (fst ic)) l) = List.filter p (map fst l).
Proof.
  induction l as [|[i c] l IH]; simpl; [reflexivity|].
  destruct (p i); simpl; rewrite IH; reflexivity.
Qed.

Lemma filter_flat_map {A B} (p : B -> bool) (g : A -> list B) l :
  flat_map (fun r => List.filter p (g r)) l = List.filter p (flat_map g l).
Proof.
  induction l as [|a l IH]; simpl; [reflexivity|].
  rewrite List.filter_app, IH. reflexivity.
Qed.

Lemma map_add_seq a s : forall b,
  map (fun c => a + c) (seq b s) = seq (a + b) s.
Proof.
  induction s as [|s IH]; intros b; simpl; [reflexivity|].
  rewrite IH. f_equal. f_equal. lia.
Qed.

Lemma flat_map_blocks s R :
  flat_map (fun r => seq (r * s) s) (seq 0 R) = seq 0 (R * s).
Proof.
  induction R as [|R IH]; [reflexivity|].
  rewrite seq_S, flat_map_app, IH. cbn [flat_map Nat.add]. rewrite app_nil_r.
  replace (S R * s) with (R * s + s) by lia. rewrite seq_app. reflexivity.
Qed.

Lemma filter_all {A} (p : A -> bool) l :
  (forall x, In x l -> p x = true) -> List.filter p l = l.
Proof.
  induction l as [|a l IH]; simpl; intros H; [reflexivity|].
  rewrite (H a (or_introl eq_refl)), IH; auto.
Qed.

Lemma filter_none {A} (p : A -> bool) l :
  (forall x, In x l -> p x = false) -> List.filter p l = [].
Proof.
  induction l as [|a l IH]; simpl; intros H; [reflexivity|].
  rewrite (H a (or_introl eq_refl)), IH; auto.
Qed.

Lemma filter_below n k :
  n <= k -> List.filter (fun i => i <? n) (seq 0 k) = seq 0 n.
Proof.
  intros H. replace k with (n + (k - n)) by lia.
  rewrite seq_app, List.filter_app, filter_all, filter_none.
  - apply app_nil_r.
  - intros x Hx. apply in_seq in Hx. apply Nat.ltb_ge. lia.
  - intros x Hx. apply in_seq in Hx. apply Nat.ltb_lt. lia.
Qed.

Lemma stored_from_indices n size :
  map fst (Distance.stored_from n size) = seq 0 n.
Proof.
  unfold Distance.stored_from, Distance.rounds, Distance.range.
  rewrite map_flat_map.
  erewrite flat_map_ext.
  2:{ intros r.
      rewrite (map_fst_filter (fun i => i <? n)), map_map. cbn [fst].
      rewrite Nat.sub_0_r, map_add_seq, Nat.add_0_r. reflexivity. }
  rewrite filter_flat_map, flat_map_blocks.
  apply filter_below, rounds_cover.
Qed.

Lemma In_stored_from n size i cpu :
  In (i, cpu) (Distance.stored_from n size) ->
  cpu < Pos.to_nat size /\ i < n /\ cpu = i mod Pos.to_nat size.
Proof.
  unfold Distance.stored_from. rewrite in_flat_map.
  intros (r & _ & H). apply List.filter_In in H. destruct H as [H Hi].
  apply in_map_iff in H. destruct H as (c & [= <- <-] & Hc).
  apply In_range in Hc. cbn [fst] in Hi. apply Nat.ltb_lt in Hi.
  split; [lia|]. split; [exact Hi|].
  rewrite Nat.add_comm, Nat.Div0.mod_add. symmetry. apply Nat.mod_small. lia.
Qed.

(** X24. The round-robin schedule of [run] over [size] processes: the
    process [rank] estimates exactly the comparisons [i < n] with
    [i mod size = rank]; the estimates are stored for the comparisons
    [0, 1, ..., n - 1], each once and in this order, and each one is
    broadcast from the process that estimated it. *)
Theorem run_schedule n size :
  (forall rank i,
     rank < Pos.to_nat size ->
     In i (Distance.estimated_by n size rank) <->
     i < n /\ i mod Pos.to_nat size = rank) /\
  map fst (Distance.stored_from n size) = seq 0 n /\
  (forall i cpu,
     In (i, cpu) (Distance.stored_from n size) ->
     cpu < Pos.to_nat size /\ In i (Distance.estimated_by n size cpu)).
Proof.
  split; [intros rank i; apply In_estimated_by|].
  split; [apply stored_from_indices|].
  intros i cpu H. apply In_stored_from in H. destruct H as (Hc & Hi & E).
  split; [exact Hc|]. apply In_estimated_by; auto.
Qed.

Lemma run_schedule_witness :
  In 4 (Distance.estimated_by 5 3 1) <-> 4 < 5 /\ 4 mod Pos.to_nat 3 = 1.
Proof.
  apply (proj1 (run_schedule 5 3) 1 4). simpl. lia.
Defined.

(** ** The distance table of [EstimateDistances.getTable] *)

Lemma pair_eqb_eq p q : Distance.pair_eqb p q = true <-> p = q.
Proof.
  destruct p as [a b], q as [c d]. unfold Distance.pair_eqb. cbn [fst snd].
  rewrite andb_true_iff, !String.eqb_eq. split.
  - intros [-> ->]. reflexivity.
  - intros [= -> ->]. auto.
Qed.

Lemma pair_eqb_refl p : Distance.pair_eqb p p = true.
Proof. apply pair_eqb_eq. reflexivity. Qed.

Lemma pair_eqb_neq p q : p <> q -> Distance.pair_eqb p q = false.
Proof.
  intros H. destruct (Distance.pair_eqb p q) eqn:E; [|reflexivity].
  apply pair_eqb_eq in E. contradiction.
Qed.

Lemma pair_get_set_same k v d :
  Distance.pair_get k (Distance.pair_set k v d) = Some v.
Proof.
  induction d as [|[k' v'] d IH]; unfold Distance.pair_get in *; simpl.
  - rewrite pair_eqb_refl. reflexivity.
  - destruct (Distance.pair_eqb k k') eqn:E; simpl.
    + rewrite pair_eqb_refl. reflexivity.
    + rewrite E. exact IH.
Qed.

Lemma pair_get_set_other k k' v d :
  k <> k' ->
  Distance.pair_get k (Distance.pair_set k' v d) = Distance.pair_get k d.
Proof.
  intros Hne.
  induction d as [|[k2 v2] d IH]; unfold Distance.pair_get in *; simpl.
  - rewrite (pair_eqb_neq k k' Hne). reflexivity.
  - destruct (Distance.pair_eqb k' k2) eqn:E; simpl.
    + apply pair_eqb_eq in E. subst k2.
      rewrite (pair_eqb_neq k k' Hne). reflexivity.
    + destruct (Distance.pair_eqb k k2); [reflexivity|exact IH].
Qed.

Lemma pair_set_keeps k k' v d :
  Distance.pair_get k d = Some v ->
  Distance.pair_get k (Distance.pair_set k' v d) = Some v.
Proof.
  intros H. destruct (Distance.pair_eqb k k') eqn:E.
  - apply pair_eqb_eq in E. subst k'. apply pair_get_set_same.
  - rewrite pair_get_set_other; [exact H|].
    intros ->. rewrite pair_eqb_refl in E. discriminate.
Qed.

Lemma not_done_row_keeps k s1 l : forall d,
  Distance.pair_get k d = Some (Distance.Text "Not Done") ->
  Distance.pair_get k (Distance.not_done_row s1 d l)
  = Some (Distance.Text "Not Done").
Proof.
  unfold Distance.not_done_row.
  induction l as [|s l IH]; intros d H; simpl; [exact H|].
  apply IH. destruct (String.eqb s1 s); [exact H|].
  apply pair_set_keeps, H.
Qed.

Lemma not_done_row_sets s1 s2 l : forall d,
  In s2 l -> s1 <> s2 ->
  Distance.pair_get (s1, s2) (Distance.not_done_row s1 d l)
  = Some (Distance.Text "Not Done").
Proof.
  induction l as [|s l IH]; intros d Hin Hne; [destruct Hin|].
  destruct Hin as [<-|Hin].
  - unfold Distance.not_done_row. simpl. apply String.eqb_neq in Hne. rewrite Hne.
    apply (not_done_row_keeps (s1, s) s1 l). apply pair_get_set_same.
  - exact (IH _ Hin Hne).
Qed.

Lemma not_done_keeps k names l : forall d,
  Distance.pair_get k d = Some (Distance.Text "Not Done") ->
  Distance.pair_get k
    (fold_left (fun d s1 => Distance.not_done_row s1 d names) l d)
  = Some (Distance.Text "Not Done").
Proof.
  induction l as [|s l IH]; intros d H; simpl; [exact H|].
  apply IH, not_done_row_keeps, H.
Qed.

Lemma not_done_sets names s1 s2 l : forall d,
  In s1 l -> In s2 names -> s1 <> s2 ->
  Distance.pair_get (s1, s2)
    (fold_left (fun d s1 => Distance.not_done_row s1 d names) l d)
  = Some (Distance.Text "Not Done").
Proof.
  induction l as [|s l IH]; intros d Hin H2 Hne; [destruct Hin|].
  destruct Hin as [<-|Hin]; simpl.
  - apply not_done_keeps, not_done_row_sets; assumption.
  - apply IH; assumption.
Qed.

Lemma not_done_get names s1 s2 :
  In s1 names -> In s2 names -> s1 <> s2 ->
  Distance.pair_get (s1, s2) (Distance.not_done names)
  = Some (Distance.Text "Not Done").
Proof. intros. apply (not_done_sets names s1 s2 names []); assumption. Qed.

Lemma table_rows_ok names d (cellf : string -> string -> Distance.cell) :
  (forall s1 s2, In s1 names -> In s2 names ->
     Distance.table_cell d s1 s2 = Ok (cellf s1 s2)) ->
  mapM (fun s1 =>
    cells <- mapM (Distance.table_cell d s1) names ;;
    Ok (Distance.Text s1 :: cells)) names
  = Ok (map (fun s1 => Distance.Text s1 :: map (cellf s1) names) names).
Proof.
  intros H. apply mapM_ext_ok. intros s1 H1.
  rewrite (mapM_ext_ok _ (cellf s1)) by (intros s2 H2; apply H; assumption).
  reflexivity.
Qed.

Lemma entry_of_rows names (cellf : string -> string -> Distance.cell) i j :
  i < length names -> j < length names ->
  table_entry
    (map (fun s1 => Distance.Text s1 :: map (cellf s1) names) names) i j
  = cellf (nth i names "") (nth j names "").
Proof.
  intros Hi Hj. unfold table_entry.
  rewrite (nth_indep _ []
            ((fun s1 => Distance.Text s1 :: map (cellf s1) names) ""))
    by (rewrite length_map; exact Hi).
  rewrite (map_nth (fun s1 => Distance.Text s1 :: map (cellf s1) names)).
  cbn [nth].
  rewrite (nth_indep _ (Distance.Text "") (cellf (nth i names "") ""))
    by (rewrite length_map; exact Hj).
  apply (map_nth (cellf (nth i names ""))).
Qed.

(** X25. With no distance estimated, [getTable] makes a table with the
    empty string on the diagonal and ['Not Done'] in every other cell: no
    lookup fails. *)
Theorem getTable_not_done names :
  Distance.getTable_rows names []
  = Ok (map (fun s1 =>
          Distance.Text s1
          :: map (fun s2 => if String.eqb s1 s2 then Distance.Text ""
                            else Distance.Text "Not Done") names) names).
Proof.
  unfold Distance.getTable_rows. apply table_rows_ok.
  intros s1 s2 H1 H2. unfold Distance.table_cell.
  destruct (String.eqb s1 s2) eqn:E; [reflexivity|].
  apply String.eqb_neq in E. rewrite not_done_get by assumption. reflexivity.
Qed.

Lemma pair_get_nil k : Distance.pair_get k [] = None.
Proof. reflexivity. Qed.

(** X26. After a pairwise run the dict of distances has the pairwise
    comparison sets as keys. For distinct sequence names [getTable] then
    fails on no lookup, and its table is symmetric: the cells [(i, j)] and
    [(j, i)] both hold the distance stored for the names at [i < j]; the
    diagonal holds the empty string. *)
Theorem getTable_symmetric names d :
  List.NoDup names ->
  (forall p, In p (Distance.make_pairwise_comparison_sets names) <->
             exists c, Distance.pair_get p d = Some c) ->
  exists rows,
    Distance.getTable_rows names d = Ok rows /\
    length rows = length names /\
    forall i j, i < length names -> j < length names ->
      (i = j -> table_entry rows i j = Distance.Text "") /\
      (i < j ->
       Distance.pair_get (nth i names "", nth j names "") d
       = Some (table_entry rows i j) /\
       table_entry rows j i = table_entry rows i j).
Proof.
  intros Hnd Hkeys. unfold Distance.getTable_rows.
  set (d' := match d with [] => Distance.not_done names | _ => d end).
  destruct (NoDup_ordered_pairs names Hnd) as [_ Hrev].
  rewrite <- pairwise_ordered_pairs in Hrev.
  assert (A : forall i j, i < j < length names ->
            exists c, Distance.pair_get (nth i names "", nth j names "") d
                      = Some c /\
              Distance.table_cell d' (nth i names "") (nth j names "") = Ok c /\
              Distance.table_cell d' (nth j names "") (nth i names "") = Ok c).
  { intros i j Hij.
    assert (Hin : In (nth i names "", nth j names "")
                    (Distance.make_pairwise_comparison_sets names)).
    { apply In_pairwise. exists i, j. auto. }
    destruct (proj1 (Hkeys _) Hin) as [c Hc]. exists c.
    assert (Ed : d' = d).
    { unfold d'. destruct d; [discriminate Hc|reflexivity]. }
    rewrite Ed. destruct (Hrev _ _ Hin) as [Hne Hno].
    split; [exact Hc|]. unfold Distance.table_cell.
    rewrite (proj2 (String.eqb_neq _ _) Hne).
    rewrite (proj2 (String.eqb_neq _ _) (not_eq_sym Hne)).
    rewrite Hc. split; [reflexivity|].
    destruct (Distance.pair_get (nth j names "", nth i names "") d)
      as [c'|] eqn:E; [|reflexivity].
    exfalso. apply Hno, Hkeys. exists c'. exact E. }
  set (cellf := fun s1 s2 =>
                  res_get (Distance.Text "") (Distance.table_cell d' s1 s2)).
  assert (C : forall s1 s2, In s1 names -> In s2 names ->
            Distance.table_cell d' s1 s2 = Ok (cellf s1 s2)).
  { intros s1 s2 H1 H2. unfold cellf.
    destruct (In_nth _ _ "" H1) as (i & Hi & <-).
    destruct (In_nth _ _ "" H2) as (j & Hj & <-).
    destruct (Nat.lt_trichotomy i j) as [L|[->|L]].
    - destruct (A i j (conj L Hj)) as (c & _ & -> & _). reflexivity.
    - unfold Distance.table_cell. rewrite String.eqb_refl. reflexivity.
    - destruct (A j i (conj L Hi)) as (c & _ & _ & ->). reflexivity. }
  eexists. split; [apply (table_rows_ok names d' cellf C)|].
  split; [apply length_map|].
  intros i j Hi Hj. rewrite !entry_of_rows by assumption. split.
  - intros <-. unfold cellf, Distance.table_cell.
    rewrite String.eqb_refl. reflexivity.
  - intros L. destruct (A i j (conj L Hj)) as (c & Hc & E1 & E2).
    unfold cellf. rewrite E1, E2. auto.
Qed.

Lemma getTable_symmetric_witness :
  exists rows,
    Distance.getTable_rows ["a"; "b"; "c"]
      [("a", "b", Distance.Number 1); ("a", "c", Distance.Number 2);
       ("b", "c", Distance.Number 3)] = Ok rows /\
    length rows = 3 /\
    forall i j, i < 3 -> j < 3 ->
      (i = j -> table_entry rows i j = Distance.Text "") /\
      (i < j ->
       Distance.pair_get (nth i ["a"; "b"; "c"] "", nth j ["a"; "b"; "c"] "")
         [("a", "b", Distance.Number 1); ("a", "c", Distance.Number 2);
          ("b", "c", Distance.Number 3)]
       = Some (table_entry rows i j) /\
       table_entry rows j i = table_entry rows i j).
Proof.
  apply (getTable_symmetric ["a"; "b"; "c"]).
  - repeat constructor; simpl; intuition discriminate.
  - intros [a b]. simpl. split.
    + intros [[= <- <-]|[[= <- <-]|[[= <- <-]|[]]]]; eexists; reflexivity.
    + intros [c H]. unfold Distance.pair_get, Distance.pair_eqb in H.
      simpl in H.
      destruct (String.eqb a "a") eqn:Ea; [apply String.eqb_eq in Ea; subst a|];
        simpl in H.
      * destruct (String.eqb b "b") eqn:Eb;
          [apply String.eqb_eq in Eb; subst b; auto|].
        destruct (String.eqb b "c") eqn:Ec;
          [apply String.eqb_eq in Ec; subst b; auto|]. discriminate.
      * destruct (String.eqb a "b") eqn:Eb; [apply String.eqb_eq in Eb; subst a|];
          simpl in H; [|discriminate].
        destruct (String.eqb b "c") eqn:Ec;
          [apply String.eqb_eq in Ec; subst b; auto|]. discriminate.
Defined.

Lemma mapM_raise_inv {A B} (P : exn -> Prop) (f : A -> res B) l :
  (forall a e, In a l -> f a = Raise e -> P e) ->
  forall e, mapM f l = Raise e -> P e.
Proof.
  induction l as [|a l IH]; simpl; intros H e E; [discriminate|].
  destruct (f a) as [b|e'] eqn:Ea; simpl in E.
  - destruct (mapM f l) as [bs|e''] eqn:El; simpl in E; [discriminate|].
    injection E as <-. apply IH; [|reflexivity].
    intros a' e' Ha'. apply H. right. exact Ha'.
  - injection E as <-. apply (H a); [left; reflexivity|exact Ea].
Qed.

(** X27. [getTable] raises a [KeyError] when the dict of distances is not
    empty and holds, for two different sequence names, neither the pair nor
    its reverse. *)
Theorem getTable_missing_pair names d s1 s2 :
  d <> [] ->
  In s1 names -> In s2 names -> s1 <> s2 ->
  Distance.pair_get (s1, s2) d = None ->
  Distance.pair_get (s2, s1) d = None ->
  exists key, Distance.getTable_rows names d = Raise (KeyError key).
Proof.
  intros Hd H1 H2 Hne E12 E21. unfold Distance.getTable_rows.
  destruct d as [|kv d0]; [contradiction|]. set (d := kv :: d0) in *.
  assert (K : forall a b e, Distance.table_cell d a b = Raise e ->
                            exists key, e = KeyError key).
  { intros a b e. unfold Distance.table_cell.
    destruct (String.eqb a b); [discriminate|].
    destruct (Distance.pair_get (a, b) d); [discriminate|].
    destruct (Distance.pair_get (b, a) d); [discriminate|].
    intros [= <-]. eexists. reflexivity. }
  match goal with |- exists key, ?r = _ => destruct r as [rows|e] eqn:E end.
  - exfalso.
    apply (mapM_inv []) in E. destruct E as [_ Hall].
    specialize (Hall s1 H1). cbv beta in Hall.
    destruct (mapM (Distance.table_cell d s1) names) as [cells|] eqn:Ec;
      [|discriminate Hall].
    apply (mapM_inv (Distance.Text "")) in Ec. destruct Ec as [_ Hc].
    specialize (Hc s2 H2). unfold Distance.table_cell in Hc.
    rewrite (proj2 (String.eqb_neq _ _) Hne), E12, E21 in Hc. discriminate.
  - revert E. apply (mapM_raise_inv (fun e => exists key, Raise e = Raise (KeyError key))).
    intros a e' _ Ea.
    destruct (mapM (Distance.table_cell d a) names) as [cells|e2] eqn:Ec;
      simpl in Ea; [discriminate|]. injection Ea as <-.
    revert Ec.
    apply (mapM_raise_inv (fun e => exists key, Raise e = Raise (KeyError key))).
    intros b e3 _ Eb. destruct (K a b e3 Eb) as [key ->]. eexists. reflexivity.
Qed.

Lemma getTable_missing_pair_witness :
  exists key,
    Distance.getTable_rows ["a"; "b"; "c"] [("a", "b", Distance.Number 1)]
    = Raise (KeyError key).
Proof.
  apply (getTable_missing_pair ["a"; "b"; "c"] [("a", "b", Distance.Number 1)]
           "a" "c");
    [discriminate|simpl; auto|simpl; auto|discriminate|reflexivity|reflexivity].
Defined.

(** ** The stored estimates and [getNewickTrees] *)

Lemma dict_get_set {V} k k' (v : V) d :
  dict_get k (dict_set k' v d)
  = if String.eqb k k' then Some v else dict_get k d.
Proof.
  induction d as [|[k2 v2] d IH]; unfold dict_get in *; simpl.
  - destruct (String.eqb k k'); reflexivity.
  - destruct (String.eqb k' k2) eqn:E; simpl.
    + apply String.eqb_eq in E. subst k2.
      destruct (String.eqb k k'); reflexivity.
    + destruct (String.eqb k k2) eqn:E2; simpl.
      * apply String.eqb_eq in E2. subst k2.
        rewrite String.eqb_sym, E. reflexivity.
      * exact IH.
Qed.

Lemma store_params_keys stats est_params : forall d d',
  Distance.store_params stats est_params d = Ok d' ->
  forall k, dict_get k d' <> None -> dict_get k d <> None \/ In k est_params.
Proof.
  induction est_params as [|p rest IH]; simpl; intros d d' H k Hk.
  - injection H as <-. left. exact Hk.
  - unbind H as s Es. unbind H as v Ev.
    destruct (IH _ _ H k Hk) as [Hd|Hin]; [|right; right; exact Hin].
    rewrite dict_get_set in Hd. destruct (String.eqb k p) eqn:E.
    + apply String.eqb_eq in E. right. left. symmetry. exact E.
    + left. exact Hd.
Qed.

Lemma comp_eqb_refl a : Distance.comp_eqb a a = true.
Proof.
  induction a as [|x a IH]; simpl; [reflexivity|].
  rewrite String.eqb_refl. exact IH.
Qed.

Lemma In_comp_set key v d : In (key, v) (Distance.comp_set key v d).
Proof.
  induction d as [|[k v'] d IH]; simpl; [left; reflexivity|].
  destruct (Distance.comp_eqb key k); [left; reflexivity|right; exact IH].
Qed.

Lemma doset_stored threeway est_params names stats ests ests' :
  Distance.__doset threeway est_params names stats ests = Ok ests' ->
  exists vals,
    In (names, vals) ests' /\
    forall k, dict_get k vals <> None -> k = "length" \/ In k est_params.
Proof.
  unfold Distance.__doset. intros H.
  unbind H as lengths El. unbind H as d Ed. unbind H as d' Ed'.
  injection H as <-. exists d'. split; [apply In_comp_set|].
  intros k Hk. destruct (store_params_keys _ _ _ _ Ed' k Hk) as [Hd|Hin];
    [left|right; exact Hin].
  assert (Hkeys : map fst d = ["length"]).
  { destruct threeway; simpl in Ed.
    - injection Ed as <-. reflexivity.
    - unbind Ed as v Ev. injection Ed as <-. reflexivity. }
  destruct d as [|[k0 v0] [|? ?]]; try discriminate Hkeys.
  injection Hkeys as ->. unfold dict_get in Hd. simpl in Hd.
  destruct (String.eqb k "length") eqn:E; [|contradiction].
  apply String.eqb_eq, E.
Qed.

Lemma getNewickTrees_missing repr str ests comp vals name :
  In (comp, vals) ests -> In name comp -> dict_get name vals = None ->
  exists key, Distance.getNewickTrees repr str ests = Raise (KeyError key).
Proof.
  intros Hin Hname Hnone. unfold Distance.getNewickTrees.
  match goal with |- exists key, ?r = _ => destruct r as [trees|e] eqn:E end.
  - exfalso. apply (mapM_inv "") in E. destruct E as [_ Hall].
    specialize (Hall _ Hin). cbv beta in Hall. cbn [fst snd] in Hall.
    match type of Hall with
    | bind ?m _ = _ => destruct m as [tips|] eqn:Et; [|discriminate Hall]
    end.
    apply (mapM_inv "") in Et. destruct Et as [_ Ht].
    specialize (Ht _ Hname). unfold Distance.lookup in Ht.
    rewrite Hnone in Ht. discriminate.
  - revert E.
    apply (mapM_raise_inv
             (fun e => exists key, Raise e = Raise (KeyError key))).
    intros item e' _ Ei.
    match type of Ei with
    | bind ?m _ = _ => destruct m as [tips|e2] eqn:Et; simpl in Ei;
                         [discriminate|]
    end.
    injection Ei as <-. revert Et.
    apply (mapM_raise_inv
             (fun e => exists key, Raise e = Raise (KeyError key))).
    intros n e3 _ En. unfold Distance.lookup in En.
    destruct (dict_get n (snd item)); simpl in En; [discriminate|].
    injection En as <-. eexists. reflexivity.
Qed.

(** X28. [__doset] stores the estimates of a comparison under the names of
    the parameters (['length'] and those of [est_params]), and
    [getNewickTrees] looks them up under the sequence names: once a
    comparison is stored with a sequence name that is no such parameter
    name, [getNewickTrees] raises a [KeyError]. *)
Theorem getNewickTrees_key_error repr str threeway est_params names stats
    ests ests' name :
  Distance.__doset threeway est_params names stats ests = Ok ests' ->
  In name names -> name <> "length" -> ~ In name est_params ->
  exists key, Distance.getNewickTrees repr str ests' = Raise (KeyError key).
Proof.
  intros H Hin Hl Hp. destruct (doset_stored _ _ _ _ _ _ H) as (vals & Hv & Hk).
  apply (getNewickTrees_missing repr str ests' names vals name Hv Hin).
  destruct (dict_get name vals) eqn:E; [|reflexivity].
  destruct (Hk name) as [->|Hin']; [rewrite E; discriminate| |]; contradiction.
Qed.

Lemma getNewickTrees_key_error_witness :
  exists key,
    Distance.getNewickTrees (fun s => s) (fun _ => "1.0")
      [(["a"; "b"], [("length", Distance.Float (1 * 2))])]
    = Raise (KeyError key).
Proof.
  apply (getNewickTrees_key_error (fun s => s) (fun _ => "1.0") false []
           ["a"; "b"] [("length", [("a", 1%Q)])] [] _ "a").
  - reflexivity.
  - simpl. auto.
  - discriminate.
  - simpl. auto.
Defined.
